(** * A shallow embedding of [sim.py]: block propagation and mining

    The development follows the source top to bottom: the delay queue of a
    [Connection], content-addressed [Block]s, the [Miner] state machine
    (fork choice, mining, orphan reconciliation), and the driver [main]
    with its end-of-run summary.

    Python exceptions are modelled by the [result] monad.  Objects that the
    program shares and mutates (miners, the process-wide [random] module)
    live in explicit state; miners are referred to by their position in the
    driver's registry. *)

From Equations Require Import Equations.
From Stdlib Require Import ZArith QArith List String Ascii Bool Lia.
From Stdlib Require Import DecimalString DecimalZ DecimalPos Permutation.
Import ListNotations.

Set Warnings "-register-all".

Local Open Scope string_scope.
Local Open Scope list_scope.
Local Open Scope Z_scope.

(** ** Exceptions *)

Inductive exn : Type :=
| AssertionError
| ValueError
| IndexError
| ZeroDivisionError
| RecursionError
(** not a Python exception: a [MinerRef] outside the registry, which an
    object reference cannot be *)
| DanglingReference.

Inductive result (A : Type) : Type :=
| Ok (a : A)
| Raise (e : exn).

Arguments Ok {A} a.
Arguments Raise {A} e.

Definition bind {A B : Type} (r : result A) (k : A -> result B) : result B :=
  match r with
  | Ok a => k a
  | Raise e => Raise e
  end.

Notation "x <- r ;; k" := (bind r (fun x => k))
  (at level 61, r at next level, right associativity).
Notation "' p <- r ;; k" := (bind r (fun p => k))
  (at level 61, p pattern, r at next level, right associativity).

(** ** Python dictionaries keyed by strings

    A [dict] keeps its items in insertion order; assigning to a key that is
    present replaces the value in place, assigning to a new key appends. *)

Definition dict (V : Type) : Type := list (string * V).

Section Dict.
Context {V : Type}.

Fixpoint dict_contains (k : string) (d : dict V) : bool :=
  match d with
  | [] => false
  | (k', _) :: d' => if String.eqb k k' then true else dict_contains k d'
  end.

Fixpoint dict_set (k : string) (v : V) (d : dict V) : dict V :=
  match d with
  | [] => [(k, v)]
  | (k', v') :: d' =>
      if String.eqb k k' then (k', v) :: d' else (k', v') :: dict_set k v d'
  end.

(** [d.pop(k)] for a key that is present. *)
Fixpoint dict_pop (k : string) (d : dict V) : dict V :=
  match d with
  | [] => []
  | (k', v') :: d' =>
      if String.eqb k k' then d' else (k', v') :: dict_pop k d'
  end.

Definition dict_keys (d : dict V) : list string := map fst d.
End Dict.

(** ** Blocks *)

(** A reference to a [Miner] object: its position in the driver's list. *)
Definition MinerRef : Type := nat.

Inductive Block : Type :=
  mkBlock { height : Z;
            time : Z;
            miner : option MinerRef;
            parent : option Block }.

(** What the program takes from the Python runtime: the SHA-256 hex digest,
    the default [str] of a [Miner] object (which embeds the address of the
    object), and the floating point value of [exp(-1/600)]. *)
Class Runtime : Type :=
  { sha256_hexdigest : string -> string;
    object_str : MinerRef -> string;
    exp_neg_1_600 : Q }.

(** [f"{height}"] for an [int]. *)
Definition str_int (z : Z) : string := NilZero.string_of_int (Z.to_int z).

Fixpoint repeat_string (s : string) (n : nat) : string :=
  match n with
  | O => EmptyString
  | S n' => (s ++ repeat_string s n')%string
  end.

Section Hash.
Context {RT : Runtime}.

(** [f"{miner}"] for an optional miner. *)
Definition str_miner (m : option MinerRef) : string :=
  match m with
  | Some r => object_str r
  | None => "None"
  end.

(** The [hash] attribute computed by [Block.__init__]. *)
Fixpoint Block_hash (b : Block) : string :=
  match b with
  | mkBlock h _ m p =>
      let parent_hash :=
        match p with
        | Some q => Block_hash q
        | None => repeat_string "0" 64
        end in
      let preimage := (str_int h ++ str_miner m ++ parent_hash)%string in
      sha256_hexdigest preimage
  end.
End Hash.

(** ** Connections: the delay queue *)

Record QueueEntry : Type :=
  mkQueueEntry { block : Block; tts : Z }.

(** Each connection is only in one direction. *)
Record Connection : Type :=
  mkConnection { sender : MinerRef;
                 receiver : MinerRef;
                 delay : Z;
                 blocks_to_send : list QueueEntry }.

Definition set_blocks_to_send (c : Connection) (q : list QueueEntry) : Connection :=
  mkConnection (sender c) (receiver c) (delay c) q.

Definition Connection_init (s r : MinerRef) (d : Z) : Connection :=
  mkConnection s r d [].

Definition queue_block (c : Connection) (b : Block) : Connection :=
  set_blocks_to_send c (blocks_to_send c ++ [mkQueueEntry b (delay c)]).

(** ** Miners *)

Record Miner : Type :=
  mkMiner { hashrate_proportion : Q;
            current_block : Block;
            name : string;
            block_candidates : list Block;
            connections : list Connection;
            known_blocks : dict Block;
            rejected_blocks : dict Block;
            blocks_mined : Z;
            probability_per_second : Q;
            (** the identity of the object, [self] *)
            self_ref : MinerRef }.

Definition set_current_block (m : Miner) (b : Block) : Miner :=
  mkMiner (hashrate_proportion m) b (name m) (block_candidates m)
          (connections m) (known_blocks m) (rejected_blocks m)
          (blocks_mined m) (probability_per_second m) (self_ref m).

Definition set_block_candidates (m : Miner) (l : list Block) : Miner :=
  mkMiner (hashrate_proportion m) (current_block m) (name m) l
          (connections m) (known_blocks m) (rejected_blocks m)
          (blocks_mined m) (probability_per_second m) (self_ref m).

Definition set_connections (m : Miner) (l : list Connection) : Miner :=
  mkMiner (hashrate_proportion m) (current_block m) (name m) (block_candidates m)
          l (known_blocks m) (rejected_blocks m)
          (blocks_mined m) (probability_per_second m) (self_ref m).

Definition set_known_blocks (m : Miner) (d : dict Block) : Miner :=
  mkMiner (hashrate_proportion m) (current_block m) (name m) (block_candidates m)
          (connections m) d (rejected_blocks m)
          (blocks_mined m) (probability_per_second m) (self_ref m).

Definition set_rejected_blocks (m : Miner) (d : dict Block) : Miner :=
  mkMiner (hashrate_proportion m) (current_block m) (name m) (block_candidates m)
          (connections m) (known_blocks m) d
          (blocks_mined m) (probability_per_second m) (self_ref m).

Definition set_blocks_mined (m : Miner) (n : Z) : Miner :=
  mkMiner (hashrate_proportion m) (current_block m) (name m) (block_candidates m)
          (connections m) (known_blocks m) (rejected_blocks m)
          n (probability_per_second m) (self_ref m).

(** ** The [random] module

    The program draws from the module-level generator of [random], which
    it never seeds.  Its state is threaded explicitly: [random_random] is
    [random.random()], and [random_randbelow n] is the index that
    [random.choice] picks in a sequence of length [n]. *)

Class RandomSource (G : Type) : Type :=
  { random_random : G -> Q * G;
    random_randbelow : nat -> G -> nat * G;
    random_randbelow_lt :
      forall n g, (0 < n)%nat -> (fst (random_randbelow n g) < n)%nat }.

Definition Qlt_bool (x y : Q) : bool := negb (Qle_bool y x).

(** [max] over the values of a generator; [ValueError] when it is empty. *)
Definition py_max (l : list Z) : result Z :=
  match l with
  | [] => Raise ValueError
  | x :: xs => Ok (fold_left Z.max xs x)
  end.

Section MinerOps.
Context {RT : Runtime} {G : Type} {RS : RandomSource G}.

Definition random_choice {A : Type} (seq : list A) (g : G) : result (A * G) :=
  match seq with
  | [] => Raise IndexError
  | _ :: _ =>
      let (i, g') := random_randbelow (List.length seq) g in
      match nth_error seq i with
      | Some x => Ok (x, g')
      | None => Raise IndexError
      end
  end.

Definition Miner_init (self : MinerRef) (nm : string) (initial_block : Block)
           (hashrate : Q) : Miner :=
  mkMiner hashrate initial_block nm [] []
          [(Block_hash initial_block, initial_block)] []
          0 (hashrate * (1 - exp_neg_1_600))%Q self.

(** Add connection to another miner with a given propagation delay. *)
Definition add_connection (m : Miner) (other : MinerRef) (d : Z) : Miner :=
  set_connections m (connections m ++ [Connection_init (self_ref m) other d]).

Definition is_mine (m : Miner) (b : Block) : bool :=
  match miner b with
  | Some r => Nat.eqb r (self_ref m)
  | None => false
  end.

(** Sets [current_block] and clears [block_candidates]. *)
Definition evaluate_candidates (m : Miner) (g : G) : result (Miner * G) :=
  max_height <- py_max (map height (block_candidates m)) ;;
  let candidates_max_height :=
    filter (fun b => height b =? max_height) (block_candidates m) in
  match find (is_mine m) candidates_max_height with
  | Some candidate =>
      Ok (set_block_candidates (set_current_block m candidate) [], g)
  | None =>
      '(chosen, g') <- random_choice candidates_max_height g ;;
      Ok (set_block_candidates (set_current_block m chosen) [], g')
  end.

Definition announce (m : Miner) (b : Block) : Miner :=
  let m1 := set_blocks_mined m (blocks_mined m + 1) in
  set_connections m1 (map (fun c => queue_block c b) (connections m1)).

Definition mine (m : Miner) (t : Z) (g : G) : result (Miner * G) :=
  '(m1, g1) <- (if (0 <? Z.of_nat (List.length (block_candidates m)))
                then evaluate_candidates m g
                else Ok (m, g)) ;;
  let (x, g2) := random_random g1 in
  if Qlt_bool x (probability_per_second m1) then
    let found_block :=
      mkBlock (height (current_block m1) + 1) t (Some (self_ref m1))
              (Some (current_block m1)) in
    let m2 := set_known_blocks m1
                (dict_set (Block_hash found_block) found_block (known_blocks m1)) in
    let m3 := set_block_candidates m2 (block_candidates m2 ++ [found_block]) in
    Ok (announce m3 found_block, g2)
  else Ok (m1, g2).

(** The [for] loop of [refresh_rejects]: the first rejected block, in
    insertion order, whose parent's hash is known. *)
Fixpoint scan_rejects (known items : dict Block)
  : result (option (string * Block)) :=
  match items with
  | [] => Ok None
  | (reject_hash, reject_block) :: rest =>
      match parent reject_block with
      | None => Raise AssertionError
      | Some p =>
          if dict_contains (Block_hash p) known
          then Ok (Some (reject_hash, reject_block))
          else scan_rejects known rest
      end
  end.

Lemma scan_rejects_contains known items h b :
  scan_rejects known items = Ok (Some (h, b)) ->
  dict_contains h items = true.
Proof.
  induction items as [|[k v] rest IH]; simpl; [discriminate|].
  destruct (parent v) as [p|]; [|discriminate].
  destruct (dict_contains (Block_hash p) known).
  - intros E. injection E as -> ->. now rewrite String.eqb_refl.
  - intros E. rewrite (IH E). now destruct (String.eqb h k).
Qed.

Lemma dict_pop_length {V : Type} h (d : dict V) :
  dict_contains h d = true -> (List.length (dict_pop h d) < List.length d)%nat.
Proof.
  induction d as [|[k v] rest IH]; simpl; [discriminate|].
  destruct (String.eqb h k); simpl; [lia|].
  intros E. specialize (IH E). lia.
Qed.

Definition inspect {A : Type} (a : A) : {b : A | a = b} := exist _ a eq_refl.

(** [refresh_rejects] on the two dictionaries it reads and writes.  Every
    recursive call follows a [pop], so the recursion ends.  This is the
    recursion without the depth limit of the interpreter;
    [refresh_loop_within] below has the limit. *)
Equations? refresh_loop (known rejected : dict Block)
  : result (dict Block * dict Block) by wf (List.length rejected) lt :=
  refresh_loop known rejected with inspect (scan_rejects known rejected) := {
    | exist _ (Raise e) _ => Raise e
    | exist _ (Ok None) _ => Ok (known, rejected)
    | exist _ (Ok (Some (moved, reject_block))) Hscan =>
        refresh_loop (dict_set moved reject_block known) (dict_pop moved rejected) }.
Proof.
  apply dict_pop_length. eapply scan_rejects_contains. exact Hscan.
Qed.

Definition refresh_rejects (m : Miner) : result Miner :=
  '(known, rejected) <- refresh_loop (known_blocks m) (rejected_blocks m) ;;
  Ok (set_rejected_blocks (set_known_blocks m known) rejected).

Definition receive_block (m : Miner) (b : Block) : result Miner :=
  match parent b with
  | None => Raise AssertionError
  | Some p =>
      if dict_contains (Block_hash b) (known_blocks m) then Ok m
      else if negb (dict_contains (Block_hash p) (known_blocks m)) then
        Ok (set_rejected_blocks m (dict_set (Block_hash b) b (rejected_blocks m)))
      else
        let m1 := set_known_blocks m (dict_set (Block_hash b) b (known_blocks m)) in
        m2 <- refresh_rejects m1 ;;
        if height b >? height (current_block m2)
        then Ok (set_block_candidates m2 (block_candidates m2 ++ [b]))
        else Ok m2
  end.

(** [refresh_rejects] with the depth limit of the interpreter made
    explicit: [budget] is the number of nested calls of [refresh_rejects]
    the call stack still has room for, and a call beyond it raises
    [RecursionError].  [refresh_loop] above is the same recursion without
    that limit. *)
Fixpoint refresh_loop_within (budget : nat) (known rejected : dict Block)
  : result (dict Block * dict Block) :=
  match budget with
  | O => Raise RecursionError
  | S budget' =>
      match scan_rejects known rejected with
      | Raise e => Raise e
      | Ok None => Ok (known, rejected)
      | Ok (Some (moved, reject_block)) =>
          refresh_loop_within budget' (dict_set moved reject_block known)
                              (dict_pop moved rejected)
      end
  end.

Definition refresh_rejects_within (budget : nat) (m : Miner) : result Miner :=
  '(known, rejected) <-
     refresh_loop_within budget (known_blocks m) (rejected_blocks m) ;;
  Ok (set_rejected_blocks (set_known_blocks m known) rejected).

Definition receive_block_within (budget : nat) (m : Miner) (b : Block)
  : result Miner :=
  match parent b with
  | None => Raise AssertionError
  | Some p =>
      if dict_contains (Block_hash b) (known_blocks m) then Ok m
      else if negb (dict_contains (Block_hash p) (known_blocks m)) then
        Ok (set_rejected_blocks m (dict_set (Block_hash b) b (rejected_blocks m)))
      else
        let m1 := set_known_blocks m (dict_set (Block_hash b) b (known_blocks m)) in
        m2 <- refresh_rejects_within budget m1 ;;
        if height b >? height (current_block m2)
        then Ok (set_block_candidates m2 (block_candidates m2 ++ [b]))
        else Ok m2
  end.
End MinerOps.

(** ** Delivery: [Connection.tick] and [Miner.send_messages]

    The registry [ms] holds every miner; a connection delivers into the
    miner its [receiver] refers to. *)

Fixpoint foldM {A S : Type} (f : S -> A -> result S) (l : list A) (s : S)
  : result S :=
  match l with
  | [] => Ok s
  | a :: l' => s' <- f s a ;; foldM f l' s'
  end.

Fixpoint update_nth {A : Type} (i : nat) (f : A -> A) (l : list A) : list A :=
  match l, i with
  | [], _ => []
  | a :: l', O => f a :: l'
  | a :: l', S i' => a :: update_nth i' f l'
  end.

Section Delivery.
Context {RT : Runtime}.

Definition send_block (c : Connection) (b : Block) (ms : list Miner)
  : result (list Miner) :=
  match miner b with
  | None => Raise AssertionError
  | Some _ =>
      match nth_error ms (receiver c) with
      | None => Raise DanglingReference
      | Some r =>
          r' <- receive_block r b ;;
          Ok (update_nth (receiver c) (fun _ => r') ms)
      end
  end.

(** The [for] loop of [Connection.tick]. *)
Fixpoint tick_loop (c : Connection) (entries remaining : list QueueEntry)
         (ms : list Miner) : result (list QueueEntry * list Miner) :=
  match entries with
  | [] => Ok (remaining, ms)
  | entry :: rest =>
      if tts entry =? 0 then
        ms' <- send_block c (block entry) ms ;;
        tick_loop c rest remaining ms'
      else
        tick_loop c rest
                  (remaining ++ [mkQueueEntry (block entry) (tts entry - 1)]) ms
  end.

Definition Connection_tick (c : Connection) (ms : list Miner)
  : result (Connection * list Miner) :=
  if Nat.eqb (List.length (blocks_to_send c)) 0 then Ok (c, ms)
  else
    '(remaining, ms') <- tick_loop c (blocks_to_send c) [] ms ;;
    Ok (set_blocks_to_send c remaining, ms').

(** [connection.tick()] for the [k]-th connection of miner [i]. *)
Definition tick_connection (i : MinerRef) (ms : list Miner) (k : nat)
  : result (list Miner) :=
  match nth_error ms i with
  | None => Raise DanglingReference
  | Some m =>
      match nth_error (connections m) k with
      | None => Raise DanglingReference
      | Some c =>
          '(c', ms') <- Connection_tick c ms ;;
          Ok (update_nth i
                (fun m' => set_connections m'
                             (update_nth k (fun _ => c') (connections m')))
                ms')
      end
  end.

Definition send_messages (ms : list Miner) (i : MinerRef) : result (list Miner) :=
  match nth_error ms i with
  | None => Raise DanglingReference
  | Some m => foldM (tick_connection i) (seq 0 (List.length (connections m))) ms
  end.
End Delivery.

(** ** The driver *)

(** [range(a, b)] *)
Definition py_range (a b : Z) : list Z :=
  map (fun i => a + Z.of_nat i) (seq 0 (Z.to_nat (b - a))).

(** [a / b] on two [int]s. *)
Definition py_truediv (a b : Z) : result Q :=
  if b =? 0 then Raise ZeroDivisionError else Ok (Qmake a 1 / Qmake b 1)%Q.

(** The figures printed for one miner at the end of the run. *)
Record Summary : Type :=
  mkSummary { s_hashrate_proportion : Q;
              s_height : Z;
              s_known_blocks : nat;
              s_blocks_in_chain : Z;
              s_blocks_mined : Z;
              s_percentage : option Q;
              s_stale_blocks : Z;
              s_stale_rate : Q }.

Section Driver.
Context {RT : Runtime} {G : Type} {RS : RandomSource G}.

Definition seconds_to_simulate (block_periods_to_simulate : Z) : Z :=
  block_periods_to_simulate * 600.

Definition genesis_block : Block := mkBlock 0 0 None None.

Definition initial_miners : list Miner :=
  let a := Miner_init 0%nat "A" genesis_block (3 # 10) in
  let b := Miner_init 1%nat "B" genesis_block (3 # 10) in
  let c := Miner_init 2%nat "C" genesis_block (4 # 10) in
  let a := add_connection a 1%nat 0 in
  let a := add_connection a 2%nat 5 in
  let b := add_connection b 0%nat 0 in
  let b := add_connection b 2%nat 0 in
  let c := add_connection c 0%nat 0 in
  let c := add_connection c 1%nat 0 in
  [a; b; c].

Definition mine_at (t : Z) (w : list Miner * G) (i : MinerRef)
  : result (list Miner * G) :=
  match nth_error (fst w) i with
  | None => Raise DanglingReference
  | Some m =>
      '(m', g') <- mine m t (snd w) ;;
      Ok (update_nth i (fun _ => m') (fst w), g')
  end.

(** The body of the [for t in range(...)] loop. *)
Definition main_tick (w : list Miner * G) (t : Z) : result (list Miner * G) :=
  let refs := seq 0 (List.length (fst w)) in
  (* First an announcement phase *)
  ms <- foldM send_messages refs (fst w) ;;
  (* Second, a mining phase *)
  foldM (mine_at t) refs (ms, snd w).

(** The tick times the loop of [main] goes through. *)
Definition tick_times (block_periods_to_simulate : Z) : list Z :=
  py_range 1 (seconds_to_simulate block_periods_to_simulate).

Definition simulate (block_periods_to_simulate : Z) (g : G)
  : result (list Miner * G) :=
  foldM main_tick (tick_times block_periods_to_simulate) (initial_miners, g).

(** Count blocks mined by this miner in their main chain. *)
Fixpoint count_in_chain (self : MinerRef) (b : Block) : Z :=
  match b with
  | mkBlock _ _ m p =>
      match p with
      | None => 0
      | Some q =>
          (match m with
           | Some r => if Nat.eqb r self then 1 else 0
           | None => 0
           end) + count_in_chain self q
      end
  end.

Definition summarize (m : Miner) : result Summary :=
  let blocks_in_chain := count_in_chain (self_ref m) (current_block m) in
  percentage <-
    (if height (current_block m) >? 0
     then q <- py_truediv blocks_in_chain (height (current_block m)) ;; Ok (Some q)
     else Ok None) ;;
  let stale_blocks := blocks_mined m - blocks_in_chain in
  stale_rate <- py_truediv stale_blocks (blocks_mined m) ;;
  Ok (mkSummary (hashrate_proportion m) (height (current_block m))
                (List.length (known_blocks m)) blocks_in_chain (blocks_mined m)
                percentage stale_blocks stale_rate).

Fixpoint summarize_all (ms : list Miner) : result (list Summary) :=
  match ms with
  | [] => Ok []
  | m :: ms' =>
      s <- summarize m ;;
      ss <- summarize_all ms' ;;
      Ok (s :: ss)
  end.

Definition main (block_periods_to_simulate : Z) (g : G) : result (list Summary) :=
  w <- simulate block_periods_to_simulate g ;;
  summarize_all (fst w).
End Driver.

(** ** A concrete runtime and a scripted random source

    Used to run the model on concrete inputs.  [plain_runtime] takes the
    preimage itself as the digest, so that distinct preimages have distinct
    digests; [Script] replays a fixed list of [random()] values and a fixed
    list of choices. *)

#[export] Instance plain_runtime : Runtime :=
  {| sha256_hexdigest := fun s => s;
     object_str := fun r => ("<Miner " ++ str_int (Z.of_nat r) ++ ">")%string;
     exp_neg_1_600 := 998334721 # 1000000000 |}.

Record Script : Type :=
  mkScript { floats : list Q; picks : list nat }.

Definition script_random (g : Script) : Q * Script :=
  match floats g with
  | [] => (1 # 2, g)
  | x :: xs => (x, mkScript xs (picks g))
  end.

Definition script_randbelow (n : nat) (g : Script) : nat * Script :=
  match picks g with
  | [] => (0%nat, g)
  | i :: rest => (Nat.modulo i n, mkScript (floats g) rest)
  end.

Lemma script_randbelow_lt n g :
  (0 < n)%nat -> (fst (script_randbelow n g) < n)%nat.
Proof.
  intros Hn. unfold script_randbelow.
  destruct (picks g); simpl; [exact Hn|].
  apply Nat.mod_upper_bound. lia.
Qed.

#[export] Instance script_source : RandomSource Script :=
  {| random_random := script_random;
     random_randbelow := script_randbelow;
     random_randbelow_lt := script_randbelow_lt |}.

(** * Properties *)

(** ** The delay queue *)

(** The entries a tick hands over, in queue order, and the entries it keeps. *)
Definition due (q : list QueueEntry) : list Block :=
  map block (filter (fun e => tts e =? 0) q).

Definition kept (q : list QueueEntry) : list QueueEntry :=
  map (fun e => mkQueueEntry (block e) (tts e - 1))
      (filter (fun e => negb (tts e =? 0)) q).










Section QueueProperties.
Context {RT : Runtime}.

Lemma tick_loop_spec c entries remaining ms :
  tick_loop c entries remaining ms =
  (ms' <- foldM (fun s b => send_block c b s) (due entries) ms ;;
   Ok (remaining ++ kept entries, ms')).
Proof.
  revert remaining ms.
  induction entries as [|e rest IH]; intros remaining ms; simpl.
  - unfold kept. simpl. now rewrite app_nil_r.
  - unfold due, kept. simpl.
    destruct (tts e =? 0); simpl.
    + destruct (send_block c (block e) ms) as [ms'|x]; simpl; [|reflexivity].
      apply IH.
    + rewrite IH. unfold due, kept.
      destruct (foldM _ _ ms); simpl; [|reflexivity].
      now rewrite <- app_assoc.
Qed.

Lemma Connection_tick_spec c ms :
  Connection_tick c ms =
  (ms' <- foldM (fun s b => send_block c b s) (due (blocks_to_send c)) ms ;;
   Ok (set_blocks_to_send c (kept (blocks_to_send c)), ms')).
Proof.
  unfold Connection_tick.
  destruct (blocks_to_send c) as [|e q] eqn:Hq.
  - simpl. destruct c; simpl in *. now subst.
  - simpl Nat.eqb. cbv iota. rewrite tick_loop_spec.
    destruct (foldM _ _ ms); reflexivity.
Qed.

End QueueProperties.

(** ** Fork choice *)

Lemma fold_left_max_spec xs : forall x h,
  x <= h -> (forall y, In y xs -> y <= h) -> (x = h \/ In h xs) ->
  fold_left Z.max xs x = h.
Proof.
  induction xs as [|y ys IH]; intros x h Hx Hall Hin; simpl.
  - destruct Hin as [E|[]]. exact E.
  - apply IH.
    + apply Z.max_lub; [exact Hx|]. apply Hall. now left.
    + intros z Hz. apply Hall. now right.
    + destruct Hin as [E|[E|Hin]].
      * left. subst. apply Z.max_l. apply Hall. now left.
      * left. subst. now apply Z.max_r.
      * now right.
Qed.

Lemma py_max_spec l h :
  In h l -> (forall y, In y l -> y <= h) -> py_max l = Ok h.
Proof.
  destruct l as [|x xs]; intros Hin Hall; [destruct Hin|].
  simpl. f_equal. apply fold_left_max_spec.
  - apply Hall. now left.
  - intros y Hy. apply Hall. now right.
  - destruct Hin as [E|Hin]; [now left|now right].
Qed.

Lemma fold_left_max_in xs : forall x,
  fold_left Z.max xs x = x \/ In (fold_left Z.max xs x) xs.
Proof.
  induction xs as [|y ys IH]; intros x; simpl; [now left|].
  destruct (IH (Z.max x y)) as [E|Hin]; [|now right; right].
  rewrite E. destruct (Z.max_spec x y) as [[_ ->]|[_ ->]]; [right|]; now left.
Qed.

Lemma py_max_in l h : py_max l = Ok h -> In h l.
Proof.
  destruct l as [|x xs]; simpl; [discriminate|].
  intros E. injection E as <-.
  destruct (fold_left_max_in xs x) as [->|Hin]; [now left|now right].
Qed.

Lemma py_max_nonempty l : l <> [] -> exists h, py_max l = Ok h.
Proof. destruct l; [congruence|]. intros _. simpl. eauto. Qed.

Section ForkChoice.
Context {RT : Runtime} {G : Type} {RS : RandomSource G}.

Lemma random_choice_total {A : Type} (l : list A) (g : G) :
  l <> [] -> exists x g', random_choice l g = Ok (x, g') /\ In x l.
Proof.
  intros Hl. unfold random_choice.
  destruct l as [|a l']; [congruence|].
  pose proof (random_randbelow_lt (List.length (a :: l')) g) as Hlt.
  destruct (random_randbelow (List.length (a :: l')) g) as [i g'].
  simpl fst in Hlt.
  destruct (nth_error (a :: l') i) as [x|] eqn:Hnth.
  - exists x, g'. split; [reflexivity|]. eapply nth_error_In; eauto.
  - apply nth_error_None in Hnth. simpl in *. lia.
Qed.

(** C3.  When some candidate of maximum height was mined by the
    evaluating miner itself, [evaluate_candidates] makes such a block the
    new tip, whatever the state of the random source, which it leaves
    untouched; afterwards the candidate list is empty. *)
Theorem evaluate_candidates_prefers_own (m : Miner) (b : Block) :
  In b (block_candidates m) ->
  (forall c, In c (block_candidates m) -> height c <= height b) ->
  is_mine m b = true ->
  exists own,
    In own (block_candidates m) /\
    height own = height b /\
    is_mine m own = true /\
    forall g : G,
      evaluate_candidates m g =
      Ok (set_block_candidates (set_current_block m own) [], g) /\
      current_block (set_block_candidates (set_current_block m own) []) = own /\
      block_candidates (set_block_candidates (set_current_block m own) []) = [].
Proof.
  intros Hin Hmax Hmine.
  assert (Hpy : py_max (map height (block_candidates m)) = Ok (height b)).
  { apply py_max_spec.
    - now apply in_map.
    - intros y Hy. apply in_map_iff in Hy as [c [<- Hc]]. now apply Hmax. }
  destruct (find (is_mine m)
              (filter (fun c => height c =? height b) (block_candidates m)))
    as [own|] eqn:Hfind.
  - exists own. apply find_some in Hfind as Hown.
    destruct Hown as [Hown1 Hown2].
    apply filter_In in Hown1 as [Hown1 Hh]. apply Z.eqb_eq in Hh.
    repeat split; try assumption.
    unfold evaluate_candidates. rewrite Hpy. simpl. now rewrite Hfind.
  - exfalso.
    assert (Hb : In b (filter (fun c => height c =? height b) (block_candidates m))).
    { apply filter_In. split; [exact Hin|]. apply Z.eqb_refl. }
    pose proof (find_none _ _ Hfind b Hb) as Hno. congruence.
Qed.

Lemma evaluate_candidates_total (m : Miner) (g : G) :
  block_candidates m <> [] -> exists r, evaluate_candidates m g = Ok r.
Proof.
  intros Hne. unfold evaluate_candidates.
  destruct (py_max_nonempty (map height (block_candidates m))) as [h Hh].
  { destruct (block_candidates m); [congruence|discriminate]. }
  rewrite Hh. simpl.
  destruct (find _ _); [eauto|].
  apply py_max_in in Hh. apply in_map_iff in Hh as [c [Hc Hin]].
  destruct (random_choice_total
              (filter (fun b => height b =? h) (block_candidates m)) g)
    as [x [g' [E _]]].
  { intros Hnil.
    assert (Hc' : In c (filter (fun b => height b =? h) (block_candidates m))).
    { apply filter_In. split; [exact Hin|]. now apply Z.eqb_eq. }
    rewrite Hnil in Hc'. destruct Hc'. }
  rewrite E. simpl. eauto.
Qed.

(** C9.  [evaluate_candidates] fails on its maximum computation exactly
    when the candidate list is empty, and returns normally otherwise;
    [mine], which calls it only on a non-empty list, always returns
    normally. *)
Theorem evaluation_never_on_empty_candidates (m : Miner) (t : Z) (g : G) :
  (block_candidates m = [] <-> evaluate_candidates m g = Raise ValueError) /\
  (block_candidates m <> [] -> exists r, evaluate_candidates m g = Ok r) /\
  (exists r, mine m t g = Ok r).
Proof.
  split; [|split].
  - split.
    + intros E. unfold evaluate_candidates. now rewrite E.
    + intros E. destruct (block_candidates m) as [|c cs] eqn:Hc; [reflexivity|].
      destruct (evaluate_candidates_total m g) as [r Hr]; [congruence|].
      congruence.
  - apply evaluate_candidates_total.
  - unfold mine.
    destruct (block_candidates m) as [|c cs] eqn:Hc.
    + simpl. destruct (random_random g) as [x g2].
      destruct (Qlt_bool x (probability_per_second m)); eauto.
    + destruct (evaluate_candidates_total m g) as [[m1 g1] Hr]; [congruence|].
      replace (0 <? Z.of_nat (List.length (c :: cs))) with true
        by (symmetry; apply Z.ltb_lt; simpl; lia).
      rewrite Hr. simpl.
      destruct (random_random g1) as [x g2].
      destruct (Qlt_bool x (probability_per_second m1)); eauto.
Qed.
End ForkChoice.

(** ** Dictionaries *)

Section DictFacts.
Context {V : Type}.

Lemma dict_contains_set (k k' : string) (v : V) (d : dict V) :
  dict_contains k (dict_set k' v d) = (String.eqb k k' || dict_contains k d)%bool.
Proof.
  induction d as [|[k0 v0] d IH]; simpl.
  - now destruct (String.eqb k k').
  - destruct (String.eqb_spec k' k0) as [->|Hne]; simpl.
    + now destruct (String.eqb k k0).
    + rewrite IH. destruct (String.eqb_spec k k0) as [->|Hne'].
      * now rewrite orb_true_r.
      * reflexivity.
Qed.

Lemma dict_contains_set_same (k : string) (v : V) (d : dict V) :
  dict_contains k (dict_set k v d) = true.
Proof. now rewrite dict_contains_set, String.eqb_refl. Qed.

Lemma dict_contains_set_mono (k k' : string) (v : V) (d : dict V) :
  dict_contains k d = true -> dict_contains k (dict_set k' v d) = true.
Proof. intros E. rewrite dict_contains_set, E. apply orb_true_r. Qed.

Lemma dict_set_idempotent (k : string) (v : V) (d : dict V) :
  dict_set k v (dict_set k v d) = dict_set k v d.
Proof.
  induction d as [|[k0 v0] d IH]; simpl.
  - now rewrite String.eqb_refl.
  - destruct (String.eqb k k0) eqn:E; simpl; rewrite E; [reflexivity|].
    now rewrite IH.
Qed.

Lemma dict_contains_pop (k k' : string) (d : dict V) :
  dict_contains k (dict_pop k' d) = true -> dict_contains k d = true.
Proof.
  induction d as [|[k0 v0] d IH]; simpl; [trivial|].
  destruct (String.eqb k' k0); simpl.
  - intros E. rewrite E. now destruct (String.eqb k k0).
  - destruct (String.eqb k k0); [trivial|exact IH].
Qed.

Lemma dict_contains_pop_other (k k' : string) (d : dict V) :
  k <> k' -> dict_contains k d = true -> dict_contains k (dict_pop k' d) = true.
Proof.
  intros Hne. induction d as [|[k0 v0] d IH]; simpl; [trivial|].
  destruct (String.eqb_spec k' k0) as [->|Hne']; simpl.
  - destruct (String.eqb_spec k k0); [congruence|trivial].
  - destruct (String.eqb k k0); [trivial|exact IH].
Qed.
End DictFacts.

(** ** Receiving blocks and reconciliation *)

Section Receive.
Context {RT : Runtime}.

Lemma refresh_loop_step known rejected :
  refresh_loop known rejected =
  match scan_rejects known rejected with
  | Raise e => Raise e
  | Ok None => Ok (known, rejected)
  | Ok (Some (moved, reject_block)) =>
      refresh_loop (dict_set moved reject_block known) (dict_pop moved rejected)
  end.
Proof.
  funelim (refresh_loop known rejected);
    match goal with H : scan_rejects _ _ = _ |- _ => rewrite H end;
    reflexivity.
Qed.

(** Induction along the passes of [refresh_rejects]. *)
Lemma refresh_loop_induction (P : dict Block -> dict Block -> Prop) :
  (forall known rejected,
      (forall moved reject_block,
          scan_rejects known rejected = Ok (Some (moved, reject_block)) ->
          P (dict_set moved reject_block known) (dict_pop moved rejected)) ->
      P known rejected) ->
  forall known rejected, P known rejected.
Proof.
  intros Hstep known rejected.
  remember (List.length rejected) as n eqn:Hn.
  revert known rejected Hn.
  induction n as [n IH] using lt_wf_ind. intros known rejected Hn.
  apply Hstep. intros moved reject_block Hscan.
  apply (IH (List.length (dict_pop moved rejected))); [|reflexivity].
  subst n. apply dict_pop_length. eapply scan_rejects_contains; eauto.
Qed.

Lemma refresh_loop_known_mono known rejected : forall known' rejected' h,
  refresh_loop known rejected = Ok (known', rejected') ->
  dict_contains h known = true -> dict_contains h known' = true.
Proof.
  revert known rejected. apply (refresh_loop_induction
    (fun known rejected => forall known' rejected' h,
         refresh_loop known rejected = Ok (known', rejected') ->
         dict_contains h known = true -> dict_contains h known' = true)).
  intros known rejected IH known' rejected' h E Hk.
  rewrite refresh_loop_step in E.
  destruct (scan_rejects known rejected) as [[[moved rb]|]|e] eqn:Hscan.
  - eapply IH; eauto. now apply dict_contains_set_mono.
  - injection E as <- <-. exact Hk.
  - discriminate.
Qed.

Lemma refresh_rejects_known_mono m m' h :
  refresh_rejects m = Ok m' ->
  dict_contains h (known_blocks m) = true ->
  dict_contains h (known_blocks m') = true.
Proof.
  unfold refresh_rejects.
  destruct (refresh_loop (known_blocks m) (rejected_blocks m))
    as [[known rejected]|e] eqn:E; simpl; [|discriminate].
  intros Hm Hk. injection Hm as <-. simpl.
  eapply refresh_loop_known_mono; eauto.
Qed.

(** C10.  A block that is not known and whose parent is not known is
    stored in [rejected_blocks] under its hash; nothing else in the miner
    changes. *)
Theorem receive_block_orphan_frame (m : Miner) (b p : Block) :
  parent b = Some p ->
  dict_contains (Block_hash b) (known_blocks m) = false ->
  dict_contains (Block_hash p) (known_blocks m) = false ->
  exists m',
    receive_block m b = Ok m' /\
    rejected_blocks m' = dict_set (Block_hash b) b (rejected_blocks m) /\
    known_blocks m' = known_blocks m /\
    current_block m' = current_block m /\
    block_candidates m' = block_candidates m /\
    blocks_mined m' = blocks_mined m /\
    connections m' = connections m /\
    hashrate_proportion m' = hashrate_proportion m /\
    probability_per_second m' = probability_per_second m /\
    name m' = name m /\
    self_ref m' = self_ref m.
Proof.
  intros Hp Hb Hpk.
  exists (set_rejected_blocks m (dict_set (Block_hash b) b (rejected_blocks m))).
  unfold receive_block. rewrite Hp, Hb, Hpk. simpl.
  repeat split.
Qed.

(** C6.  Delivering a block a second time changes nothing: whenever
    [receive_block] returns, receiving the same block again returns the
    very same miner state, in particular the same [known_blocks] and the
    same candidates. *)
Theorem receive_block_idempotent (m m1 : Miner) (b : Block) :
  receive_block m b = Ok m1 ->
  receive_block m1 b = Ok m1 /\
  (forall m2, receive_block m1 b = Ok m2 ->
              known_blocks m2 = known_blocks m1 /\
              block_candidates m2 = block_candidates m1).
Proof.
  intros H.
  assert (H1 : receive_block m1 b = Ok m1).
  { unfold receive_block in *.
    destruct (parent b) as [p|]; [|discriminate].
    destruct (dict_contains (Block_hash b) (known_blocks m)) eqn:K.
    - injection H as <-. now rewrite K.
    - destruct (dict_contains (Block_hash p) (known_blocks m)) eqn:KP; simpl in H.
      + destruct (refresh_rejects _) as [m2|e] eqn:R; simpl in H; [|discriminate].
        assert (K2 : dict_contains (Block_hash b) (known_blocks m2) = true).
        { eapply refresh_rejects_known_mono; [exact R|].
          simpl. apply dict_contains_set_same. }
        destruct (height b >? height (current_block m2));
          injection H as <-; simpl; now rewrite K2.
      + injection H as <-. simpl. rewrite K, KP. simpl.
        unfold set_rejected_blocks. simpl.
        now rewrite dict_set_idempotent. }
  split; [exact H1|].
  intros m2 H2. rewrite H1 in H2. injection H2 as <-. now split.
Qed.
End Receive.

(** ** Reconciled orphans and candidates *)

Section OrphanCandidate.
Context {RT : Runtime}.

Opaque Block_hash.

(** C1.  A miner that knows only the genesis block receives a block of
    height 2 before its parent.  The child is stored as an orphan; when
    the parent arrives the child is reconciled (it leaves
    [rejected_blocks] and enters [known_blocks]), and its height exceeds
    the height of the tip, yet the only candidate is the parent: the
    reconciled block is not added to the candidates. *)
Theorem reconciled_orphan_not_candidate
        (self a b : MinerRef) (nm : string) (hr : Q) (t1 t2 : Z) :
  let parent_block := mkBlock 1 t1 (Some a) (Some genesis_block) in
  let orphan := mkBlock 2 t2 (Some b) (Some parent_block) in
  let m0 := Miner_init self nm genesis_block hr in
  Block_hash parent_block <> Block_hash genesis_block ->
  Block_hash orphan <> Block_hash genesis_block ->
  Block_hash orphan <> Block_hash parent_block ->
  exists m1 m2,
    receive_block m0 orphan = Ok m1 /\
    dict_contains (Block_hash orphan) (rejected_blocks m1) = true /\
    receive_block m1 parent_block = Ok m2 /\
    dict_contains (Block_hash orphan) (known_blocks m2) = true /\
    dict_contains (Block_hash orphan) (rejected_blocks m2) = false /\
    height orphan > height (current_block m2) /\
    block_candidates m2 = [parent_block] /\
    ~ In orphan (block_candidates m2).
Proof.
  intros parent_block orphan m0 Hpg Hog Hop.
  apply String.eqb_neq in Hpg, Hog, Hop.
  assert (Hpo : String.eqb (Block_hash parent_block) (Block_hash orphan) = false).
  { rewrite String.eqb_sym. exact Hop. }
  eexists. eexists.
  split.
  { unfold receive_block, m0, Miner_init. simpl.
    fold parent_block. fold orphan. rewrite Hog, Hpg. simpl. reflexivity. }
  split.
  { simpl. now rewrite String.eqb_refl. }
  split.
  { unfold receive_block. simpl.
    fold parent_block. rewrite Hpg, String.eqb_refl. simpl.
    unfold refresh_rejects. simpl.
    rewrite refresh_loop_step. simpl.
    fold parent_block. fold orphan.
    rewrite String.eqb_refl. rewrite Hpg. simpl.
    rewrite Hog, Hop, String.eqb_refl. simpl.
    rewrite refresh_loop_step. simpl. reflexivity. }
  simpl. rewrite Hog, Hop, !String.eqb_refl.
  repeat split; try reflexivity.
  intros [E|[]]. discriminate E.
Qed.

Transparent Block_hash.
End OrphanCandidate.

(** ** The driver: duration and summary *)

Lemma py_range_length a b : List.length (py_range a b) = Z.to_nat (b - a).
Proof. unfold py_range. now rewrite length_map, length_seq. Qed.

(** C5.  The loop of [main] goes through [range(1, periods * 600)]: it
    executes [periods * 600 - 1] ticks (none when that is negative), one
    fewer than [periods * 600]; a run of one period executes 599 ticks. *)
Theorem run_executes_one_tick_fewer (block_periods : Z) :
  List.length (tick_times block_periods) = Z.to_nat (block_periods * 600 - 1) /\
  List.length (tick_times 1) = 599%nat /\
  List.length (tick_times 1) <> Z.to_nat (1 * 600).
Proof.
  split; [|split].
  - unfold tick_times, seconds_to_simulate. apply py_range_length.
  - unfold tick_times, seconds_to_simulate. rewrite py_range_length. reflexivity.
  - unfold tick_times, seconds_to_simulate. rewrite py_range_length.
    intros E. apply Z2Nat.inj in E; lia.
Qed.

Section Summary.
Context {RT : Runtime} {G : Type} {RS : RandomSource G}.

(** C8.  The summary of a miner that has mined no block fails with a
    division by zero, and so does the whole of [main] for a run of zero
    periods, in which no miner mines. *)
Theorem summary_of_idle_miner_divides_by_zero (m : Miner) (g : G) :
  summarize (set_blocks_mined m 0) = Raise ZeroDivisionError /\
  main 0 g = Raise ZeroDivisionError.
Proof.
  split; [|reflexivity].
  unfold summarize. simpl.
  destruct (height (current_block m) >? 0) eqn:Hh; [|reflexivity].
  unfold py_truediv at 1.
  destruct (Z.eqb_spec (height (current_block m)) 0) as [E|E].
  - rewrite E in Hh. discriminate.
  - reflexivity.
Qed.
End Summary.

(** ** States of the generator *)

Definition final_miners {G : Type} (r : result (list Miner * G)) : result (list Miner) :=
  w <- r ;; Ok (fst w).

(** Two states of the generator: one whose first draw is 0, so that the
    first miner finds a block in the first second, and one that only ever
    yields 1/2. *)
Definition lucky_script : Script := mkScript [0 # 1] [].
Definition idle_script : Script := mkScript [] [].

(** ** What reconciliation establishes *)

Section DictMembership.
Context {V : Type}.

Lemma dict_contains_In (k : string) (d : dict V) :
  dict_contains k d = true <-> exists v, In (k, v) d.
Proof.
  induction d as [|[k0 v0] d IH]; simpl.
  - split; [discriminate|intros [v []]].
  - destruct (String.eqb_spec k k0) as [->|Hne].
    + split; [eauto|trivial].
    + rewrite IH. split.
      * intros [v Hv]. eauto.
      * intros [v [E|Hv]]; [congruence|eauto].
Qed.

Lemma dict_set_In (k k' : string) (v v' : V) (d : dict V) :
  In (k, v) (dict_set k' v' d) -> (k = k' /\ v = v') \/ In (k, v) d.
Proof.
  induction d as [|[k0 v0] d IH]; simpl.
  - intros [E|[]]. injection E as <- <-. now left.
  - destruct (String.eqb_spec k' k0) as [->|Hne]; simpl.
    + intros [E|H]; [injection E as <- <-; now left|now right; right].
    + intros [E|H]; [now right; left|].
      destruct (IH H) as [?|?]; [now left|now right; right].
Qed.

Lemma dict_pop_In (k k' : string) (v : V) (d : dict V) :
  In (k, v) (dict_pop k' d) -> In (k, v) d.
Proof.
  induction d as [|[k0 v0] d IH]; simpl; [trivial|].
  destruct (String.eqb k' k0); simpl.
  - now right.
  - intros [E|H]; [now left|right; now apply IH].
Qed.
End DictMembership.

Section Settled.
Context {RT : Runtime}.

(** No rejected block has a parent whose hash is known. *)
Definition settled (known rejected : dict Block) : Prop :=
  forall h b, In (h, b) rejected ->
    exists p, parent b = Some p /\ dict_contains (Block_hash p) known = false.

Lemma scan_rejects_none known rejected :
  scan_rejects known rejected = Ok None -> settled known rejected.
Proof.
  induction rejected as [|[k v] rest IH]; simpl; intros E h b Hin; [destruct Hin|].
  destruct (parent v) as [p|] eqn:Hp; [|discriminate].
  destruct (dict_contains (Block_hash p) known) eqn:Hk; [discriminate|].
  destruct Hin as [Heq|Hin].
  - injection Heq as <- <-. eauto.
  - now apply (IH E h b).
Qed.

(** A reconciliation that returns leaves nothing to reconcile. *)
Lemma refresh_loop_settled known rejected : forall known' rejected',
  refresh_loop known rejected = Ok (known', rejected') -> settled known' rejected'.
Proof.
  revert known rejected. apply (refresh_loop_induction
    (fun known rejected => forall known' rejected',
       refresh_loop known rejected = Ok (known', rejected') ->
       settled known' rejected')).
  intros known rejected IH known' rejected' E.
  rewrite refresh_loop_step in E.
  destruct (scan_rejects known rejected) as [[[moved rb]|]|e] eqn:Hscan.
  - eapply IH; eauto.
  - injection E as <- <-. now apply scan_rejects_none.
  - discriminate.
Qed.

(** [receive_block] keeps the rejected blocks settled, and establishes it
    whenever it inserts into [known_blocks]. *)
Lemma receive_block_settled m b m' :
  settled (known_blocks m) (rejected_blocks m) ->
  receive_block m b = Ok m' ->
  settled (known_blocks m') (rejected_blocks m').
Proof.
  intros Hs H. unfold receive_block in H.
  destruct (parent b) as [p|] eqn:Hp; [|discriminate].
  destruct (dict_contains (Block_hash b) (known_blocks m)) eqn:K.
  - injection H as <-. exact Hs.
  - destruct (dict_contains (Block_hash p) (known_blocks m)) eqn:KP; simpl in H.
    + unfold refresh_rejects in H. simpl in H.
      destruct (refresh_loop _ _) as [[known rejected]|e] eqn:R; simpl in H;
        [|discriminate].
      apply refresh_loop_settled in R.
      destruct (height b >? _); injection H as <-; exact R.
    + injection H as <-. simpl. intros h b' Hin.
      apply dict_set_In in Hin as [[-> ->]|Hin]; [eauto|].
      now apply (Hs h b').
Qed.
End Settled.

(** ** Chains of known blocks *)

(** Induction along the parent links of a block. *)
Fixpoint Block_chain_ind (P : Block -> Prop)
         (Hroot : forall h t m, P (mkBlock h t m None))
         (Hchild : forall h t m q, P q -> P (mkBlock h t m (Some q)))
         (b : Block) : P b :=
  match b with
  | mkBlock h t m p =>
      match p with
      | None => Hroot h t m
      | Some q => Hchild h t m q (Block_chain_ind P Hroot Hchild q)
      end
  end.

Section Chains.
Context {RT : Runtime}.

Definition parent_hash (b : Block) : option string :=
  option_map Block_hash (parent b).

(** The hash identifies the parent: two blocks with the same hash have
    parents with the same hash, or no parent. *)
Definition collision_free : Prop :=
  forall b1 b2, Block_hash b1 = Block_hash b2 -> parent_hash b1 = parent_hash b2.

(** Every item of the dictionary is stored under the hash of its block. *)
Definition keys_hashed (d : dict Block) : Prop :=
  forall k b, In (k, b) d -> k = Block_hash b.

(** The hash of [b] and of every ancestor of [b] is a key of [known]. *)
Fixpoint chain_known (known : dict Block) (b : Block) : Prop :=
  dict_contains (Block_hash b) known = true /\
  match b with
  | mkBlock _ _ _ (Some q) => chain_known known q
  | mkBlock _ _ _ None => True
  end.

Definition known_closed (known : dict Block) : Prop :=
  keys_hashed known /\ forall k b, In (k, b) known -> chain_known known b.

Lemma chain_known_head known b :
  chain_known known b -> dict_contains (Block_hash b) known = true.
Proof. destruct b as [h t m [q|]]; now intros [H _]. Qed.

Lemma chain_known_mono known known' b :
  (forall h, dict_contains h known = true -> dict_contains h known' = true) ->
  chain_known known b -> chain_known known' b.
Proof.
  intros Hsub. induction b as [h t m|h t m q IH] using Block_chain_ind.
  - intros [H _]. split; [now apply Hsub|exact I].
  - intros [H Hq]. split; [now apply Hsub|now apply IH].
Qed.

Section CollisionFree.
Hypothesis Hcf : collision_free.

Lemma chain_known_same_hash known b : forall b',
  Block_hash b = Block_hash b' -> chain_known known b' -> chain_known known b.
Proof.
  induction b as [h t m|h t m q IH] using Block_chain_ind; intros b' E Hb'.
  - split; [|exact I]. rewrite E. now apply chain_known_head.
  - split; [rewrite E; now apply chain_known_head|].
    pose proof (Hcf _ _ E) as Hp. unfold parent_hash in Hp. simpl in Hp.
    destruct b' as [h' t' m' [q'|]]; simpl in Hp; [|discriminate].
    injection Hp as Hq. destruct Hb' as [_ Hq']. now apply (IH q').
Qed.

Lemma contains_chain_known known b :
  known_closed known ->
  dict_contains (Block_hash b) known = true -> chain_known known b.
Proof.
  intros [Hkeys Hchain] Hb.
  apply dict_contains_In in Hb as [b' Hin].
  apply (chain_known_same_hash known b b').
  - now apply Hkeys.
  - now apply (Hchain (Block_hash b)).
Qed.

(** Inserting a block whose parent's hash is known, or that has no parent. *)
Lemma known_closed_set known b :
  known_closed known ->
  match parent b with
  | Some p => dict_contains (Block_hash p) known = true
  | None => True
  end ->
  known_closed (dict_set (Block_hash b) b known).
Proof.
  intros Hc Hp.
  assert (Hnew : chain_known (dict_set (Block_hash b) b known) b).
  { destruct b as [h t m [q|]]; simpl in Hp.
    - split; [apply dict_contains_set_same|].
      apply chain_known_mono with (known := known).
      + intros h0. apply dict_contains_set_mono.
      + now apply contains_chain_known.
    - split; [apply dict_contains_set_same|exact I]. }
  destruct Hc as [Hkeys Hchain]. split.
  - intros k b' Hin. apply dict_set_In in Hin as [[-> ->]|Hin]; [reflexivity|].
    now apply Hkeys.
  - intros k b' Hin. apply dict_set_In in Hin as [[-> ->]|Hin]; [exact Hnew|].
    apply chain_known_mono with (known := known).
    + intros h0. apply dict_contains_set_mono.
    + now apply (Hchain k).
Qed.

Lemma scan_rejects_found known items h b :
  scan_rejects known items = Ok (Some (h, b)) ->
  In (h, b) items /\
  exists p, parent b = Some p /\ dict_contains (Block_hash p) known = true.
Proof.
  induction items as [|[k v] rest IH]; simpl; [discriminate|].
  destruct (parent v) as [p|] eqn:Hp; [|discriminate].
  destruct (dict_contains (Block_hash p) known) eqn:Hk.
  - intros E. injection E as <- <-. split; [now left|eauto].
  - intros E. destruct (IH E) as [Hin Hex]. split; [now right|exact Hex].
Qed.

Lemma refresh_loop_closed known rejected : forall known' rejected',
  known_closed known -> keys_hashed rejected ->
  refresh_loop known rejected = Ok (known', rejected') ->
  known_closed known' /\ keys_hashed rejected'.
Proof.
  revert known rejected. apply (refresh_loop_induction
    (fun known rejected => forall known' rejected',
       known_closed known -> keys_hashed rejected ->
       refresh_loop known rejected = Ok (known', rejected') ->
       known_closed known' /\ keys_hashed rejected')).
  intros known rejected IH known' rejected' Hc Hk E.
  rewrite refresh_loop_step in E.
  destruct (scan_rejects known rejected) as [[[moved rb]|]|e] eqn:Hscan.
  - destruct (scan_rejects_found _ _ _ _ Hscan) as [Hin [p [Hp Hpk]]].
    pose proof (Hk _ _ Hin) as ->.
    eapply IH; eauto.
    + apply known_closed_set; [exact Hc|]. now rewrite Hp.
    + intros k b Hb. apply dict_pop_In in Hb. now apply Hk.
  - injection E as <- <-. now split.
  - discriminate.
Qed.
End CollisionFree.
End Chains.

(** ** The states a miner reaches *)

Section Reachable.
Context {RT : Runtime} {G : Type} {RS : RandomSource G}.

Inductive miner_step : Miner -> Miner -> Prop :=
| step_mine m t g m' g' :
    mine m t g = Ok (m', g') -> miner_step m m'
| step_receive_block m b m' :
    receive_block m b = Ok m' -> miner_step m m'
| step_evaluate_candidates m g m' g' :
    evaluate_candidates m g = Ok (m', g') -> miner_step m m'.

Inductive reachable_from (m0 : Miner) : Miner -> Prop :=
| reach_start : reachable_from m0 m0
| reach_step m m' :
    reachable_from m0 m -> miner_step m m' -> reachable_from m0 m'.

Definition coherent (m : Miner) : Prop :=
  known_closed (known_blocks m) /\
  keys_hashed (rejected_blocks m) /\
  dict_contains (Block_hash (current_block m)) (known_blocks m) = true /\
  Forall (fun c => dict_contains (Block_hash c) (known_blocks m) = true)
         (block_candidates m).

Lemma Miner_init_coherent self nm initial_block hr :
  parent initial_block = None ->
  coherent (Miner_init self nm initial_block hr).
Proof.
  intros Hp. unfold coherent, Miner_init. simpl.
  rewrite String.eqb_refl. repeat split.
  - intros k b [E|[]]. now injection E as <- <-.
  - intros k b [E|[]]. injection E as <- <-.
    destruct initial_block as [h t m p]. simpl in Hp. subst p. simpl.
    rewrite String.eqb_refl. now split.
  - intros k b [].
  - constructor.
Qed.

Lemma evaluate_candidates_coherent m g m' g' :
  coherent m -> evaluate_candidates m g = Ok (m', g') -> coherent m'.
Proof.
  intros [Hc [Hk [Ht Hcs]]] E. unfold evaluate_candidates in E.
  destruct (py_max _) as [h|e]; simpl in E; [|discriminate].
  rewrite Forall_forall in Hcs.
  destruct (find _ _) as [own|] eqn:Hfind.
  - injection E as <- <-. apply find_some in Hfind as [Hin _].
    apply filter_In in Hin as [Hin _].
    repeat split; simpl; try assumption; try apply Hc.
    + now apply Hcs.
    + constructor.
  - destruct (random_choice_total
                (filter (fun b => height b =? h) (block_candidates m)) g)
      as [x [g1 [Ex Hin]]].
    { intros Hnil. unfold random_choice in E. rewrite Hnil in E. discriminate. }
    rewrite Ex in E. simpl in E. injection E as <- <-.
    apply filter_In in Hin as [Hin _].
    repeat split; simpl; try assumption; try apply Hc.
    + now apply Hcs.
    + constructor.
Qed.

Section CollisionFree.
Hypothesis Hcf : collision_free.

Lemma mine_coherent m t g m' g' :
  coherent m -> mine m t g = Ok (m', g') -> coherent m'.
Proof.
  intros Hm E. unfold mine in E.
  destruct (if 0 <? _ then evaluate_candidates m g else Ok (m, g))
    as [[m1 g1]|e] eqn:Hev; simpl in E; [|discriminate].
  assert (H1 : coherent m1).
  { destruct (0 <? _).
    - eapply evaluate_candidates_coherent; eauto.
    - now injection Hev as <- <-. }
  destruct (random_random g1) as [x g2].
  destruct (Qlt_bool x (probability_per_second m1)).
  - injection E as <- <-. destruct H1 as [Hc [Hk [Ht Hcs]]].
    set (found_block := mkBlock (height (current_block m1) + 1) t
                                (Some (self_ref m1)) (Some (current_block m1))).
    pose proof (known_closed_set Hcf (known_blocks m1) found_block Hc Ht) as Hc'.
    unfold coherent, announce. cbn [known_blocks rejected_blocks current_block
      block_candidates set_connections set_blocks_mined set_block_candidates
      set_known_blocks].
    split; [exact Hc'|]. split; [exact Hk|]. split.
    + now apply dict_contains_set_mono.
    + apply Forall_app. split.
      * eapply Forall_impl; [|exact Hcs]. intros c. apply dict_contains_set_mono.
      * constructor; [apply dict_contains_set_same|constructor].
  - now injection E as <- <-.
Qed.

Lemma receive_block_coherent m b m' :
  coherent m -> receive_block m b = Ok m' -> coherent m'.
Proof.
  intros [Hc [Hk [Ht Hcs]]] H. unfold receive_block in H.
  destruct (parent b) as [p|] eqn:Hp; [|discriminate].
  destruct (dict_contains (Block_hash b) (known_blocks m)) eqn:K.
  - injection H as <-. now repeat split; try apply Hc.
  - destruct (dict_contains (Block_hash p) (known_blocks m)) eqn:KP; simpl in H.
    + unfold refresh_rejects in H. simpl in H.
      destruct (refresh_loop _ _) as [[known rejected]|e] eqn:R; simpl in H;
        [|discriminate].
      assert (Hmono : forall h, dict_contains h (known_blocks m) = true ->
                                dict_contains h known = true).
      { intros h Hh. eapply refresh_loop_known_mono; [exact R|].
        now apply dict_contains_set_mono. }
      assert (Hb : dict_contains (Block_hash b) known = true).
      { eapply refresh_loop_known_mono; [exact R|]. apply dict_contains_set_same. }
      destruct (refresh_loop_closed Hcf _ _ _ _
                  (known_closed_set Hcf _ b Hc
                     ltac:(rewrite Hp; exact KP)) Hk R) as [Hc' Hk'].
      assert (Hcs' : Forall (fun c => dict_contains (Block_hash c) known = true)
                            (block_candidates m)).
      { eapply Forall_impl; [|exact Hcs]. intros c. apply Hmono. }
      destruct (height b >? _); injection H as <-; unfold coherent; simpl;
        repeat split; try apply Hc'; try assumption; try now apply Hmono.
      apply Forall_app. split; [exact Hcs'|]. now constructor.
    + injection H as <-. unfold coherent. simpl.
      repeat split; try apply Hc; try assumption.
      intros k b' Hin. apply dict_set_In in Hin as [[-> ->]|Hin]; [reflexivity|].
      now apply Hk.
Qed.

Lemma reachable_coherent m0 m :
  coherent m0 -> reachable_from m0 m -> coherent m.
Proof.
  intros H0 Hr. induction Hr as [|m m' _ IH Hstep]; [exact H0|].
  destruct Hstep.
  - eapply mine_coherent; eauto.
  - eapply receive_block_coherent; eauto.
  - eapply evaluate_candidates_coherent; eauto.
Qed.

(** X5.  In every state a miner reaches from its creation on a block
    without parent, by [mine], [receive_block] and [evaluate_candidates],
    [known_blocks] has the hash of the tip and of every ancestor of the
    tip among its keys (for a hash that identifies the parent). *)
Lemma reachable_tip_chain_known self nm initial_block hr m :
  parent initial_block = None ->
  reachable_from (Miner_init self nm initial_block hr) m ->
  chain_known (known_blocks m) (current_block m).
Proof.
  intros Hp Hr.
  destruct (reachable_coherent _ m (Miner_init_coherent self nm _ hr Hp) Hr)
    as [Hc [_ [Ht _]]].
  now apply (contains_chain_known Hcf).
Qed.
End CollisionFree.
End Reachable.

(** ** Reconciliation is complete for delivered blocks *)

Section Completeness.
Context {RT : Runtime}.

(** The hash is a key of [rejected_blocks] or of [known_blocks]. *)
Definition tracked (h : string) (m : Miner) : Prop :=
  dict_contains h (rejected_blocks m) = true \/
  dict_contains h (known_blocks m) = true.

Lemma refresh_loop_tracked known rejected : forall known' rejected' h,
  refresh_loop known rejected = Ok (known', rejected') ->
  dict_contains h rejected = true \/ dict_contains h known = true ->
  dict_contains h rejected' = true \/ dict_contains h known' = true.
Proof.
  revert known rejected. apply (refresh_loop_induction
    (fun known rejected => forall known' rejected' h,
       refresh_loop known rejected = Ok (known', rejected') ->
       dict_contains h rejected = true \/ dict_contains h known = true ->
       dict_contains h rejected' = true \/ dict_contains h known' = true)).
  intros known rejected IH known' rejected' h E Hh.
  rewrite refresh_loop_step in E.
  destruct (scan_rejects known rejected) as [[[moved rb]|]|e] eqn:Hscan.
  - eapply IH; eauto.
    destruct (String.eqb_spec h moved) as [->|Hne].
    + right. apply dict_contains_set_same.
    + destruct Hh as [Hh|Hh].
      * left. now apply dict_contains_pop_other.
      * right. now apply dict_contains_set_mono.
  - injection E as <- <-. exact Hh.
  - discriminate.
Qed.

Lemma refresh_loop_rejected_sub known rejected : forall known' rejected' k b,
  refresh_loop known rejected = Ok (known', rejected') ->
  In (k, b) rejected' -> In (k, b) rejected.
Proof.
  revert known rejected. apply (refresh_loop_induction
    (fun known rejected => forall known' rejected' k b,
       refresh_loop known rejected = Ok (known', rejected') ->
       In (k, b) rejected' -> In (k, b) rejected)).
  intros known rejected IH known' rejected' k b E Hin.
  rewrite refresh_loop_step in E.
  destruct (scan_rejects known rejected) as [[[moved rb]|]|e] eqn:Hscan.
  - eapply dict_pop_In. eapply IH; eauto.
  - injection E as <- <-. exact Hin.
  - discriminate.
Qed.

Lemma receive_block_tracked m b m' h :
  receive_block m b = Ok m' -> tracked h m -> tracked h m'.
Proof.
  intros H Hh. unfold receive_block in H.
  destruct (parent b) as [p|] eqn:Hp; [|discriminate].
  destruct (dict_contains (Block_hash b) (known_blocks m)) eqn:K.
  - now injection H as <-.
  - destruct (dict_contains (Block_hash p) (known_blocks m)) eqn:KP; simpl in H.
    + unfold refresh_rejects in H. simpl in H.
      destruct (refresh_loop _ _) as [[known rejected]|e] eqn:R; simpl in H;
        [|discriminate].
      assert (Ht : dict_contains h rejected = true \/ dict_contains h known = true).
      { eapply refresh_loop_tracked; [exact R|].
        destruct Hh as [Hh|Hh]; [now left|right].
        now apply dict_contains_set_mono. }
      destruct (height b >? _); injection H as <-; exact Ht.
    + injection H as <-. destruct Hh as [Hh|Hh]; [left|now right].
      simpl. now apply dict_contains_set_mono.
Qed.

Lemma receive_block_keys_hashed m b m' :
  keys_hashed (rejected_blocks m) -> receive_block m b = Ok m' ->
  keys_hashed (rejected_blocks m').
Proof.
  intros Hk H. unfold receive_block in H.
  destruct (parent b) as [p|] eqn:Hp; [|discriminate].
  destruct (dict_contains (Block_hash b) (known_blocks m)) eqn:K.
  - now injection H as <-.
  - destruct (dict_contains (Block_hash p) (known_blocks m)) eqn:KP; simpl in H.
    + unfold refresh_rejects in H. simpl in H.
      destruct (refresh_loop _ _) as [[known rejected]|e] eqn:R; simpl in H;
        [|discriminate].
      assert (Hk' : keys_hashed rejected).
      { intros k b' Hin. apply Hk. eapply refresh_loop_rejected_sub; eauto. }
      destruct (height b >? _); injection H as <-; exact Hk'.
    + injection H as <-. simpl. intros k b' Hin.
      apply dict_set_In in Hin as [[-> ->]|Hin]; [reflexivity|now apply Hk].
Qed.

(** Any number of [receive_block] calls, in any order. *)
Definition receive_blocks (m : Miner) (bs : list Block) : result Miner :=
  foldM receive_block bs m.

Lemma receive_blocks_invariants bs : forall m m' h,
  settled (known_blocks m) (rejected_blocks m) ->
  keys_hashed (rejected_blocks m) ->
  tracked h m ->
  receive_blocks m bs = Ok m' ->
  settled (known_blocks m') (rejected_blocks m') /\
  keys_hashed (rejected_blocks m') /\
  tracked h m'.
Proof.
  unfold receive_blocks.
  induction bs as [|b bs IH]; intros m m' h Hs Hk Ht E; simpl in E.
  - injection E as <-. now repeat split.
  - destruct (receive_block m b) as [m1|e] eqn:R; simpl in E; [|discriminate].
    apply (IH m1 m' h); try assumption.
    + eapply receive_block_settled; eauto.
    + eapply receive_block_keys_hashed; eauto.
    + eapply receive_block_tracked; eauto.
Qed.

(** X4.  A block stored in [rejected_blocks] leaves it for [known_blocks]
    as soon as deliveries, any number in any order, have made its parent's
    hash known (for a hash that identifies the parent). *)
Lemma orphan_reconciled_once_parent_known m bs m' o p :
  collision_free ->
  settled (known_blocks m) (rejected_blocks m) ->
  keys_hashed (rejected_blocks m) ->
  dict_contains (Block_hash o) (rejected_blocks m) = true ->
  parent o = Some p ->
  receive_blocks m bs = Ok m' ->
  dict_contains (Block_hash p) (known_blocks m') = true ->
  dict_contains (Block_hash o) (known_blocks m') = true /\
  dict_contains (Block_hash o) (rejected_blocks m') = false.
Proof.
  intros Hcf Hs Hk Ho Hp E Hpk.
  destruct (receive_blocks_invariants bs m m' (Block_hash o) Hs Hk (or_introl Ho) E)
    as [Hs' [Hk' Ht']].
  assert (Hrej : dict_contains (Block_hash o) (rejected_blocks m') = false).
  { destruct (dict_contains (Block_hash o) (rejected_blocks m')) eqn:Hr;
      [exfalso|reflexivity].
    apply dict_contains_In in Hr as [b' Hin].
    pose proof (Hk' _ _ Hin) as Hhash.
    destruct (Hs' _ _ Hin) as [p' [Hp' Hpk']].
    pose proof (Hcf _ _ Hhash) as Hph. unfold parent_hash in Hph.
    rewrite Hp, Hp' in Hph. simpl in Hph. injection Hph as Hph.
    rewrite Hph in Hpk. congruence. }
  split; [|exact Hrej].
  destruct Ht' as [Ht'|Ht']; [congruence|exact Ht'].
Qed.
End Completeness.

(** ** The plain runtime is collision free *)

Definition is_numeral (c : ascii) : bool :=
  (Ascii.eqb c "-" ||
   (Nat.leb 48 (nat_of_ascii c) && Nat.leb (nat_of_ascii c) 57))%bool.

Fixpoint all_chars (f : ascii -> bool) (s : string) : bool :=
  match s with
  | EmptyString => true
  | String c s' => (f c && all_chars f s')%bool
  end.

Lemma all_chars_app f s r :
  all_chars f (s ++ r)%string = (all_chars f s && all_chars f r)%bool.
Proof.
  induction s as [|c s IH]; simpl; [reflexivity|].
  now rewrite IH, andb_assoc.
Qed.

Lemma string_app_assoc (s1 s2 s3 : string) :
  ((s1 ++ s2) ++ s3 = s1 ++ (s2 ++ s3))%string.
Proof. induction s1 as [|c s1 IH]; simpl; [reflexivity|now rewrite IH]. Qed.

Lemma string_of_uint_numeral d :
  all_chars is_numeral (NilEmpty.string_of_uint d) = true.
Proof. induction d; simpl; auto. Qed.

Lemma str_int_numeral z : all_chars is_numeral (str_int z) = true.
Proof.
  unfold str_int. destruct (Z.to_int z) as [d|d]; simpl.
  - destruct d; try reflexivity; apply (string_of_uint_numeral (_ d)).
  - destruct d; try reflexivity; apply (string_of_uint_numeral (_ d)).
Qed.

(** A run of numeral characters ends at the first other character. *)
Lemma numeral_prefix_unique s1 : forall s2 c1 r1 c2 r2,
  all_chars is_numeral s1 = true -> all_chars is_numeral s2 = true ->
  is_numeral c1 = false -> is_numeral c2 = false ->
  (s1 ++ String c1 r1 = s2 ++ String c2 r2)%string ->
  s1 = s2 /\ String c1 r1 = String c2 r2.
Proof.
  induction s1 as [|a s1 IH]; intros [|b s2] c1 r1 c2 r2 H1 H2 N1 N2 E;
    simpl in *.
  - now split.
  - injection E as -> _. apply andb_prop in H2 as [H2 _]. congruence.
  - injection E as -> _. apply andb_prop in H1 as [H1 _]. congruence.
  - injection E as -> E.
    apply andb_prop in H1 as [_ H1]. apply andb_prop in H2 as [_ H2].
    destruct (IH s2 c1 r1 c2 r2 H1 H2 N1 N2 E) as [-> Hr]. now split.
Qed.

Section PlainRuntime.
#[local] Existing Instance plain_runtime.

Definition link_hash (p : option Block) : string :=
  match p with
  | Some q => Block_hash q
  | None => repeat_string "0" 64
  end.

Lemma plain_hash h t m p :
  Block_hash (mkBlock h t m p) = (str_int h ++ str_miner m ++ link_hash p)%string.
Proof. destruct p; reflexivity. Qed.

Lemma str_miner_head m x :
  exists c r, is_numeral c = false /\ (str_miner m ++ x)%string = String c r.
Proof. destruct m; simpl; eexists; eexists; (split; [|reflexivity]); reflexivity. Qed.

Lemma str_miner_injective_tail m1 m2 x1 x2 :
  (str_miner m1 ++ x1 = str_miner m2 ++ x2)%string -> x1 = x2.
Proof.
  destruct m1 as [r1|], m2 as [r2|]; simpl; intros E; try discriminate E.
  - injection E as E.
    rewrite !string_app_assoc in E. simpl in E.
    apply numeral_prefix_unique in E as [_ E];
      try apply str_int_numeral; try reflexivity.
    now injection E.
  - now injection E.
Qed.

Lemma plain_hash_not_zeros b : Block_hash b <> repeat_string "0" 64.
Proof.
  destruct b as [h t m p]. rewrite plain_hash. intros E.
  destruct (str_miner_head m (link_hash p)) as [c [r [Hc Hr]]].
  rewrite Hr in E.
  assert (Ha : all_chars is_numeral (str_int h ++ String c r)%string = true)
    by (rewrite E; reflexivity).
  rewrite all_chars_app in Ha. simpl in Ha. rewrite Hc in Ha.
  simpl in Ha. rewrite andb_false_r in Ha. discriminate.
Qed.

Lemma plain_runtime_collision_free : collision_free.
Proof.
  intros [h1 t1 m1 p1] [h2 t2 m2 p2] E. rewrite !plain_hash in E.
  destruct (str_miner_head m1 (link_hash p1)) as [c1 [r1 [Hc1 Hr1]]].
  destruct (str_miner_head m2 (link_hash p2)) as [c2 [r2 [Hc2 Hr2]]].
  rewrite Hr1, Hr2 in E.
  apply numeral_prefix_unique in E as [_ E];
    try apply str_int_numeral; try assumption.
  rewrite <- Hr1, <- Hr2 in E. apply str_miner_injective_tail in E.
  unfold parent_hash. simpl.
  destruct p1 as [q1|], p2 as [q2|]; simpl in *.
  - now rewrite E.
  - exfalso. now apply (plain_hash_not_zeros q1).
  - exfalso. now apply (plain_hash_not_zeros q2).
  - reflexivity.
Qed.
End PlainRuntime.


(** * The properties on concrete inputs *)

Definition first_block : Block := mkBlock 1 1 (Some 0%nat) (Some genesis_block).
Definition second_block : Block := mkBlock 2 2 (Some 1%nat) (Some first_block).
Definition rival_block : Block := mkBlock 1 3 (Some 1%nat) (Some genesis_block).


Definition miner_a : Miner := Miner_init 0%nat "A" genesis_block (3 # 10).
Definition miner_c : Miner := Miner_init 2%nat "C" genesis_block (4 # 10).

(** Miner A with two candidates of height 1: a rival's block, received
    first, and its own. *)
Definition miner_a_tied : Miner :=
  set_block_candidates miner_a [rival_block; first_block].

Definition miner_c_after_first : Miner :=
  match receive_block miner_c first_block with
  | Ok m => m
  | Raise _ => miner_c
  end.

Lemma evaluate_candidates_prefers_own_witness :
  In first_block (block_candidates miner_a_tied) /\
  is_mine miner_a_tied first_block = true /\
  forall g : Script,
    r <- evaluate_candidates miner_a_tied g ;; Ok (current_block (fst r), snd r)
    = Ok (first_block, g).
Proof.
  assert (Hin : In first_block (block_candidates miner_a_tied))
    by (simpl; auto).
  assert (Hmax : forall c, In c (block_candidates miner_a_tied) ->
                           height c <= height first_block).
  { intros c [<-|[<-|[]]]; simpl; lia. }
  assert (Hmine : is_mine miner_a_tied first_block = true) by reflexivity.
  destruct (evaluate_candidates_prefers_own
              (G := Script) miner_a_tied first_block Hin Hmax Hmine)
    as [own [Hown [_ [Hown_mine Hev]]]].
  split; [exact Hin|]. split; [exact Hmine|].
  intros g. destruct (Hev g) as [-> _]. simpl.
  destruct Hown as [<-|[<-|[]]]; [discriminate Hown_mine|reflexivity].
Defined.

Lemma receive_block_orphan_frame_witness :
  parent second_block = Some first_block /\
  dict_contains (Block_hash second_block) (known_blocks miner_c) = false /\
  dict_contains (Block_hash first_block) (known_blocks miner_c) = false /\
  exists m',
    receive_block miner_c second_block = Ok m' /\
    dict_keys (rejected_blocks m') = [Block_hash second_block] /\
    known_blocks m' = known_blocks miner_c /\
    block_candidates m' = [].
Proof.
  assert (Hp : parent second_block = Some first_block) by reflexivity.
  assert (Hb : dict_contains (Block_hash second_block) (known_blocks miner_c) = false)
    by reflexivity.
  assert (Hk : dict_contains (Block_hash first_block) (known_blocks miner_c) = false)
    by reflexivity.
  destruct (receive_block_orphan_frame miner_c second_block first_block Hp Hb Hk)
    as [m' [Hr [Hrej [Hkn [_ [Hc _]]]]]].
  split; [exact Hp|]. split; [exact Hb|]. split; [exact Hk|].
  exists m'. split; [exact Hr|]. split; [|split; [exact Hkn|]].
  - rewrite Hrej. reflexivity.
  - rewrite Hc. reflexivity.
Defined.

Lemma receive_block_idempotent_witness :
  receive_block miner_c first_block = Ok miner_c_after_first /\
  receive_block miner_c_after_first first_block = Ok miner_c_after_first /\
  block_candidates miner_c_after_first = [first_block].
Proof.
  assert (H : receive_block miner_c first_block = Ok miner_c_after_first)
    by (vm_compute; reflexivity).
  destruct (receive_block_idempotent miner_c miner_c_after_first first_block H)
    as [H1 _].
  split; [exact H|]. split; [exact H1|]. vm_compute. reflexivity.
Defined.

Lemma reconciled_orphan_not_candidate_witness :
  Block_hash first_block <> Block_hash genesis_block /\
  Block_hash second_block <> Block_hash genesis_block /\
  Block_hash second_block <> Block_hash first_block /\
  exists m1 m2,
    receive_block miner_c second_block = Ok m1 /\
    receive_block m1 first_block = Ok m2 /\
    dict_contains (Block_hash second_block) (known_blocks m2) = true /\
    height second_block > height (current_block m2) /\
    block_candidates m2 = [first_block].
Proof.
  assert (H1 : Block_hash first_block <> Block_hash genesis_block)
    by (vm_compute; discriminate).
  assert (H2 : Block_hash second_block <> Block_hash genesis_block)
    by (vm_compute; discriminate).
  assert (H3 : Block_hash second_block <> Block_hash first_block)
    by (vm_compute; discriminate).
  destruct (reconciled_orphan_not_candidate 2%nat 0%nat 1%nat "C" (4 # 10) 1 2
              H1 H2 H3)
    as [m1 [m2 [R1 [_ [R2 [K [_ [Hh [Hc _]]]]]]]]].
  split; [exact H1|]. split; [exact H2|]. split; [exact H3|].
  exists m1, m2. repeat split; assumption.
Defined.

(** Miner C after the orphan [second_block] has been delivered to it. *)
Definition miner_c_with_orphan : Miner :=
  match receive_block miner_c second_block with
  | Ok m => m
  | Raise _ => miner_c
  end.

Lemma orphan_reconciled_once_parent_known_witness :
  exists m',
    receive_blocks miner_c_with_orphan [rival_block; first_block] = Ok m' /\
    dict_contains (Block_hash second_block) (known_blocks m') = true /\
    dict_contains (Block_hash second_block) (rejected_blocks m') = false.
Proof.
  assert (H0 : receive_block miner_c second_block = Ok miner_c_with_orphan)
    by (vm_compute; reflexivity).
  assert (Hs : settled (known_blocks miner_c_with_orphan)
                       (rejected_blocks miner_c_with_orphan)).
  { apply (receive_block_settled miner_c second_block _); [|exact H0].
    intros h b []. }
  assert (Hk : keys_hashed (rejected_blocks miner_c_with_orphan)).
  { apply (receive_block_keys_hashed miner_c second_block _); [|exact H0].
    intros h b []. }
  destruct (receive_blocks miner_c_with_orphan [rival_block; first_block])
    as [m'|e] eqn:E; [|vm_compute in E; discriminate E].
  exists m'. split; [reflexivity|].
  apply (orphan_reconciled_once_parent_known
           miner_c_with_orphan [rival_block; first_block] m'
           second_block first_block plain_runtime_collision_free Hs Hk).
  - vm_compute. reflexivity.
  - reflexivity.
  - exact E.
  - revert E. vm_compute. intros E. injection E as <-. reflexivity.
Defined.

(** Miner C after [first_block] was delivered and chosen as the tip. *)
Definition miner_c_on_first : Miner :=
  match evaluate_candidates miner_c_after_first idle_script with
  | Ok (m, _) => m
  | Raise _ => miner_c
  end.

Lemma reachable_tip_chain_known_witness :
  collision_free /\
  parent genesis_block = None /\
  reachable_from (G := Script) miner_c miner_c_on_first /\
  current_block miner_c_on_first = first_block /\
  chain_known (known_blocks miner_c_on_first) (current_block miner_c_on_first).
Proof.
  assert (Hr : reachable_from (G := Script) miner_c miner_c_on_first).
  { eapply reach_step; [eapply reach_step; [apply reach_start|]|].
    - eapply step_receive_block with (b := first_block) (m' := miner_c_after_first).
      vm_compute. reflexivity.
    - eapply step_evaluate_candidates
        with (g := idle_script) (g' := idle_script).
      vm_compute. reflexivity. }
  split; [exact plain_runtime_collision_free|].
  split; [reflexivity|]. split; [exact Hr|]. split; [reflexivity|].
  exact (reachable_tip_chain_known (G := Script) plain_runtime_collision_free
           2%nat "C" genesis_block (4 # 10) miner_c_on_first eq_refl Hr).
Defined.

(** * Further properties of the miner *)

Section ReceiveFacts.
Context {RT : Runtime}.

(** The state [receive_block] returns when it accepts [b], from the
    dictionaries the reconciliation ends with. *)
Definition accepted (m : Miner) (b : Block) (known rejected : dict Block) : Miner :=
  let m2 := set_rejected_blocks (set_known_blocks m known) rejected in
  if height b >? height (current_block m)
  then set_block_candidates m2 (block_candidates m ++ [b])
  else m2.

(** The three ways in which [receive_block] returns. *)
Lemma receive_block_cases m b m' :
  receive_block m b = Ok m' ->
  exists p, parent b = Some p /\
    ((dict_contains (Block_hash b) (known_blocks m) = true /\ m' = m) \/
     (dict_contains (Block_hash b) (known_blocks m) = false /\
      dict_contains (Block_hash p) (known_blocks m) = false /\
      m' = set_rejected_blocks m (dict_set (Block_hash b) b (rejected_blocks m))) \/
     (dict_contains (Block_hash b) (known_blocks m) = false /\
      dict_contains (Block_hash p) (known_blocks m) = true /\
      exists known rejected,
        refresh_loop (dict_set (Block_hash b) b (known_blocks m)) (rejected_blocks m)
        = Ok (known, rejected) /\
        m' = accepted m b known rejected)).
Proof.
  intros H. unfold receive_block in H.
  destruct (parent b) as [p|] eqn:Hp; [|discriminate].
  exists p. split; [reflexivity|].
  destruct (dict_contains (Block_hash b) (known_blocks m)) eqn:K.
  - injection H as <-. now left.
  - destruct (dict_contains (Block_hash p) (known_blocks m)) eqn:KP; simpl in H.
    + right. right. repeat split.
      unfold refresh_rejects in H. simpl in H.
      destruct (refresh_loop _ _) as [[known rejected]|e] eqn:R; simpl in H;
        [|discriminate].
      exists known, rejected. split; [reflexivity|].
      unfold accepted. simpl.
      destruct (height b >? height (current_block m)); now injection H as <-.
    + injection H as <-. right. left. now repeat split.
Qed.

Lemma scan_rejects_raise known rejected e :
  scan_rejects known rejected = Raise e ->
  e = AssertionError /\ exists k b, In (k, b) rejected /\ parent b = None.
Proof.
  induction rejected as [|[k v] rest IH]; simpl; [discriminate|].
  destruct (parent v) as [p|] eqn:Hp.
  - destruct (dict_contains (Block_hash p) known); [discriminate|].
    intros E. destruct (IH E) as [-> [k' [b' [Hin Hb]]]].
    split; [reflexivity|]. exists k', b'. split; [now right|exact Hb].
  - intros E. injection E as <-. split; [reflexivity|].
    exists k, v. split; [now left|exact Hp].
Qed.

Lemma refresh_loop_raise known rejected : forall e,
  refresh_loop known rejected = Raise e ->
  e = AssertionError /\ exists k b, In (k, b) rejected /\ parent b = None.
Proof.
  revert known rejected. apply (refresh_loop_induction
    (fun known rejected => forall e,
       refresh_loop known rejected = Raise e ->
       e = AssertionError /\ exists k b, In (k, b) rejected /\ parent b = None)).
  intros known rejected IH e E.
  rewrite refresh_loop_step in E.
  destruct (scan_rejects known rejected) as [[[moved rb]|]|e0] eqn:Hscan.
  - destruct (IH _ _ eq_refl e E) as [-> [k [b [Hin Hb]]]].
    split; [reflexivity|]. exists k, b. split; [|exact Hb].
    eapply dict_pop_In; eauto.
  - discriminate.
  - injection E as <-. eapply scan_rejects_raise; eauto.
Qed.

Lemma refresh_loop_total known rejected :
  (forall k b, In (k, b) rejected -> parent b <> None) ->
  exists known' rejected', refresh_loop known rejected = Ok (known', rejected').
Proof.
  intros Hp.
  destruct (refresh_loop known rejected) as [[known' rejected']|e] eqn:E; [eauto|].
  destruct (refresh_loop_raise _ _ _ E) as [_ [k [b [Hin Hb]]]].
  now destruct (Hp k b Hin).
Qed.

(** X1.  Whatever branch it takes, [receive_block] leaves the tip, the
    mined-block counter, the outgoing connections and the identity of the
    miner as they are, loses no key of [known_blocks], and adds at most
    the received block to the candidates. *)
Theorem receive_block_frame (m m' : Miner) (b : Block) :
  receive_block m b = Ok m' ->
  current_block m' = current_block m /\
  blocks_mined m' = blocks_mined m /\
  connections m' = connections m /\
  self_ref m' = self_ref m /\
  probability_per_second m' = probability_per_second m /\
  (forall h, dict_contains h (known_blocks m) = true ->
             dict_contains h (known_blocks m') = true) /\
  (block_candidates m' = block_candidates m \/
   block_candidates m' = block_candidates m ++ [b]).
Proof.
  intros H.
  destruct (receive_block_cases m b m' H)
    as [p [Hp [[_ ->]|[[_ [_ ->]]|[_ [_ [known [rejected [R ->]]]]]]]]].
  - repeat split; auto.
  - repeat split; auto.
  - assert (Hk : forall h, dict_contains h (known_blocks m) = true ->
                           dict_contains h known = true).
    { intros h Hh. eapply refresh_loop_known_mono; [exact R|].
      now apply dict_contains_set_mono. }
    unfold accepted.
    destruct (height b >? height (current_block m)); simpl; repeat split; auto.
Qed.

(** X2.  When [refresh_rejects] returns, no rejected block is left whose
    parent's hash is known; every hash that was a key of one of the two
    dictionaries still is, what remains rejected was rejected before, no
    known key is lost, and nothing else in the miner changes. *)
Theorem refresh_rejects_reaches_fixpoint (m m' : Miner) :
  refresh_rejects m = Ok m' ->
  settled (known_blocks m') (rejected_blocks m') /\
  (forall h, tracked h m -> tracked h m') /\
  (forall k b, In (k, b) (rejected_blocks m') -> In (k, b) (rejected_blocks m)) /\
  (forall h, dict_contains h (known_blocks m) = true ->
             dict_contains h (known_blocks m') = true) /\
  current_block m' = current_block m /\
  block_candidates m' = block_candidates m /\
  connections m' = connections m /\
  blocks_mined m' = blocks_mined m.
Proof.
  unfold refresh_rejects.
  destruct (refresh_loop (known_blocks m) (rejected_blocks m))
    as [[known rejected]|e] eqn:R; simpl; [|discriminate].
  intros H. injection H as <-. simpl. repeat split.
  - eapply refresh_loop_settled; eauto.
  - intros h Hh. eapply (refresh_loop_tracked _ _ _ _ h R). exact Hh.
  - intros k b. eapply refresh_loop_rejected_sub; eauto.
  - intros h. eapply refresh_loop_known_mono; eauto.
Qed.

Lemma refresh_loop_within_enough budget : forall known rejected,
  (List.length rejected < budget)%nat ->
  refresh_loop_within budget known rejected = refresh_loop known rejected.
Proof.
  induction budget as [|d IH]; intros known rejected Hl; [lia|].
  simpl. rewrite refresh_loop_step.
  destruct (scan_rejects known rejected) as [[[moved rb]|]|e] eqn:Hscan;
    try reflexivity.
  apply IH.
  pose proof (dict_pop_length moved rejected
                (scan_rejects_contains _ _ _ _ Hscan)). lia.
Qed.

Lemma refresh_loop_within_ok budget : forall known rejected res,
  refresh_loop_within budget known rejected = Ok res ->
  refresh_loop known rejected = Ok res.
Proof.
  induction budget as [|d IH]; intros known rejected res E; [discriminate|].
  simpl in E. rewrite refresh_loop_step.
  destruct (scan_rejects known rejected) as [[[moved rb]|]|e] eqn:Hscan;
    try exact E.
  now apply IH.
Qed.

Lemma refresh_loop_within_raise budget : forall known rejected e,
  refresh_loop_within budget known rejected = Raise e ->
  (e = RecursionError /\ (budget <= List.length rejected)%nat) \/
  (e = AssertionError /\ exists k b, In (k, b) rejected /\ parent b = None).
Proof.
  induction budget as [|d IH]; intros known rejected e E; simpl in E.
  - injection E as <-. left. split; [reflexivity|lia].
  - destruct (scan_rejects known rejected) as [[[moved rb]|]|e0] eqn:Hscan.
    + pose proof (dict_pop_length moved rejected
                    (scan_rejects_contains _ _ _ _ Hscan)) as Hl.
      destruct (IH _ _ _ E) as [[-> Hd]|[-> [k [b [Hin Hb]]]]].
      * left. split; [reflexivity|lia].
      * right. split; [reflexivity|]. exists k, b. split; [|exact Hb].
        eapply dict_pop_In; eauto.
    + discriminate.
    + injection E as <-. right. eapply scan_rejects_raise; eauto.
Qed.

(** X3.  With the depth limit of the interpreter, [refresh_rejects] uses
    one nested call per block it moves.  A budget of nested calls larger
    than the number of rejected blocks is never exhausted, and the call
    then does what the unlimited recursion does; whatever the budget, a
    result that is returned is that of the unlimited recursion.  A failure
    is a [RecursionError], and then the budget is at most the number of
    rejected blocks, or the [AssertionError] on a rejected block without
    parent. *)
Theorem refresh_rejects_depth_limit (budget : nat) (m : Miner) :
  ((List.length (rejected_blocks m) < budget)%nat ->
   refresh_rejects_within budget m = refresh_rejects m) /\
  (forall m', refresh_rejects_within budget m = Ok m' ->
              refresh_rejects m = Ok m') /\
  (forall e, refresh_rejects_within budget m = Raise e ->
             (e = RecursionError /\
              (budget <= List.length (rejected_blocks m))%nat) \/
             (e = AssertionError /\
              exists k b, In (k, b) (rejected_blocks m) /\ parent b = None)).
Proof.
  unfold refresh_rejects_within, refresh_rejects. split; [|split].
  - intros Hl. now rewrite refresh_loop_within_enough.
  - intros m'.
    destruct (refresh_loop_within budget (known_blocks m) (rejected_blocks m))
      as [[known rejected]|e] eqn:R; simpl; [|discriminate].
    intros E. now rewrite (refresh_loop_within_ok _ _ _ _ R).
  - intros e.
    destruct (refresh_loop_within budget (known_blocks m) (rejected_blocks m))
      as [[known rejected]|e0] eqn:R; simpl; [discriminate|].
    intros E. injection E as <-. eapply refresh_loop_within_raise; eauto.
Qed.

Lemma receive_block_returns m b p :
  parent b = Some p ->
  (forall k b', In (k, b') (rejected_blocks m) -> parent b' <> None) ->
  exists m', receive_block m b = Ok m' /\
             forall k b', In (k, b') (rejected_blocks m') -> parent b' <> None.
Proof.
  intros Hp Hr. unfold receive_block. rewrite Hp.
  destruct (dict_contains (Block_hash b) (known_blocks m)); [eauto|].
  destruct (dict_contains (Block_hash p) (known_blocks m)); simpl.
  - unfold refresh_rejects. simpl.
    destruct (refresh_loop_total (dict_set (Block_hash b) b (known_blocks m))
                                 (rejected_blocks m) Hr)
      as [known [rejected R]].
    rewrite R. simpl.
    assert (Hr' : forall k b', In (k, b') rejected -> parent b' <> None).
    { intros k b' Hin. apply (Hr k). eapply refresh_loop_rejected_sub; eauto. }
    destruct (height b >? _); eexists; (split; [reflexivity|exact Hr']).
  - eexists. split; [reflexivity|]. simpl. intros k b' Hin.
    apply dict_set_In in Hin as [[-> ->]|Hin]; [congruence|now apply (Hr k)].
Qed.

(** X6.  With the depth limit of the interpreter, on a miner whose
    rejected blocks all have a parent: [receive_block] fails with an
    [AssertionError] on a block without parent; on a block with a parent
    it returns, provided the budget of nested calls exceeds the number of
    rejected blocks, and the rejected blocks still all have a parent.
    Whatever the budget, a state that is returned is the one the unlimited
    recursion returns. *)
Theorem receive_block_returns_within_budget (budget : nat) (m : Miner) (b : Block) :
  (forall k b', In (k, b') (rejected_blocks m) -> parent b' <> None) ->
  (parent b = None -> receive_block_within budget m b = Raise AssertionError) /\
  (parent b <> None ->
   (List.length (rejected_blocks m) < budget)%nat ->
   exists m', receive_block_within budget m b = Ok m' /\
              receive_block m b = Ok m' /\
              forall k b', In (k, b') (rejected_blocks m') -> parent b' <> None) /\
  (forall m', receive_block_within budget m b = Ok m' ->
              receive_block m b = Ok m').
Proof.
  intros Hr. split; [|split].
  - intros Hp. unfold receive_block_within. now rewrite Hp.
  - intros Hp Hl. destruct (parent b) as [p|] eqn:E; [|congruence].
    destruct (receive_block_returns m b p E Hr) as [m' [Em' Hr']].
    exists m'. split; [|split; [exact Em'|exact Hr']].
    rewrite <- Em'. unfold receive_block_within, receive_block. rewrite E.
    destruct (dict_contains (Block_hash b) (known_blocks m)); [reflexivity|].
    destruct (dict_contains (Block_hash p) (known_blocks m)); [|reflexivity].
    simpl. unfold refresh_rejects_within, refresh_rejects. simpl.
    now rewrite refresh_loop_within_enough.
  - intros m'. unfold receive_block_within, receive_block.
    destruct (parent b) as [p|]; [|discriminate].
    destruct (dict_contains (Block_hash b) (known_blocks m)); [trivial|].
    destruct (dict_contains (Block_hash p) (known_blocks m)); [|trivial].
    simpl. unfold refresh_rejects_within, refresh_rejects. simpl.
    destruct (refresh_loop_within budget _ _) as [[known rejected]|e] eqn:R;
      simpl; [|discriminate].
    now rewrite (refresh_loop_within_ok _ _ _ _ R).
Qed.

(** X7.  [receive_block] keeps [rejected_blocks] free of blocks whose
    parent's hash is known, and makes it so, whatever it was, each time it
    inserts the received block into [known_blocks]. *)
Theorem receive_block_keeps_settled (m m' : Miner) (b : Block) :
  receive_block m b = Ok m' ->
  (settled (known_blocks m) (rejected_blocks m) ->
   settled (known_blocks m') (rejected_blocks m')) /\
  (dict_contains (Block_hash b) (known_blocks m) = false ->
   dict_contains (Block_hash b) (known_blocks m') = true ->
   settled (known_blocks m') (rejected_blocks m')).
Proof.
  intros H. split.
  - intros Hs. eapply receive_block_settled; eauto.
  - intros K K'.
    destruct (receive_block_cases m b m' H)
      as [p [Hp [[K1 _]|[[_ [_ ->]]|[_ [_ [known [rejected [R ->]]]]]]]]].
    + congruence.
    + simpl in K'. congruence.
    + apply refresh_loop_settled in R. unfold accepted.
      destruct (height b >? _); exact R.
Qed.
End ReceiveFacts.

Lemma fold_left_max_upper xs : forall x y,
  y = x \/ In y xs -> y <= fold_left Z.max xs x.
Proof.
  induction xs as [|z zs IH]; intros x y Hy; simpl.
  - destruct Hy as [->|[]]. lia.
  - destruct Hy as [->|[->|Hy]].
    + etransitivity; [|apply (IH (Z.max x z) (Z.max x z)); now left]. lia.
    + etransitivity; [|apply (IH (Z.max x y) (Z.max x y)); now left]. lia.
    + apply IH. now right.
Qed.

Lemma py_max_upper l h : py_max l = Ok h -> forall y, In y l -> y <= h.
Proof.
  destruct l as [|x xs]; simpl; [discriminate|].
  intros E y Hy. injection E as <-. apply fold_left_max_upper.
  destruct Hy as [->|Hy]; [now left|now right].
Qed.

Lemma dict_set_length {V : Type} (k : string) (v : V) (d : dict V) :
  (List.length d <= List.length (dict_set k v d))%nat.
Proof.
  induction d as [|[k0 v0] d IH]; simpl; [lia|].
  destruct (String.eqb k k0); simpl; lia.
Qed.

Section MiningFacts.
Context {RT : Runtime} {G : Type} {RS : RandomSource G}.

Lemma refresh_loop_length known rejected : forall known' rejected',
  refresh_loop known rejected = Ok (known', rejected') ->
  (List.length known <= List.length known')%nat.
Proof.
  revert known rejected. apply (refresh_loop_induction
    (fun known rejected => forall known' rejected',
       refresh_loop known rejected = Ok (known', rejected') ->
       (List.length known <= List.length known')%nat)).
  intros known rejected IH known' rejected' E.
  rewrite refresh_loop_step in E.
  destruct (scan_rejects known rejected) as [[[moved rb]|]|e] eqn:Hscan.
  - specialize (IH _ _ eq_refl _ _ E).
    pose proof (dict_set_length moved rb known). lia.
  - injection E as <- <-. lia.
  - discriminate.
Qed.

(** The way in which [evaluate_candidates] returns. *)
Lemma evaluate_candidates_cases m g m' g' :
  evaluate_candidates m g = Ok (m', g') ->
  exists chosen,
    In chosen (block_candidates m) /\
    (forall c, In c (block_candidates m) -> height c <= height chosen) /\
    m' = set_block_candidates (set_current_block m chosen) [].
Proof.
  intros E. unfold evaluate_candidates in E.
  destruct (py_max (map height (block_candidates m))) as [h|e] eqn:Hmax;
    simpl in E; [|discriminate].
  assert (Hup : forall c, In c (block_candidates m) -> height c <= h).
  { intros c Hc. apply (py_max_upper _ _ Hmax). now apply in_map. }
  assert (Hsel : forall x,
             In x (filter (fun b => height b =? h) (block_candidates m)) ->
             In x (block_candidates m) /\
             forall c, In c (block_candidates m) -> height c <= height x).
  { intros x Hx. apply filter_In in Hx as [Hx Hh]. apply Z.eqb_eq in Hh.
    split; [exact Hx|]. intros c Hc. rewrite Hh. now apply Hup. }
  destruct (find _ _) as [own|] eqn:Hfind.
  - injection E as <- <-. apply find_some in Hfind as [Hin _].
    destruct (Hsel own Hin). exists own. now repeat split.
  - destruct (random_choice_total
                (filter (fun b => height b =? h) (block_candidates m)) g)
      as [x [g1 [Ex Hin]]].
    { intros Hnil. unfold random_choice in E. rewrite Hnil in E. discriminate. }
    rewrite Ex in E. simpl in E. injection E as <- <-.
    destruct (Hsel x Hin). exists x. now repeat split.
Qed.

(** X8.  The tip [evaluate_candidates] chooses is one of the candidates
    and none of them is higher; the candidates are cleared, and the
    dictionaries, the connections and the counter are left as they are. *)
Theorem evaluate_candidates_picks_maximum (m m' : Miner) (g g' : G) :
  evaluate_candidates m g = Ok (m', g') ->
  In (current_block m') (block_candidates m) /\
  (forall c, In c (block_candidates m) -> height c <= height (current_block m')) /\
  block_candidates m' = [] /\
  known_blocks m' = known_blocks m /\
  rejected_blocks m' = rejected_blocks m /\
  connections m' = connections m /\
  blocks_mined m' = blocks_mined m.
Proof.
  intros E.
  destruct (evaluate_candidates_cases m g m' g' E) as [chosen [Hin [Hmax ->]]].
  now repeat split.
Qed.

(** The block [mine] creates on the tip of [m] at time [t]. *)
Definition found_on (m : Miner) (t : Z) : Block :=
  mkBlock (height (current_block m) + 1) t (Some (self_ref m))
          (Some (current_block m)).

(** The ways in which [mine] returns: after the fork choice, if there were
    candidates, either nothing more happens or a block is found. *)
Lemma mine_cases m t g m' g' :
  mine m t g = Ok (m', g') ->
  exists m1,
    ((m1 = m /\ block_candidates m = []) \/
     (exists g0 g1, evaluate_candidates m g0 = Ok (m1, g1))) /\
    (m' = m1 \/
     m' = announce
            (set_block_candidates
               (set_known_blocks m1
                  (dict_set (Block_hash (found_on m1 t)) (found_on m1 t)
                            (known_blocks m1)))
               (block_candidates m1 ++ [found_on m1 t]))
            (found_on m1 t)).
Proof.
  intros E. unfold mine in E.
  destruct (block_candidates m) as [|c cs] eqn:Hc.
  - simpl in E. destruct (random_random g) as [x g2].
    exists m. split; [left; now split|].
    destruct (Qlt_bool x (probability_per_second m)); injection E as <- <-.
    + right. unfold found_on. now rewrite Hc.
    + now left.
  - replace (0 <? Z.of_nat (List.length (c :: cs))) with true in E
      by (symmetry; apply Z.ltb_lt; simpl; lia).
    destruct (evaluate_candidates m g) as [[m1 g1]|e] eqn:Hev; simpl in E;
      [|discriminate].
    destruct (random_random g1) as [x g2].
    exists m1. split; [right; eauto|].
    destruct (Qlt_bool x (probability_per_second m1)); injection E as <- <-.
    + now right.
    + now left.
Qed.

(** X9.  [mine] never touches [rejected_blocks].  Either it finds nothing,
    and then no candidate is left and counter and connections are as
    before; or it finds a block: a child of the tip it returns with, one
    higher, attributed to the miner and stamped with the time given, which
    is then the only candidate, a key of [known_blocks], counted in
    [blocks_mined] and queued on every outgoing connection. *)
Theorem mine_extends_tip_and_broadcasts (m m' : Miner) (t : Z) (g g' : G) :
  mine m t g = Ok (m', g') ->
  rejected_blocks m' = rejected_blocks m /\
  ((block_candidates m' = [] /\
    blocks_mined m' = blocks_mined m /\
    connections m' = connections m /\
    known_blocks m' = known_blocks m) \/
   (exists found,
      found = found_on m' t /\
      parent found = Some (current_block m') /\
      height found = height (current_block m') + 1 /\
      miner found = Some (self_ref m) /\
      time found = t /\
      block_candidates m' = [found] /\
      dict_contains (Block_hash found) (known_blocks m') = true /\
      blocks_mined m' = blocks_mined m + 1 /\
      connections m' = map (fun c => queue_block c found) (connections m))).
Proof.
  intros E.
  destruct (mine_cases m t g m' g' E) as [m1 [Hm1 Hm']].
  assert (H1 : block_candidates m1 = [] /\
               rejected_blocks m1 = rejected_blocks m /\
               blocks_mined m1 = blocks_mined m /\
               connections m1 = connections m /\
               known_blocks m1 = known_blocks m /\
               self_ref m1 = self_ref m).
  { destruct Hm1 as [[-> Hc]|[g0 [g1 Hev]]]; [now repeat split|].
    destruct (evaluate_candidates_cases m g0 m1 g1 Hev) as [chosen [_ [_ ->]]].
    now repeat split. }
  destruct H1 as [Hc [Hr [Hn [Hcs [Hk Hs]]]]].
  destruct Hm' as [->| ->].
  - split; [exact Hr|]. left. now repeat split.
  - split; [exact Hr|]. right. exists (found_on m1 t).
    unfold announce. simpl. rewrite Hc, Hn, Hcs, Hs.
    repeat split. apply dict_contains_set_same.
Qed.

(** Every candidate is strictly higher than the tip. *)
Definition above_tip (m : Miner) : Prop :=
  Forall (fun c => height c > height (current_block m)) (block_candidates m).

Lemma miner_step_above_tip m m' :
  above_tip m -> miner_step m m' ->
  above_tip m' /\ height (current_block m) <= height (current_block m').
Proof.
  intros Ha Hstep.
  assert (Hev : forall g0 m1 g1, evaluate_candidates m g0 = Ok (m1, g1) ->
                  above_tip m1 /\ block_candidates m1 = [] /\
                  height (current_block m) <= height (current_block m1)).
  { intros g0 m1 g1 E.
    destruct (evaluate_candidates_cases m g0 m1 g1 E) as [chosen [Hin [_ ->]]].
    unfold above_tip in *. simpl. rewrite Forall_forall in Ha.
    specialize (Ha chosen Hin). repeat split; [constructor|lia]. }
  destruct Hstep as [m t g m' g' E|m b m' E|m g m' g' E].
  - destruct (mine_cases m t g m' g' E) as [m1 [Hm1 Hm']].
    assert (H1 : above_tip m1 /\ block_candidates m1 = [] /\
                 height (current_block m) <= height (current_block m1)).
    { destruct Hm1 as [[-> Hc]|[g0 [g1 E1]]]; [|now apply (Hev g0 m1 g1)].
      repeat split; [exact Ha|exact Hc|lia]. }
    destruct H1 as [Ha1 [Hc1 Hle]].
    destruct Hm' as [->| ->]; [now split|].
    split; [|exact Hle].
    unfold above_tip, announce. simpl. rewrite Hc1. simpl.
    constructor; [unfold found_on; simpl; lia|constructor].
  - destruct (receive_block_cases m b m' E)
      as [p [Hp [[_ ->]|[[_ [_ ->]]|[_ [_ [known [rejected [R ->]]]]]]]]].
    + split; [exact Ha|lia].
    + split; [exact Ha|simpl; lia].
    + unfold accepted.
      destruct (height b >? height (current_block m)) eqn:Hh.
      * split; [|simpl; lia]. unfold above_tip. simpl.
        apply Forall_app. split; [exact Ha|].
        constructor; [|constructor]. apply Z.gtb_lt in Hh. lia.
      * split; [exact Ha|simpl; lia].
  - destruct (Hev g m' g' E) as [Ha' [_ Hle]]. now split.
Qed.

(** X10.  In every state a miner reaches from its creation, every
    candidate is strictly higher than the tip, and the tip is at least as
    high as the block the miner started on: [evaluate_candidates] never
    moves the tip down or sideways. *)
Theorem reachable_tip_never_lower (self : MinerRef) (nm : string)
        (initial_block : Block) (hr : Q) (m : Miner) :
  reachable_from (Miner_init self nm initial_block hr) m ->
  above_tip m /\
  height initial_block <= height (current_block m) /\
  (forall g m' g', evaluate_candidates m g = Ok (m', g') ->
                   height (current_block m) < height (current_block m')).
Proof.
  intros Hr.
  assert (H : above_tip m /\ height initial_block <= height (current_block m)).
  { induction Hr as [|m m' _ [IHa IHh] Hstep].
    - split; [constructor|simpl; lia].
    - destruct (miner_step_above_tip m m' IHa Hstep) as [Ha' Hle].
      split; [exact Ha'|lia]. }
  destruct H as [Ha Hh]. split; [exact Ha|]. split; [exact Hh|].
  intros g m' g' E.
  destruct (evaluate_candidates_cases m g m' g' E) as [chosen [Hin [_ ->]]].
  unfold above_tip in Ha. rewrite Forall_forall in Ha.
  specialize (Ha chosen Hin). simpl. lia.
Qed.

(** X11.  No operation of a miner loses a key of [known_blocks] or makes
    the dictionary shorter, and none lowers [blocks_mined], which grows by
    at most one; the identity of the miner and the number of its
    connections never change. *)
Theorem miner_step_monotone (m m' : Miner) :
  miner_step m m' ->
  (forall h, dict_contains h (known_blocks m) = true ->
             dict_contains h (known_blocks m') = true) /\
  (List.length (known_blocks m) <= List.length (known_blocks m'))%nat /\
  blocks_mined m <= blocks_mined m' <= blocks_mined m + 1 /\
  self_ref m' = self_ref m /\
  List.length (connections m') = List.length (connections m).
Proof.
  intros Hstep.
  assert (Hev : forall g0 m1 g1, evaluate_candidates m g0 = Ok (m1, g1) ->
                  known_blocks m1 = known_blocks m /\
                  blocks_mined m1 = blocks_mined m /\
                  self_ref m1 = self_ref m /\ connections m1 = connections m).
  { intros g0 m1 g1 E.
    destruct (evaluate_candidates_cases m g0 m1 g1 E) as [chosen [_ [_ ->]]].
    now repeat split. }
  destruct Hstep as [m t g m' g' E|m b m' E|m g m' g' E].
  - destruct (mine_cases m t g m' g' E) as [m1 [Hm1 Hm']].
    assert (H1 : known_blocks m1 = known_blocks m /\
                 blocks_mined m1 = blocks_mined m /\
                 self_ref m1 = self_ref m /\ connections m1 = connections m).
    { destruct Hm1 as [[-> _]|[g0 [g1 E1]]]; [now repeat split|].
      now apply (Hev g0 m1 g1). }
    destruct H1 as [Hk [Hn [Hs Hc]]].
    destruct Hm' as [->| ->].
    + rewrite Hk, Hn, Hs, Hc. repeat split; auto; lia.
    + unfold announce. simpl. rewrite Hk, Hn, Hs, Hc, length_map.
      repeat split; try lia.
      * intros h. apply dict_contains_set_mono.
      * apply dict_set_length.
  - destruct (receive_block_cases m b m' E)
      as [p [Hp [[_ ->]|[[_ [_ ->]]|[_ [_ [known [rejected [R ->]]]]]]]]].
    + repeat split; auto; lia.
    + simpl. repeat split; auto; lia.
    + assert (Hk : forall h, dict_contains h (known_blocks m) = true ->
                             dict_contains h known = true).
      { intros h Hh. eapply refresh_loop_known_mono; [exact R|].
        now apply dict_contains_set_mono. }
      assert (Hl : (List.length (known_blocks m) <= List.length known)%nat).
      { apply refresh_loop_length in R.
        pose proof (dict_set_length (Block_hash b) b (known_blocks m)). lia. }
      unfold accepted.
      destruct (height b >? _); simpl; repeat split; auto; lia.
  - destruct (Hev g m' g' E) as [Hk [Hn [Hs Hc]]].
    rewrite Hk, Hn, Hs, Hc. repeat split; auto; lia.
Qed.
End MiningFacts.

(** * Further properties of the delay queue *)








(** * The registry of miners *)

Lemma update_nth_length {A : Type} (f : A -> A) (l : list A) : forall i,
  List.length (update_nth i f l) = List.length l.
Proof.
  induction l as [|a l IH]; intros [|i]; simpl; auto.
Qed.

Lemma nth_error_update_nth_other {A : Type} (f : A -> A) (l : list A) :
  forall i j, i <> j -> nth_error (update_nth i f l) j = nth_error l j.
Proof.
  induction l as [|a l IH]; intros [|i] [|j] Hne; simpl; auto; try congruence.
Qed.

Lemma nth_error_update_nth_same {A : Type} (f : A -> A) (l : list A) :
  forall i, nth_error (update_nth i f l) i = option_map f (nth_error l i).
Proof.
  induction l as [|a l IH]; intros [|i]; simpl; auto.
Qed.

Section TickFrame.
Context {RT : Runtime}.

Lemma send_block_frame c b ms ms' :
  send_block c b ms = Ok ms' ->
  List.length ms' = List.length ms /\
  (forall i, i <> receiver c -> nth_error ms' i = nth_error ms i) /\
  exists r r', nth_error ms (receiver c) = Some r /\
               nth_error ms' (receiver c) = Some r' /\
               receive_block r b = Ok r'.
Proof.
  unfold send_block. destruct (miner b); [|discriminate].
  destruct (nth_error ms (receiver c)) as [r|] eqn:Hr; [|discriminate].
  destruct (receive_block r b) as [r'|e] eqn:Hrb; simpl; [|discriminate].
  intros E. injection E as <-. split; [apply update_nth_length|]. split.
  - intros i Hi. apply nth_error_update_nth_other. congruence.
  - exists r, r'. rewrite nth_error_update_nth_same, Hr. now repeat split.
Qed.

Lemma deliveries_frame c bs : forall ms ms',
  foldM (fun s b => send_block c b s) bs ms = Ok ms' ->
  List.length ms' = List.length ms /\
  (forall i, i <> receiver c -> nth_error ms' i = nth_error ms i).
Proof.
  induction bs as [|b bs IH]; intros ms ms' E; simpl in E.
  - injection E as <-. now split.
  - destruct (send_block c b ms) as [ms1|e] eqn:Hs; simpl in E; [|discriminate].
    destruct (send_block_frame c b ms ms1 Hs) as [Hl [Ho _]].
    destruct (IH ms1 ms' E) as [Hl' Ho']. split; [congruence|].
    intros i Hi. rewrite Ho' by exact Hi. now apply Ho.
Qed.

(** X14.  A tick of a connection changes nothing but the queue of the
    connection and the miner it delivers to: sender, receiver and delay
    stay, the registry keeps its size, and every other miner is as it
    was. *)
Theorem Connection_tick_frame (c c' : Connection) (ms ms' : list Miner) :
  Connection_tick c ms = Ok (c', ms') ->
  sender c' = sender c /\ receiver c' = receiver c /\ delay c' = delay c /\
  blocks_to_send c' = kept (blocks_to_send c) /\
  List.length ms' = List.length ms /\
  (forall i, i <> receiver c -> nth_error ms' i = nth_error ms i).
Proof.
  rewrite Connection_tick_spec.
  destruct (foldM _ (due (blocks_to_send c)) ms) as [ms1|e] eqn:E; simpl;
    [|discriminate].
  intros H. injection H as <- <-.
  destruct (deliveries_frame c _ ms ms1 E) as [Hl Ho].
  now repeat split.
Qed.
End TickFrame.

(** ** What a tick hands to the receiver *)



Section Delivered.
Context {RT : Runtime} {G : Type} {RS : RandomSource G}.





End Delivered.



(** * The whole simulation

    An invariant of the registry: every block a miner holds or has queued
    has its depth as height and, along its chain, no more blocks of any
    miner than that miner has counted in [blocks_mined]. *)

Lemma Forall_update_nth {A : Type} (P : A -> Prop) (f : A -> A) (l : list A) :
  forall i,
    Forall P l -> (forall a, nth_error l i = Some a -> P (f a)) ->
    Forall P (update_nth i f l).
Proof.
  induction l as [|a l IH]; intros [|i] Hl Hf; simpl; auto.
  - inversion Hl; subst. constructor; [now apply Hf|assumption].
  - inversion Hl; subst. constructor; [assumption|]. apply IH; [assumption|].
    intros b Hb. now apply Hf.
Qed.

Lemma map_update_nth_same {A B : Type} (g : A -> B) (f : A -> A) (l : list A) :
  forall i,
    (forall a, nth_error l i = Some a -> g (f a) = g a) ->
    map g (update_nth i f l) = map g l.
Proof.
  induction l as [|a l IH]; intros [|i] Hf; simpl; auto.
  - now rewrite Hf.
  - rewrite IH; [reflexivity|]. intros b Hb. now apply Hf.
Qed.

(** The number of parent links below a block. *)
Fixpoint depth (b : Block) : nat :=
  match b with
  | mkBlock _ _ _ (Some q) => S (depth q)
  | mkBlock _ _ _ None => O
  end.

Lemma count_in_chain_bounds self b :
  0 <= count_in_chain self b <= Z.of_nat (depth b).
Proof.
  induction b as [h t m|h t m q IH] using Block_chain_ind; simpl; [lia|].
  destruct m as [r|]; [destruct (Nat.eqb r self)|]; lia.
Qed.

(** What a miner counts and what identifies its shape in the registry. *)
Definition skeleton (m : Miner) : Z * MinerRef * nat :=
  (blocks_mined m, self_ref m, List.length (connections m)).

Definition counters (ms : list Miner) (r : MinerRef) : Z :=
  match nth_error ms r with
  | Some m => blocks_mined m
  | None => 0
  end.

Definition bump (r : MinerRef) (cap : MinerRef -> Z) (r' : MinerRef) : Z :=
  if Nat.eqb r r' then cap r' + 1 else cap r'.

Definition block_ok (cap : MinerRef -> Z) (b : Block) : Prop :=
  height b = Z.of_nat (depth b) /\ forall r, count_in_chain r b <= cap r.

(** A block as [mine] makes them: with a parent and a miner. *)
Definition child_ok (cap : MinerRef -> Z) (b : Block) : Prop :=
  block_ok cap b /\ parent b <> None /\ miner b <> None.

Definition conn_ok (n : nat) (cap : MinerRef -> Z) (c : Connection) : Prop :=
  (receiver c < n)%nat /\
  forall e, In e (blocks_to_send c) -> child_ok cap (block e).

Definition miner_ok (n : nat) (cap : MinerRef -> Z) (m : Miner) : Prop :=
  block_ok cap (current_block m) /\
  Forall (block_ok cap) (block_candidates m) /\
  (forall k b, In (k, b) (rejected_blocks m) -> parent b <> None) /\
  Forall (conn_ok n cap) (connections m).

Definition world_ok (ms : list Miner) : Prop :=
  (forall i m, nth_error ms i = Some m -> self_ref m = i) /\
  Forall (miner_ok (List.length ms) (counters ms)) ms.

Lemma block_ok_mono cap cap' b :
  (forall r, cap r <= cap' r) -> block_ok cap b -> block_ok cap' b.
Proof.
  intros Hc [Hh Hb]. split; [exact Hh|].
  intros r. specialize (Hb r). specialize (Hc r). lia.
Qed.

Lemma conn_ok_mono n cap cap' c :
  (forall r, cap r <= cap' r) -> conn_ok n cap c -> conn_ok n cap' c.
Proof.
  intros Hc [Hr He]. split; [exact Hr|].
  intros e Hin. destruct (He e Hin) as [Hb Hp].
  split; [|exact Hp]. eapply block_ok_mono; eauto.
Qed.

Lemma miner_ok_mono n cap cap' m :
  (forall r, cap r <= cap' r) -> miner_ok n cap m -> miner_ok n cap' m.
Proof.
  intros Hc [Ht [Hcs [Hr Hcn]]]. repeat split.
  - apply (block_ok_mono cap cap' _ Hc). apply Ht.
  - apply (block_ok_mono cap cap' _ Hc). apply Ht.
  - eapply Forall_impl; [|exact Hcs]. intros b. now apply block_ok_mono.
  - exact Hr.
  - eapply Forall_impl; [|exact Hcn]. intros c. now apply conn_ok_mono.
Qed.

Lemma counters_skeleton ms ms' :
  map skeleton ms' = map skeleton ms -> forall r, counters ms' r = counters ms r.
Proof.
  intros E r. unfold counters.
  assert (H : nth_error (map skeleton ms') r = nth_error (map skeleton ms) r)
    by now rewrite E.
  rewrite !nth_error_map in H.
  destruct (nth_error ms' r), (nth_error ms r); simpl in H;
    try discriminate; [|reflexivity].
  now injection H.
Qed.

Section WorldDelivery.
Context {RT : Runtime}.
Variable n : nat.
Variable cap : MinerRef -> Z.

Lemma receive_block_ok m b :
  miner_ok n cap m -> child_ok cap b ->
  exists m', receive_block m b = Ok m' /\ miner_ok n cap m' /\
             skeleton m' = skeleton m.
Proof.
  intros Hm [Hb [Hp _]]. pose proof Hm as [Ht [Hcs [Hr Hcn]]].
  destruct (parent b) as [p|] eqn:Ep; [|congruence].
  destruct (receive_block_returns m b p Ep Hr) as [m' [E Hr']].
  exists m'. split; [exact E|].
  destruct (receive_block_cases m b m' E)
    as [p' [_ [[_ ->]|[[_ [_ ->]]|[_ [_ [known [rejected [R ->]]]]]]]]].
  - now split.
  - split; [|reflexivity]. unfold miner_ok. simpl in *.
    split; [exact Ht|]. split; [exact Hcs|]. split; [exact Hr'|exact Hcn].
  - unfold accepted in *.
    destruct (height b >? height (current_block m)); simpl in *.
    + split; [|reflexivity]. unfold miner_ok. simpl.
      split; [exact Ht|]. split; [|split; [exact Hr'|exact Hcn]].
      apply Forall_app. split; [exact Hcs|]. now constructor.
    + split; [|reflexivity]. unfold miner_ok. simpl.
      split; [exact Ht|]. split; [exact Hcs|]. split; [exact Hr'|exact Hcn].
Qed.

Lemma send_block_ok c b ms :
  Forall (miner_ok n cap) ms -> List.length ms = n ->
  (receiver c < n)%nat -> child_ok cap b ->
  exists ms', send_block c b ms = Ok ms' /\
              Forall (miner_ok n cap) ms' /\
              map skeleton ms' = map skeleton ms.
Proof.
  intros Hms Hn Hc Hb. unfold send_block.
  destruct (miner b) as [r0|] eqn:Em; [|destruct Hb as [_ [_ H]]; congruence].
  destruct (nth_error ms (receiver c)) as [r|] eqn:Hr.
  2:{ apply nth_error_None in Hr. lia. }
  assert (Hok : miner_ok n cap r).
  { rewrite Forall_forall in Hms. apply Hms. eapply nth_error_In; eauto. }
  destruct (receive_block_ok r b Hok Hb) as [r' [E [Hok' Hsk]]].
  rewrite E. simpl. eexists. split; [reflexivity|]. split.
  - apply Forall_update_nth; [exact Hms|]. intros; exact Hok'.
  - apply map_update_nth_same. intros a Ha.
    rewrite Hr in Ha. injection Ha as <-. exact Hsk.
Qed.

Lemma deliveries_ok c bs : forall ms,
  Forall (miner_ok n cap) ms -> List.length ms = n ->
  (receiver c < n)%nat -> Forall (child_ok cap) bs ->
  exists ms', foldM (fun s b => send_block c b s) bs ms = Ok ms' /\
              Forall (miner_ok n cap) ms' /\
              map skeleton ms' = map skeleton ms.
Proof.
  induction bs as [|b bs IH]; intros ms Hms Hn Hc Hbs; simpl.
  - exists ms. now repeat split.
  - apply Forall_cons_iff in Hbs as [Hb Hbs'].
    destruct (send_block_ok c b ms Hms Hn Hc Hb) as [ms1 [E [Hms1 Hsk1]]].
    rewrite E. simpl.
    assert (Hn1 : List.length ms1 = n).
    { rewrite <- Hn, <- (length_map skeleton ms1), Hsk1. apply length_map. }
    destruct (IH ms1 Hms1 Hn1 Hc Hbs') as [ms2 [E2 [Hms2 Hsk2]]].
    exists ms2. split; [exact E2|]. split; [exact Hms2|congruence].
Qed.

Lemma skeleton_nth ms ms' i m :
  map skeleton ms' = map skeleton ms -> nth_error ms i = Some m ->
  exists m', nth_error ms' i = Some m' /\ skeleton m' = skeleton m.
Proof.
  intros E Hm.
  assert (H : nth_error (map skeleton ms') i = nth_error (map skeleton ms) i)
    by now rewrite E.
  rewrite !nth_error_map, Hm in H. cbn [option_map] in H.
  destruct (nth_error ms' i) as [m'|]; cbn [option_map] in H; [|discriminate].
  exists m'. split; [reflexivity|]. congruence.
Qed.

Lemma skeleton_length ms ms' :
  map skeleton ms' = map skeleton ms -> List.length ms' = List.length ms.
Proof.
  intros E. rewrite <- (length_map skeleton ms'), E. apply length_map.
Qed.

Lemma Connection_tick_ok c ms :
  conn_ok n cap c -> Forall (miner_ok n cap) ms -> List.length ms = n ->
  exists c' ms', Connection_tick c ms = Ok (c', ms') /\
                 Forall (miner_ok n cap) ms' /\
                 map skeleton ms' = map skeleton ms /\
                 conn_ok n cap c'.
Proof.
  intros [Hr He] Hms Hn. rewrite Connection_tick_spec.
  assert (Hdue : Forall (child_ok cap) (due (blocks_to_send c))).
  { apply Forall_forall. intros b Hb. unfold due in Hb.
    apply in_map_iff in Hb as [e [<- Hin]].
    apply filter_In in Hin as [Hin _]. now apply He. }
  destruct (deliveries_ok c _ ms Hms Hn Hr Hdue) as [ms' [E [Hms' Hsk]]].
  rewrite E. simpl. eexists. eexists. split; [reflexivity|].
  split; [exact Hms'|]. split; [exact Hsk|].
  split; [exact Hr|]. simpl. intros e Hin. unfold kept in Hin.
  apply in_map_iff in Hin as [e0 [<- Hin]].
  apply filter_In in Hin as [Hin _]. simpl. now apply He.
Qed.

Lemma tick_connection_ok i ms k m :
  Forall (miner_ok n cap) ms -> List.length ms = n ->
  nth_error ms i = Some m -> (k < List.length (connections m))%nat ->
  exists ms', tick_connection i ms k = Ok ms' /\
              Forall (miner_ok n cap) ms' /\
              map skeleton ms' = map skeleton ms.
Proof.
  intros Hms Hn Hm Hk. unfold tick_connection. rewrite Hm.
  destruct (nth_error (connections m) k) as [c|] eqn:Hc.
  2:{ apply nth_error_None in Hc. lia. }
  assert (Hok : conn_ok n cap c).
  { assert (Hmo : miner_ok n cap m).
    { rewrite Forall_forall in Hms. apply Hms. eapply nth_error_In; eauto. }
    destruct Hmo as [_ [_ [_ Hcn]]]. rewrite Forall_forall in Hcn.
    apply Hcn. eapply nth_error_In; eauto. }
  destruct (Connection_tick_ok c ms Hok Hms Hn) as [c' [ms1 [E [Hms1 [Hsk Hc']]]]].
  rewrite E. simpl. eexists. split; [reflexivity|]. split.
  - apply Forall_update_nth; [exact Hms1|]. intros a Ha.
    assert (Ha' : miner_ok n cap a).
    { rewrite Forall_forall in Hms1. apply Hms1. eapply nth_error_In; eauto. }
    destruct Ha' as [Ht [Hcs [Hrj Hcn]]].
    unfold miner_ok. simpl.
    split; [exact Ht|]. split; [exact Hcs|]. split; [exact Hrj|].
    apply Forall_update_nth; [exact Hcn|]. intros; exact Hc'.
  - rewrite <- Hsk. apply map_update_nth_same. intros a Ha.
    unfold skeleton. simpl. now rewrite update_nth_length.
Qed.

Lemma tick_connections_ok i ks : forall ms m,
  Forall (miner_ok n cap) ms -> List.length ms = n ->
  nth_error ms i = Some m ->
  Forall (fun k => (k < List.length (connections m))%nat) ks ->
  exists ms', foldM (tick_connection i) ks ms = Ok ms' /\
              Forall (miner_ok n cap) ms' /\
              map skeleton ms' = map skeleton ms.
Proof.
  induction ks as [|k ks IH]; intros ms m Hms Hn Hm Hks; simpl.
  - exists ms. now repeat split.
  - apply Forall_cons_iff in Hks as [Hk Hks].
    destruct (tick_connection_ok i ms k m Hms Hn Hm Hk) as [ms1 [E [Hms1 Hsk1]]].
    rewrite E. simpl.
    destruct (skeleton_nth ms ms1 i m Hsk1 Hm) as [m1 [Hm1 Hs1]].
    assert (Hlen : List.length (connections m1) = List.length (connections m)).
    { unfold skeleton in Hs1. now injection Hs1. }
    destruct (IH ms1 m1 Hms1) as [ms2 [E2 [Hms2 Hsk2]]].
    + rewrite <- Hn. now apply skeleton_length.
    + exact Hm1.
    + now rewrite Hlen.
    + exists ms2. split; [exact E2|]. split; [exact Hms2|congruence].
Qed.

Lemma send_messages_ok ms i :
  Forall (miner_ok n cap) ms -> List.length ms = n -> (i < n)%nat ->
  exists ms', send_messages ms i = Ok ms' /\
              Forall (miner_ok n cap) ms' /\
              map skeleton ms' = map skeleton ms.
Proof.
  intros Hms Hn Hi. unfold send_messages.
  destruct (nth_error ms i) as [m|] eqn:Hm.
  2:{ apply nth_error_None in Hm. lia. }
  apply (tick_connections_ok i _ ms m Hms Hn Hm).
  apply Forall_forall. intros k Hk. apply in_seq in Hk. lia.
Qed.

Lemma deliver_phase_ok refs : forall ms,
  Forall (miner_ok n cap) ms -> List.length ms = n ->
  Forall (fun i => (i < n)%nat) refs ->
  exists ms', foldM send_messages refs ms = Ok ms' /\
              Forall (miner_ok n cap) ms' /\
              map skeleton ms' = map skeleton ms.
Proof.
  induction refs as [|i refs IH]; intros ms Hms Hn Hrefs; simpl.
  - exists ms. now repeat split.
  - apply Forall_cons_iff in Hrefs as [Hi Hrefs].
    destruct (send_messages_ok ms i Hms Hn Hi) as [ms1 [E [Hms1 Hsk1]]].
    rewrite E. simpl.
    destruct (IH ms1 Hms1) as [ms2 [E2 [Hms2 Hsk2]]].
    + rewrite <- Hn. now apply skeleton_length.
    + exact Hrefs.
    + exists ms2. split; [exact E2|]. split; [exact Hms2|congruence].
Qed.
End WorldDelivery.

Lemma bump_ge r cap r' : cap r' <= bump r cap r'.
Proof. unfold bump. destruct (Nat.eqb r r'); lia. Qed.

Lemma counters_update ms j m m' r :
  nth_error ms j = Some m ->
  counters (update_nth j (fun _ => m') ms) r =
  if Nat.eqb j r then blocks_mined m' else counters ms r.
Proof.
  intros Hm. unfold counters.
  destruct (Nat.eqb_spec j r) as [<-|Hne].
  - now rewrite nth_error_update_nth_same, Hm.
  - now rewrite nth_error_update_nth_other.
Qed.

Section WorldMining.
Context {RT : Runtime} {G : Type} {RS : RandomSource G}.

Lemma mine_total m t g : exists m' g', mine m t g = Ok (m', g').
Proof.
  unfold mine.
  destruct (block_candidates m) as [|c cs] eqn:Hc.
  - simpl. destruct (random_random g) as [x g2].
    destruct (Qlt_bool x (probability_per_second m)); eauto.
  - destruct (evaluate_candidates_total m g) as [[m1 g1] Hr]; [congruence|].
    replace (0 <? Z.of_nat (List.length (c :: cs))) with true
      by (symmetry; apply Z.ltb_lt; simpl; lia).
    rewrite Hr. simpl.
    destruct (random_random g1) as [x g2].
    destruct (Qlt_bool x (probability_per_second m1)); eauto.
Qed.

Lemma evaluate_candidates_ok n cap m g m' g' :
  miner_ok n cap m -> evaluate_candidates m g = Ok (m', g') ->
  miner_ok n cap m' /\ skeleton m' = skeleton m.
Proof.
  intros [Ht [Hcs [Hr Hcn]]] E.
  destruct (evaluate_candidates_cases m g m' g' E) as [chosen [Hin [_ ->]]].
  split; [|reflexivity]. unfold miner_ok. simpl.
  rewrite Forall_forall in Hcs.
  split; [now apply Hcs|]. split; [constructor|]. split; [exact Hr|exact Hcn].
Qed.

Lemma found_on_ok cap m t :
  block_ok cap (current_block m) ->
  child_ok (bump (self_ref m) cap) (found_on m t).
Proof.
  intros [Hh Hc]. unfold child_ok, block_ok, found_on. simpl.
  split; [split|split; discriminate].
  - rewrite Hh. lia.
  - intros r. specialize (Hc r). unfold bump.
    destruct (current_block m) as [h0 t0 m0 p0]. simpl in *.
    destruct (Nat.eqb (self_ref m) r); lia.
Qed.

Lemma mine_ok n cap m t g m' g' :
  miner_ok n cap m -> mine m t g = Ok (m', g') ->
  self_ref m' = self_ref m /\
  List.length (connections m') = List.length (connections m) /\
  ((blocks_mined m' = blocks_mined m /\ miner_ok n cap m') \/
   (blocks_mined m' = blocks_mined m + 1 /\
    miner_ok n (bump (self_ref m) cap) m')).
Proof.
  intros Hm E.
  destruct (mine_cases m t g m' g' E) as [m1 [Hm1 Hm']].
  assert (H1 : miner_ok n cap m1 /\ skeleton m1 = skeleton m).
  { destruct Hm1 as [[-> _]|[g0 [g1 E1]]]; [now split|].
    eapply evaluate_candidates_ok; eauto. }
  destruct H1 as [Hok Hsk]. unfold skeleton in Hsk.
  injection Hsk as Hn Hs Hl.
  destruct Hm' as [->| ->].
  - split; [exact Hs|]. split; [exact Hl|]. left. now split.
  - unfold announce. simpl. rewrite length_map.
    split; [exact Hs|]. split; [exact Hl|]. right.
    split; [lia|].
    pose proof (found_on_ok cap m1 t) as Hf. rewrite Hs in Hf.
    destruct Hok as [Ht [Hcs [Hr Hcn]]]. specialize (Hf Ht).
    assert (Hge : forall r, cap r <= bump (self_ref m) cap r)
      by (intros r; apply bump_ge).
    unfold miner_ok. simpl.
    split; [now apply (block_ok_mono cap)|].
    split.
    { apply Forall_app. split.
      - eapply Forall_impl; [|exact Hcs]. intros b. now apply block_ok_mono.
      - constructor; [apply Hf|constructor]. }
    split; [exact Hr|].
    apply Forall_forall. intros c Hc. apply in_map_iff in Hc as [c0 [<- Hc0]].
    rewrite Forall_forall in Hcn. destruct (Hcn c0 Hc0) as [Hrc He].
    split; [exact Hrc|]. simpl. intros e Hin.
    apply in_app_or in Hin as [Hin|[<-|[]]].
    + destruct (He e Hin) as [Hb Hp]. split; [|exact Hp].
      now apply (block_ok_mono cap).
    + exact Hf.
Qed.

Lemma mine_at_ok t ms g j :
  world_ok ms -> (j < List.length ms)%nat ->
  exists ms' g', mine_at t (ms, g) j = Ok (ms', g') /\
                 world_ok ms' /\ List.length ms' = List.length ms.
Proof.
  intros [Hrefs Hms] Hj. unfold mine_at. simpl.
  destruct (nth_error ms j) as [m|] eqn:Hm.
  2:{ apply nth_error_None in Hm. lia. }
  destruct (mine_total m t g) as [m' [g' E]]. rewrite E. simpl.
  assert (Hmo : miner_ok (List.length ms) (counters ms) m).
  { rewrite Forall_forall in Hms. apply Hms. eapply nth_error_In; eauto. }
  destruct (mine_ok _ _ m t g m' g' Hmo E) as [Hs [_ Hcase]].
  pose proof (Hrefs j m Hm) as Hself.
  set (ms' := update_nth j (fun _ => m') ms).
  assert (Hge : forall r, counters ms r <= counters ms' r).
  { intros r. unfold ms'. rewrite (counters_update ms j m m' r Hm).
    destruct (Nat.eqb_spec j r) as [<-|Hne]; [|lia].
    unfold counters. rewrite Hm. destruct Hcase as [[-> _]|[-> _]]; lia. }
  assert (Hm' : miner_ok (List.length ms) (counters ms') m').
  { destruct Hcase as [[Hn Hok]|[Hn Hok]].
    - eapply miner_ok_mono; [exact Hge|exact Hok].
    - eapply miner_ok_mono; [|exact Hok].
      intros r. unfold ms'. rewrite (counters_update ms j m m' r Hm).
      unfold bump. rewrite Hself.
      destruct (Nat.eqb_spec j r) as [<-|Hne]; [|lia].
      unfold counters. rewrite Hm. lia. }
  exists ms', g'. split; [reflexivity|]. split; [|apply update_nth_length].
  split.
  - intros i a Ha. unfold ms' in Ha.
    destruct (Nat.eq_dec j i) as [<-|Hne].
    + rewrite nth_error_update_nth_same, Hm in Ha. simpl in Ha.
      injection Ha as <-. congruence.
    + rewrite nth_error_update_nth_other in Ha by exact Hne. now apply Hrefs.
  - unfold ms' at 1. rewrite update_nth_length. fold ms'.
    apply Forall_update_nth; [|intros; exact Hm'].
    eapply Forall_impl; [|exact Hms]. intros a. now apply miner_ok_mono.
Qed.

Lemma mining_phase_ok t refs : forall ms g,
  world_ok ms -> Forall (fun i => (i < List.length ms)%nat) refs ->
  exists ms' g', foldM (mine_at t) refs (ms, g) = Ok (ms', g') /\
                 world_ok ms' /\ List.length ms' = List.length ms.
Proof.
  induction refs as [|j refs IH]; intros ms g Hw Hrefs; simpl.
  - exists ms, g. split; [reflexivity|]. split; [exact Hw|reflexivity].
  - apply Forall_cons_iff in Hrefs as [Hj Hrefs].
    destruct (mine_at_ok t ms g j Hw Hj) as [ms1 [g1 [E [Hw1 Hl1]]]].
    rewrite E. simpl.
    destruct (IH ms1 g1 Hw1) as [ms2 [g2 [E2 [Hw2 Hl2]]]].
    + now rewrite Hl1.
    + exists ms2, g2. split; [exact E2|]. split; [exact Hw2|congruence].
Qed.

Lemma main_tick_ok ms g t :
  world_ok ms ->
  exists ms' g', main_tick (ms, g) t = Ok (ms', g') /\
                 world_ok ms' /\ List.length ms' = List.length ms.
Proof.
  intros [Hrefs Hms]. unfold main_tick. simpl.
  assert (Hseq : Forall (fun i => (i < List.length ms)%nat)
                        (seq 0 (List.length ms))).
  { apply Forall_forall. intros i Hi. apply in_seq in Hi. lia. }
  destruct (deliver_phase_ok (List.length ms) (counters ms) _ ms Hms eq_refl Hseq)
    as [ms1 [E [Hms1 Hsk]]].
  rewrite E. simpl.
  pose proof (skeleton_length ms ms1 Hsk) as Hl1.
  assert (Hw1 : world_ok ms1).
  { split.
    - intros i m1 Hm1.
      destruct (skeleton_nth ms1 ms i m1 (eq_sym Hsk) Hm1) as [m [Hm Hs]].
      unfold skeleton in Hs. injection Hs as _ Hs _.
      rewrite <- Hs. now apply Hrefs.
    - rewrite Hl1. eapply Forall_impl; [|exact Hms1]. intros a.
      apply miner_ok_mono. intros r. rewrite (counters_skeleton ms ms1 Hsk r). lia. }
  destruct (mining_phase_ok t (seq 0 (List.length ms)) ms1 g Hw1)
    as [ms2 [g2 [E2 [Hw2 Hl2]]]].
  - now rewrite Hl1.
  - exists ms2, g2. split; [exact E2|]. split; [exact Hw2|congruence].
Qed.

Lemma run_ok ts : forall ms g,
  world_ok ms ->
  exists ms' g', foldM main_tick ts (ms, g) = Ok (ms', g') /\
                 world_ok ms' /\ List.length ms' = List.length ms.
Proof.
  induction ts as [|t ts IH]; intros ms g Hw; simpl.
  - exists ms, g. split; [reflexivity|]. split; [exact Hw|reflexivity].
  - destruct (main_tick_ok ms g t Hw) as [ms1 [g1 [E [Hw1 Hl1]]]].
    rewrite E. simpl.
    destruct (IH ms1 g1 Hw1) as [ms2 [g2 [E2 [Hw2 Hl2]]]].
    exists ms2, g2. split; [exact E2|]. split; [exact Hw2|congruence].
Qed.

Lemma initial_miners_ok : world_ok initial_miners.
Proof.
  assert (Hg : block_ok (counters initial_miners) genesis_block).
  { split; [reflexivity|]. intros r.
    change (count_in_chain r genesis_block) with 0. unfold counters.
    destruct r as [|[|[|r]]]; simpl; try lia. destruct r; simpl; lia. }
  split.
  - intros i m Hm. destruct i as [|[|[|i]]]; simpl in Hm;
      try (injection Hm as <-; reflexivity).
    destruct i; discriminate.
  - unfold initial_miners.
    repeat (apply Forall_cons); try apply Forall_nil;
      (split; [exact Hg|]; split; [constructor|]; split; [intros k b []|]);
      repeat (apply Forall_cons); try apply Forall_nil;
      (split; [simpl; lia|intros e []]).
Qed.
End WorldMining.

Section WholeRun.
Context {RT : Runtime} {G : Type} {RS : RandomSource G}.

Lemma world_ok_accounting ms m :
  world_ok ms -> In m ms ->
  0 <= count_in_chain (self_ref m) (current_block m) <= blocks_mined m /\
  count_in_chain (self_ref m) (current_block m) <= height (current_block m).
Proof.
  intros [Hrefs Hms] Hin.
  apply In_nth_error in Hin as [i Hi].
  pose proof (Hrefs i m Hi) as Hs.
  rewrite Forall_forall in Hms.
  destruct (Hms m (nth_error_In _ _ Hi)) as [[Hh Hc] _].
  specialize (Hc (self_ref m)). unfold counters in Hc. rewrite Hs, Hi in Hc.
  pose proof (count_in_chain_bounds (self_ref m) (current_block m)) as Hb.
  rewrite Hs in *. lia.
Qed.

(** X15.  The loop of [main] never raises, whatever the duration and
    whatever the random source yields: no assertion fails, fork choice
    never meets an empty candidate list, no delivery goes astray.  The
    three miners are still there, each under its own reference. *)
Theorem simulate_never_raises (block_periods : Z) (g : G) :
  exists ms g',
    simulate block_periods g = Ok (ms, g') /\
    List.length ms = 3%nat /\
    forall i m, nth_error ms i = Some m -> self_ref m = i.
Proof.
  destruct (run_ok (tick_times block_periods) initial_miners g initial_miners_ok)
    as [ms [g' [E [[Hrefs _] Hl]]]].
  exists ms, g'. split; [exact E|]. split; [exact Hl|exact Hrefs].
Qed.

(** X16.  At the end of every run, for every miner, the number of blocks
    of its main chain that it mined itself lies between 0 and the number
    of blocks it has mined, so that the stale count is never negative, and
    is at most the height of its tip, so that its share of the chain is at
    most 1. *)
Theorem stale_count_never_negative (block_periods : Z) (g : G) :
  exists ms g',
    simulate block_periods g = Ok (ms, g') /\
    Forall (fun m =>
              0 <= count_in_chain (self_ref m) (current_block m) <= blocks_mined m /\
              0 <= blocks_mined m - count_in_chain (self_ref m) (current_block m) /\
              count_in_chain (self_ref m) (current_block m)
              <= height (current_block m))
           ms.
Proof.
  destruct (run_ok (tick_times block_periods) initial_miners g initial_miners_ok)
    as [ms [g' [E [Hw _]]]].
  exists ms, g'. split; [exact E|].
  apply Forall_forall. intros m Hin.
  destruct (world_ok_accounting ms m Hw Hin) as [H1 H2].
  repeat split; lia.
Qed.

Lemma summarize_zero m :
  blocks_mined m = 0 -> summarize m = Raise ZeroDivisionError.
Proof.
  intros Hz. unfold summarize.
  destruct (height (current_block m) >? 0) eqn:Hh.
  - unfold py_truediv at 1.
    destruct (Z.eqb_spec (height (current_block m)) 0) as [E|E].
    + rewrite E in Hh. discriminate.
    + simpl. unfold py_truediv. now rewrite Hz.
  - simpl. unfold py_truediv. now rewrite Hz.
Qed.

Lemma summarize_nonzero m :
  blocks_mined m <> 0 ->
  exists s,
    summarize m = Ok s /\
    s_blocks_in_chain s = count_in_chain (self_ref m) (current_block m) /\
    s_blocks_mined s = blocks_mined m /\
    s_stale_blocks s = blocks_mined m - s_blocks_in_chain s /\
    s_height s = height (current_block m) /\
    s_known_blocks s = List.length (known_blocks m) /\
    (s_percentage s = None <-> height (current_block m) <= 0).
Proof.
  intros Hnz. unfold summarize.
  assert (Hd : forall a, py_truediv a (blocks_mined m)
                         = Ok (Qmake a 1 / Qmake (blocks_mined m) 1)%Q).
  { intros a. unfold py_truediv.
    destruct (Z.eqb_spec (blocks_mined m) 0); [contradiction|reflexivity]. }
  destruct (height (current_block m) >? 0) eqn:Hh.
  - unfold py_truediv at 1.
    destruct (Z.eqb_spec (height (current_block m)) 0) as [E|E].
    + rewrite E in Hh. discriminate.
    + simpl. rewrite Hd. simpl. eexists. split; [reflexivity|]. simpl.
      repeat split; try discriminate.
      intros Hle. apply Z.gtb_lt in Hh. lia.
  - simpl. rewrite Hd. simpl. eexists. split; [reflexivity|]. simpl.
    repeat split.
    intros _. destruct (Z.gtb_spec (height (current_block m)) 0); [discriminate|lia].
Qed.

Lemma summarize_all_outcome ms :
  (Exists (fun m => blocks_mined m = 0) ms /\
   summarize_all ms = Raise ZeroDivisionError) \/
  (Forall (fun m => blocks_mined m <> 0) ms /\
   exists ss, summarize_all ms = Ok ss /\
              Forall2 (fun m s => summarize m = Ok s) ms ss).
Proof.
  induction ms as [|m ms IH]; simpl.
  - right. split; [constructor|]. exists []. split; [reflexivity|constructor].
  - destruct (Z.eq_dec (blocks_mined m) 0) as [Hz|Hnz].
    + left. split; [now constructor|]. now rewrite (summarize_zero m Hz).
    + destruct (summarize_nonzero m Hnz) as [s [Es _]]. rewrite Es. simpl.
      destruct IH as [[Hex ->]|[Hall [ss [-> Hss]]]].
      * left. split; [now apply Exists_cons_tl|reflexivity].
      * right. split; [now constructor|]. exists (s :: ss).
        split; [reflexivity|]. now constructor.
Qed.

(** What a summary that was returned says of its miner. *)
Definition summary_of (m : Miner) (s : Summary) : Prop :=
  s_blocks_mined s = blocks_mined m /\
  s_blocks_in_chain s = count_in_chain (self_ref m) (current_block m) /\
  s_stale_blocks s = s_blocks_mined s - s_blocks_in_chain s /\
  0 <= s_stale_blocks s /\
  0 <= s_blocks_in_chain s <= s_height s /\
  (s_percentage s = None <-> s_height s = 0).

Lemma summaries_accounted ms l ss :
  world_ok ms -> (forall m, In m l -> In m ms) ->
  Forall2 (fun m s => summarize m = Ok s) l ss ->
  Forall2 summary_of l ss.
Proof.
  intros Hw Hin Hss. induction Hss as [|m s l ss Es _ IH]; constructor.
  - assert (Hnz : blocks_mined m <> 0).
    { intros Hz. rewrite (summarize_zero m Hz) in Es. discriminate. }
    destruct (summarize_nonzero m Hnz) as [s' [Es' [H1 [H2 [H3 [H4 [_ H6]]]]]]].
    rewrite Es in Es'. injection Es' as <-.
    destruct (world_ok_accounting ms m Hw (Hin m (or_introl eq_refl)))
      as [Ha Hb].
    unfold summary_of. rewrite H2, H1, H3, H4, H1. repeat split; try lia.
    + intros Hn. apply H6 in Hn. lia.
    + intros Hn. apply H6. lia.
  - apply IH. intros m' Hm'. apply Hin. now right.
Qed.

(** X17.  [main] fails in one way only, with the division by zero of the
    stale rate, and exactly when some miner has mined no block by the end
    of the run.  Otherwise it returns one summary per miner, in which the
    stale count is the number of blocks mined minus those in the main
    chain and is not negative, the blocks in the main chain are no more
    than the height, and the share of the chain is left out exactly when
    the tip has height 0. *)
Theorem main_fails_only_on_idle_miner (block_periods : Z) (g : G) :
  exists ms g',
    simulate block_periods g = Ok (ms, g') /\
    ((Exists (fun m => blocks_mined m = 0) ms /\
      main block_periods g = Raise ZeroDivisionError) \/
     (Forall (fun m => blocks_mined m <> 0) ms /\
      exists ss,
        main block_periods g = Ok ss /\ Forall2 summary_of ms ss)).
Proof.
  destruct (run_ok (tick_times block_periods) initial_miners g initial_miners_ok)
    as [ms [g' [E [Hw _]]]].
  exists ms, g'. split; [exact E|].
  unfold main. fold (simulate block_periods g) in E. rewrite E. simpl.
  destruct (summarize_all_outcome ms) as [[Hex Hr]|[Hall [ss [Hr Hss]]]].
  - left. now split.
  - right. split; [exact Hall|]. exists ss. split; [exact Hr|].
    apply (summaries_accounted ms ms ss Hw); auto.
Qed.

End WholeRun.

(** * The further properties on concrete inputs *)

Lemma receive_block_frame_witness :
  receive_block miner_c first_block = Ok miner_c_after_first /\
  current_block miner_c_after_first = genesis_block /\
  blocks_mined miner_c_after_first = 0 /\
  block_candidates miner_c_after_first = [first_block].
Proof.
  assert (H : receive_block miner_c first_block = Ok miner_c_after_first)
    by (vm_compute; reflexivity).
  destruct (receive_block_frame miner_c miner_c_after_first first_block H)
    as [Ht [Hn [_ [_ [_ [_ Hc]]]]]].
  split; [exact H|]. split; [exact Ht|]. split; [exact Hn|].
  destruct Hc as [Hc|Hc]; [vm_compute in Hc; discriminate Hc|exact Hc].
Defined.

(** Miner C holding the orphan [second_block], with the parent put into
    [known_blocks] but not yet reconciled. *)
Definition miner_c_unreconciled : Miner :=
  set_known_blocks miner_c_with_orphan
    (dict_set (Block_hash first_block) first_block
              (known_blocks miner_c_with_orphan)).

Definition miner_c_reconciled : Miner :=
  match refresh_rejects miner_c_unreconciled with
  | Ok m => m
  | Raise _ => miner_c
  end.

Lemma refresh_rejects_reaches_fixpoint_witness :
  refresh_rejects miner_c_unreconciled = Ok miner_c_reconciled /\
  dict_contains (Block_hash second_block) (rejected_blocks miner_c_unreconciled)
  = true /\
  settled (known_blocks miner_c_reconciled) (rejected_blocks miner_c_reconciled) /\
  tracked (Block_hash second_block) miner_c_reconciled.
Proof.
  assert (H : refresh_rejects miner_c_unreconciled = Ok miner_c_reconciled)
    by (vm_compute; reflexivity).
  assert (Ho : dict_contains (Block_hash second_block)
                 (rejected_blocks miner_c_unreconciled) = true)
    by (vm_compute; reflexivity).
  destruct (refresh_rejects_reaches_fixpoint miner_c_unreconciled
              miner_c_reconciled H) as [Hs [Ht _]].
  split; [exact H|]. split; [exact Ho|]. split; [exact Hs|].
  apply Ht. left. exact Ho.
Defined.

Lemma receive_block_keeps_settled_witness :
  receive_block miner_c first_block = Ok miner_c_after_first /\
  settled (known_blocks miner_c) (rejected_blocks miner_c) /\
  settled (known_blocks miner_c_after_first)
          (rejected_blocks miner_c_after_first).
Proof.
  assert (H : receive_block miner_c first_block = Ok miner_c_after_first)
    by (vm_compute; reflexivity).
  assert (Hs : settled (known_blocks miner_c) (rejected_blocks miner_c))
    by (intros h b []).
  destruct (receive_block_keeps_settled miner_c miner_c_after_first first_block H)
    as [Hk _].
  split; [exact H|]. split; [exact Hs|]. exact (Hk Hs).
Defined.

Definition miner_a_after_choice : Miner :=
  match evaluate_candidates miner_a_tied idle_script with
  | Ok (m, _) => m
  | Raise _ => miner_a
  end.

Lemma evaluate_candidates_picks_maximum_witness :
  evaluate_candidates miner_a_tied idle_script
  = Ok (miner_a_after_choice, idle_script) /\
  In (current_block miner_a_after_choice) (block_candidates miner_a_tied) /\
  block_candidates miner_a_after_choice = [].
Proof.
  assert (H : evaluate_candidates miner_a_tied idle_script
              = Ok (miner_a_after_choice, idle_script))
    by (vm_compute; reflexivity).
  destruct (evaluate_candidates_picks_maximum miner_a_tied miner_a_after_choice
              idle_script idle_script H) as [Hin [_ [Hc _]]].
  split; [exact H|]. split; [exact Hin|exact Hc].
Defined.

(** Miner A with its two connections of [main]. *)
Definition miner_a_linked : Miner :=
  add_connection (add_connection miner_a 1%nat 0) 2%nat 5.

Definition miner_a_after_mining : Miner :=
  match mine miner_a_linked 1 lucky_script with
  | Ok (m, _) => m
  | Raise _ => miner_a
  end.

Lemma mine_extends_tip_and_broadcasts_witness :
  mine miner_a_linked 1 lucky_script = Ok (miner_a_after_mining, idle_script) /\
  rejected_blocks miner_a_after_mining = rejected_blocks miner_a_linked /\
  blocks_mined miner_a_after_mining = 1 /\
  block_candidates miner_a_after_mining = [first_block].
Proof.
  assert (H : mine miner_a_linked 1 lucky_script
              = Ok (miner_a_after_mining, idle_script))
    by (vm_compute; reflexivity).
  destruct (mine_extends_tip_and_broadcasts miner_a_linked miner_a_after_mining
              1 lucky_script idle_script H) as [Hr Hcase].
  split; [exact H|]. split; [exact Hr|].
  destruct Hcase as [[Hc _]|[found [Hf [_ [_ [_ [_ [Hc [_ [Hn _]]]]]]]]]].
  - vm_compute in Hc. discriminate Hc.
  - split; [exact Hn|]. rewrite Hc, Hf. reflexivity.
Defined.

Lemma miner_c_on_first_reachable :
  reachable_from (G := Script) miner_c miner_c_on_first.
Proof.
  eapply reach_step; [eapply reach_step; [apply reach_start|]|].
  - eapply step_receive_block with (b := first_block) (m' := miner_c_after_first).
    vm_compute. reflexivity.
  - eapply step_evaluate_candidates with (g := idle_script) (g' := idle_script).
    vm_compute. reflexivity.
Qed.

Lemma reachable_tip_never_lower_witness :
  reachable_from (G := Script) miner_c miner_c_on_first /\
  above_tip miner_c_on_first /\
  height genesis_block <= height (current_block miner_c_on_first).
Proof.
  destruct (reachable_tip_never_lower (G := Script) 2%nat "C" genesis_block
              (4 # 10) miner_c_on_first miner_c_on_first_reachable)
    as [Ha [Hh _]].
  split; [exact miner_c_on_first_reachable|]. split; [exact Ha|exact Hh].
Defined.

Lemma miner_step_monotone_witness :
  miner_step (G := Script) miner_c miner_c_after_first /\
  (List.length (known_blocks miner_c)
   <= List.length (known_blocks miner_c_after_first))%nat /\
  self_ref miner_c_after_first = self_ref miner_c.
Proof.
  assert (H : miner_step (G := Script) miner_c miner_c_after_first).
  { eapply step_receive_block with (b := first_block). vm_compute. reflexivity. }
  destruct (miner_step_monotone (G := Script) miner_c miner_c_after_first H)
    as [_ [Hl [_ [Hs _]]]].
  split; [exact H|]. split; [exact Hl|exact Hs].
Defined.




(** The connection from A to C with [first_block] due. *)
Definition due_link : Connection :=
  mkConnection 0%nat 2%nat 5 [mkQueueEntry first_block 0].

Definition after_due_link : Connection * list Miner :=
  match Connection_tick due_link initial_miners with
  | Ok r => r
  | Raise _ => (due_link, [])
  end.

Lemma Connection_tick_frame_witness :
  Connection_tick due_link initial_miners = Ok after_due_link /\
  blocks_to_send (fst after_due_link) = [] /\
  List.length (snd after_due_link) = 3%nat /\
  nth_error (snd after_due_link) 0 = nth_error initial_miners 0 /\
  nth_error (snd after_due_link) 1 = nth_error initial_miners 1.
Proof.
  assert (H : Connection_tick due_link initial_miners
              = Ok (fst after_due_link, snd after_due_link))
    by (vm_compute; reflexivity).
  destruct (Connection_tick_frame due_link (fst after_due_link) initial_miners
              (snd after_due_link) H) as [_ [_ [_ [Hq [Hl Ho]]]]].
  split; [vm_compute; reflexivity|]. split; [rewrite Hq; reflexivity|].
  split; [rewrite Hl; reflexivity|].
  split; apply Ho; simpl; lia.
Defined.

(** Miner C holding two chained orphans, [third_block] and its parent
    [second_block], in the order in which they arrived. *)
Definition third_block : Block := mkBlock 3 4 (Some 0%nat) (Some second_block).

Definition miner_c_piled : Miner :=
  match receive_blocks miner_c [third_block; second_block] with
  | Ok m => m
  | Raise _ => miner_c
  end.

(** The same miner with [first_block] put into [known_blocks] but the pile
    not yet reconciled. *)
Definition miner_c_piled_unreconciled : Miner :=
  set_known_blocks miner_c_piled
    (dict_set (Block_hash first_block) first_block (known_blocks miner_c_piled)).

Lemma miner_c_piled_parents :
  forall k b, In (k, b) (rejected_blocks miner_c_piled) -> parent b <> None.
Proof.
  intros k b H. vm_compute in H.
  destruct H as [E|[E|[]]]; injection E as _ <-; discriminate.
Qed.

Lemma refresh_rejects_depth_limit_witness :
  List.length (rejected_blocks miner_c_piled_unreconciled) = 2%nat /\
  refresh_rejects_within 2 miner_c_piled_unreconciled = Raise RecursionError /\
  refresh_rejects_within 3 miner_c_piled_unreconciled
  = refresh_rejects miner_c_piled_unreconciled /\
  exists m', refresh_rejects miner_c_piled_unreconciled = Ok m' /\
             rejected_blocks m' = [].
Proof.
  destruct (refresh_rejects_depth_limit 3 miner_c_piled_unreconciled)
    as [Henough [Hok _]].
  split; [reflexivity|]. split; [vm_compute; reflexivity|].
  split; [apply Henough; vm_compute; lia|].
  destruct (refresh_rejects_within 3 miner_c_piled_unreconciled) as [m'|e] eqn:E;
    [|vm_compute in E; discriminate E].
  exists m'. split; [now apply Hok|].
  revert E. vm_compute. intros E. injection E as <-. reflexivity.
Defined.

Lemma receive_block_returns_within_budget_witness :
  (forall k b, In (k, b) (rejected_blocks miner_c_piled) -> parent b <> None) /\
  parent first_block <> None /\
  (List.length (rejected_blocks miner_c_piled) < 3)%nat /\
  receive_block_within 2 miner_c_piled first_block = Raise RecursionError /\
  exists m', receive_block_within 3 miner_c_piled first_block = Ok m' /\
             receive_block miner_c_piled first_block = Ok m'.
Proof.
  assert (Hp : parent first_block <> None) by discriminate.
  assert (Hl : (List.length (rejected_blocks miner_c_piled) < 3)%nat)
    by (vm_compute; lia).
  destruct (receive_block_returns_within_budget 3 miner_c_piled first_block
              miner_c_piled_parents) as [_ [H _]].
  destruct (H Hp Hl) as [m' [E1 [E2 _]]].
  split; [exact miner_c_piled_parents|]. split; [exact Hp|]. split; [exact Hl|].
  split; [vm_compute; reflexivity|]. exists m'. now split.
Defined.




(** * Hashes that identify blocks *)

(** Two blocks with the same height and miner whose parents, if any, are
    again such: the same block but for the creation times. *)
Fixpoint same_identity (b1 b2 : Block) : Prop :=
  match b1, b2 with
  | mkBlock h1 _ m1 p1, mkBlock h2 _ m2 p2 =>
      h1 = h2 /\ m1 = m2 /\
      match p1, p2 with
      | None, None => True
      | Some q1, Some q2 => same_identity q1 q2
      | _, _ => False
      end
  end.

Section Identity.
Context {RT : Runtime}.

(** The hash identifies the tuple of height, miner and parent hash. *)
Definition hash_identifies : Prop :=
  forall b1 b2, Block_hash b1 = Block_hash b2 ->
    height b1 = height b2 /\ miner b1 = miner b2 /\
    parent_hash b1 = parent_hash b2.

Lemma hash_identifies_collision_free : hash_identifies -> collision_free.
Proof. intros H b1 b2 E. now destruct (H b1 b2 E) as [_ [_ Hp]]. Qed.

Lemma same_identity_hash b1 : forall b2,
  same_identity b1 b2 -> Block_hash b1 = Block_hash b2.
Proof.
  induction b1 as [h t m|h t m q IH] using Block_chain_ind;
    intros [h2 t2 m2 [q2|]] [Hh [Hm Hp]]; try destruct Hp; subst.
  - reflexivity.
  - simpl. now rewrite (IH q2 Hp).
Qed.

Lemma hash_identifies_identity :
  hash_identifies ->
  forall b1 b2, Block_hash b1 = Block_hash b2 -> same_identity b1 b2.
Proof.
  intros Hid b1.
  induction b1 as [h t m|h t m q IH] using Block_chain_ind;
    intros [h2 t2 m2 p2] E; destruct (Hid _ _ E) as [Hh [Hm Hp]];
    unfold parent_hash in Hp; simpl in *.
  - destruct p2; [discriminate|]. now repeat split.
  - destruct p2 as [q2|]; [|discriminate]. injection Hp as Hp.
    repeat split; try assumption. now apply IH.
Qed.
End Identity.

(** Runtimes whose digest is the preimage itself and in which the miner
    object [r] prints with the address [addr r]. *)
Definition address_runtime (addr : MinerRef -> Z) : Runtime :=
  {| sha256_hexdigest := fun s => s;
     object_str := fun r => ("<Miner " ++ str_int (addr r) ++ ">")%string;
     exp_neg_1_600 := 998334721 # 1000000000 |}.

Lemma Z_to_int_nonnil z :
  Z.to_int z <> Decimal.Pos Decimal.Nil /\ Z.to_int z <> Decimal.Neg Decimal.Nil.
Proof.
  destruct z; simpl; split; try discriminate; intros E; injection E as E;
    now apply Unsigned.to_uint_nonnil in E.
Qed.

Lemma str_int_injective z1 z2 : str_int z1 = str_int z2 -> z1 = z2.
Proof.
  intros E. unfold str_int in E.
  assert (H : NilZero.int_of_string (NilZero.string_of_int (Z.to_int z1)) =
              NilZero.int_of_string (NilZero.string_of_int (Z.to_int z2)))
    by now rewrite E.
  destruct (Z_to_int_nonnil z1), (Z_to_int_nonnil z2).
  rewrite !NilZero.isi in H by assumption. injection H as H.
  rewrite <- (DecimalZ.of_to z1), <- (DecimalZ.of_to z2). now rewrite H.
Qed.

Section AddressRuntime.
Variable addr : MinerRef -> Z.
Hypothesis addr_injective : forall r1 r2, addr r1 = addr r2 -> r1 = r2.

Local Abbreviation RTa := (address_runtime addr).

Definition address_link (p : option Block) : string :=
  match p with
  | Some q => @Block_hash RTa q
  | None => repeat_string "0" 64
  end.

Lemma address_hash h t m p :
  @Block_hash RTa (mkBlock h t m p)
  = (str_int h ++ @str_miner RTa m ++ address_link p)%string.
Proof. destruct p; reflexivity. Qed.

Lemma address_miner_head m x :
  exists c r, is_numeral c = false /\
              (@str_miner RTa m ++ x)%string = String c r.
Proof. destruct m; simpl; eexists; eexists; (split; [|reflexivity]); reflexivity. Qed.

Lemma address_miner_injective m1 m2 x1 x2 :
  (@str_miner RTa m1 ++ x1 = @str_miner RTa m2 ++ x2)%string ->
  m1 = m2 /\ x1 = x2.
Proof.
  destruct m1 as [r1|], m2 as [r2|]; simpl; intros E; try discriminate E.
  - injection E as E.
    rewrite !string_app_assoc in E. simpl in E.
    apply numeral_prefix_unique in E as [Hr E];
      try apply str_int_numeral; try reflexivity.
    apply str_int_injective, addr_injective in Hr. subst.
    split; [reflexivity|]. now injection E.
  - split; [reflexivity|]. now injection E.
Qed.

Lemma address_hash_not_zeros b : @Block_hash RTa b <> repeat_string "0" 64.
Proof.
  destruct b as [h t m p]. rewrite address_hash. intros E.
  destruct (address_miner_head m (address_link p)) as [c [r [Hc Hr]]].
  rewrite Hr in E.
  assert (Ha : all_chars is_numeral (str_int h ++ String c r)%string = true)
    by (rewrite E; reflexivity).
  rewrite all_chars_app in Ha. simpl in Ha. rewrite Hc in Ha.
  simpl in Ha. rewrite andb_false_r in Ha. discriminate.
Qed.

Lemma address_runtime_identifies : @hash_identifies RTa.
Proof.
  intros [h1 t1 m1 p1] [h2 t2 m2 p2] E. rewrite !address_hash in E.
  destruct (address_miner_head m1 (address_link p1)) as [c1 [r1 [Hc1 Hr1]]].
  destruct (address_miner_head m2 (address_link p2)) as [c2 [r2 [Hc2 Hr2]]].
  rewrite Hr1, Hr2 in E.
  apply numeral_prefix_unique in E as [Hh E];
    try apply str_int_numeral; try assumption.
  rewrite <- Hr1, <- Hr2 in E. apply address_miner_injective in E as [Hm Hl].
  apply str_int_injective in Hh.
  simpl. split; [exact Hh|]. split; [exact Hm|].
  unfold parent_hash. simpl.
  destruct p1 as [q1|], p2 as [q2|]; simpl in *.
  - now rewrite Hl.
  - exfalso. now apply (address_hash_not_zeros q1).
  - exfalso. now apply (address_hash_not_zeros q2).
  - reflexivity.
Qed.
End AddressRuntime.

Lemma plain_runtime_identifies : @hash_identifies plain_runtime.
Proof.
  apply (address_runtime_identifies Z.of_nat). intros r1 r2. apply Nat2Z.inj.
Qed.

(** The plain runtime with every miner object at another address. *)
Definition relocated_runtime : Runtime :=
  address_runtime (fun r => Z.of_nat r + 4096).

Lemma relocated_runtime_identifies : @hash_identifies relocated_runtime.
Proof.
  apply (address_runtime_identifies (fun r => Z.of_nat r + 4096)).
  intros r1 r2 E. lia.
Qed.

(** * The invariant of the miners in the running program *)

Lemma fold_left_max_le xs : forall x h,
  x <= h -> (forall y, In y xs -> y <= h) -> fold_left Z.max xs x <= h.
Proof.
  induction xs as [|y ys IH]; intros x h Hx Hall; simpl; [exact Hx|].
  apply IH.
  - apply Z.max_lub; [exact Hx|]. apply Hall. now left.
  - intros z Hz. apply Hall. now right.
Qed.

Lemma fold_left_max_ge_init xs : forall x, x <= fold_left Z.max xs x.
Proof. intros x. apply fold_left_max_upper. now left. Qed.

(** The height up to which a miner has settled on or heard of blocks: that
    of its tip or of its highest candidate. *)
Definition top_of (m : Miner) : Z :=
  fold_left Z.max (map height (block_candidates m)) (height (current_block m)).

Definition tops (ms : list Miner) (r : MinerRef) : Z :=
  match nth_error ms r with
  | Some m => top_of m
  | None => -1
  end.

(** No block of the chain of [b] that is attributed to a miner [r] is
    higher than [top r]. *)
Fixpoint bounded (top : MinerRef -> Z) (b : Block) : Prop :=
  match b with
  | mkBlock h _ m p =>
      match m with
      | Some r => h <= top r
      | None => True
      end /\
      match p with
      | Some q => bounded top q
      | None => True
      end
  end.

Lemma bounded_mono top top' b :
  (forall r, top r <= top' r) -> bounded top b -> bounded top' b.
Proof.
  intros Hle. induction b as [h t m|h t m q IH] using Block_chain_ind; simpl.
  - intros [H _]. split; [|exact I]. destruct m as [r|]; [|exact I].
    specialize (Hle r). lia.
  - intros [H Hq]. split; [|now apply IH]. destruct m as [r|]; [|exact I].
    specialize (Hle r). lia.
Qed.

Lemma bounded_parent top b p :
  bounded top b -> parent b = Some p -> bounded top p.
Proof. destruct b as [h t m [q|]]; simpl; intros [_ H] E; now inversion E; subst. Qed.

Lemma bounded_head top b r :
  bounded top b -> miner b = Some r -> height b <= top r.
Proof. destruct b as [h t m p]; simpl. intros [H _] E. now subst. Qed.

Section ProgramInvariant.
Context {RT : Runtime} {G : Type} {RS : RandomSource G}.
Hypothesis Hid : hash_identifies.

Definition miner_inv (top : MinerRef -> Z) (m : Miner) : Prop :=
  coherent m /\
  settled (known_blocks m) (rejected_blocks m) /\
  above_tip m /\
  bounded top (current_block m) /\
  Forall (bounded top) (block_candidates m) /\
  (forall k b, In (k, b) (rejected_blocks m) -> bounded top b) /\
  (forall c e, In c (connections m) -> In e (blocks_to_send c) ->
               bounded top (block e)).

Definition program_inv (ms : list Miner) : Prop :=
  forall i m, nth_error ms i = Some m ->
    self_ref m = i /\ miner_inv (tops ms) m.

Lemma miner_inv_mono top top' m :
  (forall r, top r <= top' r) -> miner_inv top m -> miner_inv top' m.
Proof.
  intros Hle [Hc [Hs [Ha [Ht [Hcs [Hr Hq]]]]]].
  split; [exact Hc|]. split; [exact Hs|]. split; [exact Ha|].
  split; [now apply (bounded_mono top)|]. split.
  { eapply Forall_impl; [|exact Hcs]. intros b. now apply bounded_mono. }
  split.
  - intros k b Hin. apply (bounded_mono top); [exact Hle|]. now apply (Hr k).
  - intros c e Hc' He. apply (bounded_mono top); [exact Hle|]. now apply (Hq c).
Qed.

Lemma top_of_receive_block m b m' :
  receive_block m b = Ok m' -> top_of m <= top_of m'.
Proof.
  intros E.
  destruct (receive_block_cases m b m' E)
    as [p [_ [[_ ->]|[[_ [_ ->]]|[_ [_ [known [rejected [R ->]]]]]]]]];
    try (unfold top_of; simpl; lia).
  unfold accepted, top_of.
  destruct (height b >? height (current_block m)); simpl; [|lia].
  rewrite map_app, fold_left_app. simpl. lia.
Qed.

Lemma receive_block_inv top m b m' :
  miner_inv top m -> bounded top b -> receive_block m b = Ok m' ->
  miner_inv top m' /\ self_ref m' = self_ref m /\ top_of m <= top_of m'.
Proof.
  intros [Hc [Hs [Ha [Ht [Hcs [Hr Hq]]]]]] Hb E.
  pose proof (hash_identifies_collision_free Hid) as Hcf.
  split; [|split; [|now apply (top_of_receive_block m b m')]].
  - split; [eapply (receive_block_coherent Hcf); eauto|].
    split; [eapply receive_block_settled; eauto|].
    split.
    { apply (miner_step_above_tip m m' Ha). eapply step_receive_block; eauto. }
    destruct (receive_block_cases m b m' E)
      as [p [_ [[_ ->]|[[_ [_ ->]]|[_ [_ [known [rejected [R ->]]]]]]]]].
    + now repeat split.
    + simpl. split; [exact Ht|]. split; [exact Hcs|]. split; [|exact Hq].
      intros k b' Hin. apply dict_set_In in Hin as [[-> ->]|Hin];
        [exact Hb|now apply (Hr k)].
    + assert (Hr' : forall k b', In (k, b') rejected -> bounded top b').
      { intros k b' Hin. apply (Hr k). eapply refresh_loop_rejected_sub; eauto. }
      unfold accepted.
      destruct (height b >? height (current_block m)); simpl.
      * split; [exact Ht|]. split; [|split; [exact Hr'|exact Hq]].
        apply Forall_app. split; [exact Hcs|]. now constructor.
      * split; [exact Ht|]. split; [exact Hcs|]. split; [exact Hr'|exact Hq].
  - destruct (receive_block_cases m b m' E)
      as [p [_ [[_ ->]|[[_ [_ ->]]|[_ [_ [known [rejected [R ->]]]]]]]]];
      try reflexivity.
    unfold accepted. now destruct (height b >? _).
Qed.

Lemma evaluate_candidates_inv top m g m' g' :
  miner_inv top m -> evaluate_candidates m g = Ok (m', g') ->
  miner_inv top m' /\ self_ref m' = self_ref m /\
  top_of m <= top_of m' /\ block_candidates m' = [].
Proof.
  intros [Hc [Hs [Ha [Ht [Hcs [Hr Hq]]]]]] E.
  pose proof (evaluate_candidates_coherent m g m' g' Hc E) as Hc'.
  pose proof (miner_step_above_tip m m' Ha
                (step_evaluate_candidates m g m' g' E)) as [Ha' _].
  destruct (evaluate_candidates_cases m g m' g' E) as [chosen [Hin [Hmax ->]]].
  split; [|split; [reflexivity|split; [|reflexivity]]].
  - split; [exact Hc'|]. split; [exact Hs|]. split; [exact Ha'|]. simpl.
    rewrite Forall_forall in Hcs.
    split; [now apply Hcs|]. split; [constructor|]. now split.
  - unfold top_of. simpl. apply fold_left_max_le.
    + unfold above_tip in Ha. rewrite Forall_forall in Ha.
      specialize (Ha chosen Hin). lia.
    + intros y Hy. apply in_map_iff in Hy as [c [<- Hc0]]. now apply Hmax.
Qed.

(** A block that a miner finds is higher than every block attributed to it
    so far, so that it is the parent of no rejected block. *)
Lemma found_block_settled top m t :
  settled (known_blocks m) (rejected_blocks m) ->
  (forall k b, In (k, b) (rejected_blocks m) -> bounded top b) ->
  top (self_ref m) <= height (current_block m) ->
  settled (dict_set (Block_hash (found_on m t)) (found_on m t) (known_blocks m))
          (rejected_blocks m).
Proof.
  intros Hs Hr Htop h b Hin.
  destruct (Hs h b Hin) as [p [Hp Hk]]. exists p. split; [exact Hp|].
  rewrite dict_contains_set, Hk, orb_false_r.
  apply String.eqb_neq. intros E.
  destruct (Hid _ _ E) as [Hh [Hm _]].
  pose proof (bounded_parent top b p (Hr h b Hin) Hp) as Hbp.
  pose proof (bounded_head top p (self_ref m) Hbp Hm) as Hle.
  unfold found_on in Hh. simpl in Hh. lia.
Qed.

Lemma mine_inv top top' m t g m' g' :
  miner_inv top m -> top (self_ref m) <= top_of m ->
  mine m t g = Ok (m', g') ->
  (forall r, top r <= top' r) -> top_of m' <= top' (self_ref m) ->
  miner_inv top' m' /\ self_ref m' = self_ref m /\ top_of m <= top_of m'.
Proof.
  intros Hm Htop E Hle Htop'.
  pose proof (hash_identifies_collision_free Hid) as Hcf.
  pose proof Hm as [Hc [Hs [Ha [Ht [Hcs [Hr Hq]]]]]].
  pose proof (mine_coherent Hcf m t g m' g' Hc E) as Hc'.
  pose proof (miner_step_above_tip m m' Ha (step_mine m t g m' g' E))
    as [Ha' _].
  destruct (mine_cases m t g m' g' E) as [m1 [Hm1 Hm']].
  assert (H1 : miner_inv top m1 /\ self_ref m1 = self_ref m /\
               top_of m <= top_of m1 /\ block_candidates m1 = []).
  { destruct Hm1 as [[-> Hnil]|[g0 [g1 E1]]].
    - repeat split; try assumption; try apply Hc; lia.
    - eapply evaluate_candidates_inv; eauto. }
  destruct H1 as [Hinv1 [Hs1 [Hle1 Hnil1]]].
  destruct Hm' as [->| ->].
  - split; [now apply (miner_inv_mono top)|]. split; [exact Hs1|exact Hle1].
  - destruct Hinv1 as [_ [Hst1 [_ [Ht1 [_ [Hr1 Hq1]]]]]].
    assert (Htip : top_of m1 = height (current_block m1))
      by (unfold top_of; now rewrite Hnil1).
    assert (Hfound : bounded top' (found_on m1 t)).
    { unfold found_on. simpl. split.
      - unfold top_of, announce in Htop'. simpl in Htop'.
        rewrite Hnil1 in Htop'. simpl in Htop'. rewrite Hs1. lia.
      - now apply (bounded_mono top). }
    split; [|split; [exact Hs1|]].
    + split; [exact Hc'|]. split.
      { unfold announce. simpl.
        apply (found_block_settled top m1 t Hst1 Hr1). rewrite Hs1. lia. }
      split; [exact Ha'|]. unfold announce. simpl.
      split; [now apply (bounded_mono top)|]. split.
      { rewrite Hnil1. simpl. constructor; [exact Hfound|constructor]. }
      split.
      * intros k b Hin. apply (bounded_mono top); [exact Hle|]. now apply (Hr1 k).
      * intros c e Hc0 He. apply in_map_iff in Hc0 as [c0 [<- Hc0]].
        simpl in He. apply in_app_or in He as [He|[<-|[]]].
        -- apply (bounded_mono top); [exact Hle|]. now apply (Hq1 c0).
        -- exact Hfound.
    + rewrite Htip in Hle1. unfold top_of, announce in *. simpl.
      rewrite Hnil1. simpl. lia.
Qed.

Lemma tops_update ms j a (f : Miner -> Miner) :
  nth_error ms j = Some a -> top_of a <= top_of (f a) ->
  forall r, tops ms r <= tops (update_nth j f ms) r.
Proof.
  intros Ha Hle r. unfold tops.
  destruct (Nat.eq_dec j r) as [<-|Hne].
  - rewrite nth_error_update_nth_same, Ha. simpl. exact Hle.
  - rewrite (nth_error_update_nth_other f ms j r Hne).
    destruct (nth_error ms r); lia.
Qed.

Lemma program_inv_update ms j a (f : Miner -> Miner) :
  program_inv ms -> nth_error ms j = Some a ->
  self_ref (f a) = self_ref a -> top_of a <= top_of (f a) ->
  (forall top', (forall r, tops ms r <= top' r) ->
                top_of (f a) <= top' j -> miner_inv top' (f a)) ->
  program_inv (update_nth j f ms).
Proof.
  intros Hinv Ha Hself Hle Hf i m Hm.
  pose proof (tops_update ms j a f Ha Hle) as Hup.
  destruct (Nat.eq_dec j i) as [<-|Hne].
  - rewrite nth_error_update_nth_same, Ha in Hm. simpl in Hm.
    injection Hm as <-. split.
    + rewrite Hself. now apply Hinv.
    + apply Hf; [exact Hup|]. unfold tops.
      rewrite nth_error_update_nth_same, Ha. simpl. lia.
  - rewrite (nth_error_update_nth_other f ms j i Hne) in Hm.
    destruct (Hinv i m Hm) as [Hs Hmi]. split; [exact Hs|].
    now apply (miner_inv_mono (tops ms)).
Qed.

Lemma send_block_inv c b ms ms' :
  program_inv ms -> bounded (tops ms) b -> send_block c b ms = Ok ms' ->
  program_inv ms' /\ (forall r, tops ms r <= tops ms' r).
Proof.
  intros Hinv Hb E. unfold send_block in E.
  destruct (miner b); [|discriminate].
  destruct (nth_error ms (receiver c)) as [r|] eqn:Hr; [|discriminate].
  destruct (receive_block r b) as [r'|x] eqn:Hrb; simpl in E; [|discriminate].
  injection E as <-.
  destruct (Hinv _ _ Hr) as [_ Hmi].
  destruct (receive_block_inv (tops ms) r b r' Hmi Hb Hrb) as [Hmi' [Hs Hle]].
  split.
  - apply (program_inv_update ms (receiver c) r); auto.
    intros top' Htop' _. now apply (miner_inv_mono (tops ms)).
  - now apply (tops_update ms (receiver c) r).
Qed.

Lemma deliveries_inv c bs : forall ms ms',
  program_inv ms -> Forall (bounded (tops ms)) bs ->
  foldM (fun s b => send_block c b s) bs ms = Ok ms' ->
  program_inv ms' /\ (forall r, tops ms r <= tops ms' r).
Proof.
  induction bs as [|b bs IH]; intros ms ms' Hinv Hbs E; simpl in E.
  - injection E as <-. split; [exact Hinv|]. intros r. lia.
  - apply Forall_cons_iff in Hbs as [Hb Hbs].
    destruct (send_block c b ms) as [ms1|x] eqn:E1; simpl in E; [|discriminate].
    destruct (send_block_inv c b ms ms1 Hinv Hb E1) as [Hinv1 Hle1].
    assert (Hbs1 : Forall (bounded (tops ms1)) bs).
    { eapply Forall_impl; [|exact Hbs]. intros b'. now apply bounded_mono. }
    destruct (IH ms1 ms' Hinv1 Hbs1 E) as [Hinv' Hle'].
    split; [exact Hinv'|]. intros r. specialize (Hle1 r). specialize (Hle' r). lia.
Qed.

Lemma In_update_nth {A : Type} (f : A -> A) (l : list A) : forall k x,
  In x (update_nth k f l) ->
  In x l \/ exists a, nth_error l k = Some a /\ x = f a.
Proof.
  induction l as [|a l IH]; intros [|k] x Hin; simpl in *; auto.
  - destruct Hin as [<-|Hin]; [right; now exists a|now left; right].
  - destruct Hin as [<-|Hin]; [now left; left|].
    destruct (IH k x Hin) as [H|H]; [now left; right|now right].
Qed.

Lemma tick_connection_inv i ms k ms' :
  program_inv ms -> tick_connection i ms k = Ok ms' -> program_inv ms'.
Proof.
  intros Hinv E. unfold tick_connection in E.
  destruct (nth_error ms i) as [m|] eqn:Hm; [|discriminate].
  destruct (nth_error (connections m) k) as [c|] eqn:Hc; [|discriminate].
  rewrite Connection_tick_spec in E.
  destruct (foldM _ (due (blocks_to_send c)) ms) as [ms1|x] eqn:E1;
    simpl in E; [|discriminate].
  injection E as <-.
  destruct (Hinv i m Hm) as [_ [_ [_ [_ [_ [_ [_ Hq]]]]]]].
  assert (Hblocks : forall e, In e (blocks_to_send c) ->
                              bounded (tops ms) (block e)).
  { intros e He. apply (Hq c); [|exact He]. eapply nth_error_In; eauto. }
  assert (Hdue : Forall (bounded (tops ms)) (due (blocks_to_send c))).
  { apply Forall_forall. intros b Hb. unfold due in Hb.
    apply in_map_iff in Hb as [e [<- He]]. apply filter_In in He as [He _].
    now apply Hblocks. }
  destruct (deliveries_inv c _ ms ms1 Hinv Hdue E1) as [Hinv1 Hle1].
  destruct (deliveries_frame c _ ms ms1 E1) as [Hlen _].
  destruct (nth_error ms1 i) as [m1|] eqn:Hm1.
  - destruct (Hinv1 i m1 Hm1) as [_ Hmi1].
    apply (program_inv_update ms1 i m1); auto.
    + unfold top_of. simpl. lia.
    + intros top' Htop' _.
      apply (miner_inv_mono (tops ms1)); [exact Htop'|].
      destruct Hmi1 as [H1 [H2 [H3 [H4 [H5 [H6 H7]]]]]].
      repeat (split; [assumption|]). simpl.
      intros c0 e Hc0 He.
      apply In_update_nth in Hc0 as [Hc0|[a [_ ->]]]; [now apply (H7 c0)|].
      simpl in He. unfold kept in He.
      apply in_map_iff in He as [e0 [<- He0]]. simpl.
      apply filter_In in He0 as [He0 _].
      apply (bounded_mono (tops ms)); [exact Hle1|]. now apply Hblocks.
  - apply nth_error_None in Hm1. rewrite Hlen in Hm1.
    apply nth_error_None in Hm1. congruence.
Qed.

Lemma choice_inv j m g m' g' ms :
  program_inv ms -> nth_error ms j = Some m ->
  evaluate_candidates m g = Ok (m', g') ->
  program_inv (update_nth j (fun _ => m') ms).
Proof.
  intros Hinv Hm E. destruct (Hinv j m Hm) as [_ Hmi].
  destruct (evaluate_candidates_inv (tops ms) m g m' g' Hmi E)
    as [Hmi' [Hs [Hle _]]].
  apply (program_inv_update ms j m); auto.
  intros top' Htop' _. now apply (miner_inv_mono (tops ms)).
Qed.

Lemma mine_at_inv t ms g j ms' g' :
  program_inv ms -> mine_at t (ms, g) j = Ok (ms', g') -> program_inv ms'.
Proof.
  intros Hinv E. unfold mine_at in E. simpl in E.
  destruct (nth_error ms j) as [m|] eqn:Hm; [|discriminate].
  destruct (mine m t g) as [[m' g1]|x] eqn:Em; simpl in E; [|discriminate].
  injection E as <- <-.
  destruct (Hinv j m Hm) as [Hs Hmi].
  assert (Htop : tops ms (self_ref m) <= top_of m).
  { rewrite Hs. unfold tops. rewrite Hm. lia. }
  destruct (mine_inv (tops ms) (fun r => Z.max (tops ms r) (top_of m'))
              m t g m' g1 Hmi Htop Em) as [_ [Hs' Hle]];
    [intros r; lia|lia|].
  apply (program_inv_update ms j m); auto.
  intros top' Htop' Hj.
  apply (mine_inv (tops ms) top' m t g m' g1 Hmi Htop Em Htop').
  now rewrite Hs.
Qed.
End ProgramInvariant.

(** ** The steps of the program *)

Section Program.
Context {RT : Runtime} {G : Type} {RS : RandomSource G}.

(** What the program does to the miners: a connection hands one of its
    queued blocks to [receive_block] of its receiver (line 35), a connection
    finishes its [tick] (line 131), a miner evaluates its candidates (line
    116), a miner finishes [mine] (line 223). *)
Inductive program_step : list Miner -> list Miner -> Prop :=
| program_delivers i m k c e ms ms' :
    nth_error ms i = Some m -> nth_error (connections m) k = Some c ->
    In e (blocks_to_send c) ->
    send_block c (block e) ms = Ok ms' -> program_step ms ms'
| program_ticks i k ms ms' :
    tick_connection i ms k = Ok ms' -> program_step ms ms'
| program_evaluates j m g m' g' ms :
    nth_error ms j = Some m -> evaluate_candidates m g = Ok (m', g') ->
    program_step ms (update_nth j (fun _ => m') ms)
| program_mines t j ms g ms' g' :
    mine_at t (ms, g) j = Ok (ms', g') -> program_step ms ms'.

Inductive program_reaches (ms0 : list Miner) : list Miner -> Prop :=
| program_start : program_reaches ms0 ms0
| program_next ms ms' :
    program_reaches ms0 ms -> program_step ms ms' -> program_reaches ms0 ms'.

(** The miners as [main] sets them up (lines 194 to 210): each is
    constructed on the genesis block, and is given connections on which
    nothing is queued. *)
Definition fresh (i : MinerRef) (m : Miner) : Prop :=
  exists nm hr cs,
    m = set_connections (Miner_init i nm genesis_block hr) cs /\
    Forall (fun c => blocks_to_send c = []) cs.

Definition freshly_created (ms : list Miner) : Prop :=
  forall i m, nth_error ms i = Some m -> fresh i m.

Lemma program_reaches_trans ms0 ms1 ms2 :
  program_reaches ms0 ms1 -> program_reaches ms1 ms2 -> program_reaches ms0 ms2.
Proof.
  intros H1 H2. induction H2 as [|ms ms' _ IH Hstep]; [exact H1|].
  now apply (program_next ms0 ms ms').
Qed.

Lemma foldM_reaches {A S : Type} (proj : S -> list Miner)
      (f : S -> A -> result S) (l : list A) :
  (forall s a s', f s a = Ok s' -> program_reaches (proj s) (proj s')) ->
  forall s s', foldM f l s = Ok s' -> program_reaches (proj s) (proj s').
Proof.
  intros Hf. induction l as [|a l IH]; intros s s' E; simpl in E.
  - injection E as <-. constructor.
  - destruct (f s a) as [s1|x] eqn:E1; simpl in E; [|discriminate].
    apply (program_reaches_trans _ (proj s1)); [now apply (Hf s a)|now apply IH].
Qed.

Lemma send_messages_reaches ms i ms' :
  send_messages ms i = Ok ms' -> program_reaches ms ms'.
Proof.
  unfold send_messages. destruct (nth_error ms i) as [m|]; [|discriminate].
  apply (foldM_reaches (fun s => s)). intros s k s' E.
  apply (program_next s s); [constructor|]. now apply (program_ticks i k).
Qed.

Lemma main_tick_reaches w t w' :
  main_tick w t = Ok w' -> program_reaches (fst w) (fst w').
Proof.
  unfold main_tick. intros E.
  destruct (foldM send_messages _ (fst w)) as [ms|x] eqn:E1; simpl in E;
    [|discriminate].
  apply (program_reaches_trans _ ms).
  - revert E1. apply (foldM_reaches (fun s => s)). intros s i s'.
    apply send_messages_reaches.
  - change ms with (fst (ms, snd w)). revert E.
    apply (foldM_reaches fst). intros [s g] j [s' g'] Ej. simpl.
    apply (program_next s s); [constructor|]. now apply (program_mines t j s g s' g').
Qed.

Lemma simulate_reaches block_periods g ms g' :
  simulate block_periods g = Ok (ms, g') -> program_reaches initial_miners ms.
Proof.
  unfold simulate. intros E.
  change initial_miners with (fst (initial_miners, g)).
  change ms with (fst (ms, g')). revert E.
  apply (foldM_reaches fst). intros w t w'. apply main_tick_reaches.
Qed.

(** Under the depth limit of the interpreter [receive_block] returns
    nothing but what the unlimited recursion returns, so that a delivery
    that returns under the limit is a step of the program as above. *)
Lemma receive_block_within_returns budget m b m' :
  receive_block_within budget m b = Ok m' -> receive_block m b = Ok m'.
Proof.
  unfold receive_block_within, receive_block.
  destruct (parent b) as [p|]; [|discriminate].
  destruct (dict_contains (Block_hash b) (known_blocks m)); [trivial|].
  destruct (dict_contains (Block_hash p) (known_blocks m)); [|trivial].
  simpl. unfold refresh_rejects_within, refresh_rejects. simpl.
  destruct (refresh_loop_within budget _ _) as [[known rejected]|e] eqn:R;
    simpl; [|discriminate].
  now rewrite (refresh_loop_within_ok _ _ _ _ R).
Qed.

Lemma limited_delivery_step budget i m k c e ms r r' :
  nth_error ms i = Some m -> nth_error (connections m) k = Some c ->
  In e (blocks_to_send c) -> miner (block e) <> None ->
  nth_error ms (receiver c) = Some r ->
  receive_block_within budget r (block e) = Ok r' ->
  program_step ms (update_nth (receiver c) (fun _ => r') ms).
Proof.
  intros Hm Hc He Hminer Hr E.
  apply (program_delivers i m k c e ms _ Hm Hc He).
  unfold send_block. destruct (miner (block e)); [|congruence].
  now rewrite Hr, (receive_block_within_returns budget r (block e) r' E).
Qed.

Lemma initial_miners_fresh : freshly_created initial_miners.
Proof.
  intros i m Hm. unfold initial_miners, add_connection in Hm.
  destruct i as [|[|[|i]]]; simpl in Hm;
    try (injection Hm as <-; eexists; eexists; eexists;
         split; [reflexivity|repeat constructor]).
  destruct i; discriminate.
Qed.

Hypothesis Hid : hash_identifies.

Lemma freshly_created_inv ms : freshly_created ms -> program_inv ms.
Proof.
  intros Hfresh i m Hm.
  destruct (Hfresh i m Hm) as [nm [hr [cs [-> Hcs]]]].
  split; [reflexivity|].
  pose proof (Miner_init_coherent i nm genesis_block hr eq_refl) as Hc.
  split; [exact Hc|]. simpl.
  split; [intros h b []|]. split; [constructor|].
  split; [now split|]. split; [constructor|]. split; [intros k b []|].
  intros c e Hin He. rewrite Forall_forall in Hcs.
  rewrite (Hcs c Hin) in He. destruct He.
Qed.

Lemma program_step_inv ms ms' :
  program_inv ms -> program_step ms ms' -> program_inv ms'.
Proof.
  intros Hinv Hstep.
  destruct Hstep as [i m k c e ms ms' Hm Hc He E|i k ms ms' E
                    |j m g m' g' ms Hm E|t j ms g ms' g' E].
  - destruct (Hinv i m Hm) as [_ [_ [_ [_ [_ [_ [_ Hq]]]]]]].
    apply (send_block_inv Hid c (block e) ms ms' Hinv); [|exact E].
    apply (Hq c); [|exact He]. eapply nth_error_In; eauto.
  - now apply (tick_connection_inv Hid i ms k).
  - now apply (choice_inv j m g m' g').
  - now apply (mine_at_inv Hid t ms g j ms' g').
Qed.

Lemma program_reaches_inv ms0 ms :
  freshly_created ms0 -> program_reaches ms0 ms -> program_inv ms.
Proof.
  intros Hfresh Hreach. induction Hreach as [|ms ms' _ IH Hstep].
  - now apply freshly_created_inv.
  - now apply (program_step_inv ms).
Qed.

Lemma program_inv_miner ms m :
  program_inv ms -> In m ms ->
  chain_known (known_blocks m) (current_block m) /\
  settled (known_blocks m) (rejected_blocks m).
Proof.
  intros Hinv Hin. apply In_nth_error in Hin as [i Hi].
  destruct (Hinv i m Hi) as [_ [[Hk [_ [Ht _]]] [Hs _]]].
  split; [|exact Hs].
  now apply (contains_chain_known (hash_identifies_collision_free Hid)).
Qed.
End Program.

(** C7. Provided that the hash of a block identifies its height, its miner
    and the hash of its parent: in every state that the program reaches from
    freshly created miners by delivering queued blocks to [receive_block],
    by evaluating candidates and by mining, each miner has its tip and every
    ancestor of its tip among its known blocks, and none of its rejected
    blocks has a parent whose hash is among them; the miners that
    [simulate] returns are in such a state; and a delivery that returns
    under the depth limit of the interpreter is one of these steps. *)
Theorem program_keeps_miner_invariant
        {RT : Runtime} {G : Type} {RS : RandomSource G} :
  hash_identifies ->
  (forall ms0 ms, freshly_created ms0 -> program_reaches ms0 ms ->
     forall m, In m ms ->
       chain_known (known_blocks m) (current_block m) /\
       settled (known_blocks m) (rejected_blocks m)) /\
  (forall block_periods (g : G) ms g',
     simulate block_periods g = Ok (ms, g') ->
     freshly_created initial_miners /\ program_reaches initial_miners ms) /\
  (forall budget i m k c e ms r r',
     nth_error ms i = Some m -> nth_error (connections m) k = Some c ->
     In e (blocks_to_send c) -> miner (block e) <> None ->
     nth_error ms (receiver c) = Some r ->
     receive_block_within budget r (block e) = Ok r' ->
     program_step (G := G) ms (update_nth (receiver c) (fun _ => r') ms)).
Proof.
  intros Hid. split; [|split].
  - intros ms0 ms Hfresh Hreach m Hin.
    apply (program_inv_miner Hid ms m); [|exact Hin].
    now apply (program_reaches_inv Hid ms0).
  - intros p g ms g' E. split; [apply initial_miners_fresh|].
    now apply (simulate_reaches p g ms g').
  - intros budget i m k c e ms r r'. apply limited_delivery_step.
Qed.

(** ** The invariant on a concrete run *)

(** The miners of [main] after A has found a block in the first second, and
    after the connection from A to B has ticked once more. *)
Definition miners_after_first_block : list Miner :=
  match mine_at 1 (initial_miners, lucky_script) 0%nat with
  | Ok (ms, _) => ms
  | Raise _ => []
  end.

Definition miners_after_delivery : list Miner :=
  match tick_connection 0%nat miners_after_first_block 0%nat with
  | Ok ms => ms
  | Raise _ => []
  end.

Lemma program_keeps_miner_invariant_witness :
  freshly_created initial_miners /\
  program_reaches initial_miners miners_after_delivery /\
  option_map (fun m => map height (map snd (known_blocks m)))
             (nth_error miners_after_delivery 1%nat) = Some [0; 1] /\
  forall m, In m miners_after_delivery ->
    chain_known (known_blocks m) (current_block m) /\
    settled (known_blocks m) (rejected_blocks m).
Proof.
  assert (Hreach : program_reaches initial_miners miners_after_delivery).
  { apply (program_next _ miners_after_first_block).
    - apply (program_next _ initial_miners); [constructor|].
      apply (program_mines 1 0%nat initial_miners lucky_script
                           miners_after_first_block idle_script).
      vm_compute. reflexivity.
    - apply (program_ticks 0%nat 0%nat). vm_compute. reflexivity. }
  split; [apply initial_miners_fresh|]. split; [exact Hreach|].
  split; [vm_compute; reflexivity|].
  exact (proj1 (program_keeps_miner_invariant (G := Script)
                  plain_runtime_identifies)
               initial_miners miners_after_delivery
               initial_miners_fresh Hreach).
Defined.

(** * Two runs from the same state of the generator

    The hash of a block covers [str(miner)], which for the [Miner] class is
    the default one and shows the address of the object.  Two runs of the
    program are two runtimes: the addresses, and with them the hashes,
    need not be the same. *)

(** The dictionary that holds the blocks [bs], in this order, each under
    its hash. *)
Definition hashed (RT : Runtime) (bs : list Block) : dict Block :=
  map (fun b => (@Block_hash RT b, b)) bs.

(** The miner [core] with the blocks [kb] known and [rb] rejected. *)
Definition dressed (RT : Runtime) (core : Miner) (kb rb : list Block) : Miner :=
  set_rejected_blocks (set_known_blocks core (hashed RT kb)) (hashed RT rb).

(** How two results are compared: both values, related, or the same
    exception. *)
Definition outcomes_alike {A B : Type} (R : A -> B -> Prop)
           (r1 : result A) (r2 : result B) : Prop :=
  match r1, r2 with
  | Ok a, Ok b => R a b
  | Raise e1, Raise e2 => e1 = e2
  | _, _ => False
  end.

Lemma map_snd_hashed RT bs : map snd (hashed RT bs) = bs.
Proof.
  unfold hashed. rewrite map_map. simpl. apply map_id.
Qed.

Lemma keys_hashed_hashed RT bs : @keys_hashed RT (hashed RT bs).
Proof.
  intros k b Hin. unfold hashed in Hin.
  apply in_map_iff in Hin as [b' [E _]]. now injection E as <- <-.
Qed.

Section TwoRuntimes.
Variables RT1 RT2 : Runtime.
Hypothesis Hid1 : @hash_identifies RT1.
Hypothesis Hid2 : @hash_identifies RT2.

(** Under both runtimes the same blocks have the same hash. *)
Lemma hashes_agree a b :
  String.eqb (@Block_hash RT1 a) (@Block_hash RT1 b) =
  String.eqb (@Block_hash RT2 a) (@Block_hash RT2 b).
Proof.
  destruct (String.eqb_spec (@Block_hash RT1 a) (@Block_hash RT1 b)) as [E1|N1];
    destruct (String.eqb_spec (@Block_hash RT2 a) (@Block_hash RT2 b)) as [E2|N2];
    try reflexivity; exfalso.
  - apply N2. apply same_identity_hash.
    now apply (hash_identifies_identity (RT := RT1)).
  - apply N1. apply same_identity_hash.
    now apply (hash_identifies_identity (RT := RT2)).
Qed.

Lemma contains_hashed b bs :
  dict_contains (@Block_hash RT1 b) (hashed RT1 bs) =
  dict_contains (@Block_hash RT2 b) (hashed RT2 bs).
Proof.
  induction bs as [|a bs IH]; simpl; [reflexivity|].
  now rewrite (hashes_agree b a), IH.
Qed.

Lemma dict_set_hashed b bs :
  exists bs',
    dict_set (@Block_hash RT1 b) b (hashed RT1 bs) = hashed RT1 bs' /\
    dict_set (@Block_hash RT2 b) b (hashed RT2 bs) = hashed RT2 bs'.
Proof.
  induction bs as [|a bs [bs' [E1 E2]]]; simpl.
  - now exists [b].
  - rewrite <- (hashes_agree b a).
    destruct (String.eqb_spec (@Block_hash RT1 b) (@Block_hash RT1 a)) as [E|N].
    + exists (b :: bs). simpl. split; f_equal.
      * now rewrite E.
      * f_equal. symmetry. apply same_identity_hash.
        now apply (hash_identifies_identity (RT := RT1)).
    + exists (a :: bs'). simpl. now rewrite E1, E2.
Qed.

Lemma dict_pop_hashed b bs :
  exists bs',
    dict_pop (@Block_hash RT1 b) (hashed RT1 bs) = hashed RT1 bs' /\
    dict_pop (@Block_hash RT2 b) (hashed RT2 bs) = hashed RT2 bs'.
Proof.
  induction bs as [|a bs [bs' [E1 E2]]]; simpl.
  - now exists [].
  - rewrite <- (hashes_agree b a).
    destruct (String.eqb (@Block_hash RT1 b) (@Block_hash RT1 a)).
    + now exists bs.
    + exists (a :: bs'). simpl. now rewrite E1, E2.
Qed.

Lemma scan_rejects_hashed kb rb :
  outcomes_alike
    (fun o1 o2 =>
       match o1, o2 with
       | None, None => True
       | Some (k1, b1), Some (k2, b2) =>
           b1 = b2 /\ k1 = @Block_hash RT1 b1 /\ k2 = @Block_hash RT2 b1
       | _, _ => False
       end)
    (@scan_rejects RT1 (hashed RT1 kb) (hashed RT1 rb))
    (@scan_rejects RT2 (hashed RT2 kb) (hashed RT2 rb)).
Proof.
  induction rb as [|b rb IH]; simpl; [exact I|].
  destruct (parent b) as [p|]; simpl; [|reflexivity].
  rewrite <- (contains_hashed p kb).
  destruct (dict_contains (@Block_hash RT1 p) (hashed RT1 kb)); simpl;
    [now repeat split|exact IH].
Qed.

Definition dicts_alike (d1 d2 : dict Block * dict Block) : Prop :=
  exists kb rb,
    d1 = (hashed RT1 kb, hashed RT1 rb) /\ d2 = (hashed RT2 kb, hashed RT2 rb).

Lemma refresh_loop_hashed : forall known rejected kb rb,
  known = hashed RT1 kb -> rejected = hashed RT1 rb ->
  outcomes_alike dicts_alike (@refresh_loop RT1 known rejected)
                 (@refresh_loop RT2 (hashed RT2 kb) (hashed RT2 rb)).
Proof.
  apply (refresh_loop_induction (RT := RT1)
    (fun known rejected => forall kb rb,
       known = hashed RT1 kb -> rejected = hashed RT1 rb ->
       outcomes_alike dicts_alike (@refresh_loop RT1 known rejected)
                      (@refresh_loop RT2 (hashed RT2 kb) (hashed RT2 rb)))).
  intros known rejected IH kb rb -> ->.
  rewrite (refresh_loop_step (RT := RT1)), (refresh_loop_step (RT := RT2)).
  pose proof (scan_rejects_hashed kb rb) as Hscan.
  destruct (@scan_rejects RT1 (hashed RT1 kb) (hashed RT1 rb))
    as [[[k1 b1]|]|e1];
    destruct (@scan_rejects RT2 (hashed RT2 kb) (hashed RT2 rb))
      as [[[k2 b2]|]|e2]; simpl in Hscan; try contradiction.
  - destruct Hscan as [<- [-> ->]].
    destruct (dict_set_hashed b1 kb) as [kb' [K1 K2]].
    destruct (dict_pop_hashed b1 rb) as [rb' [R1 R2]].
    rewrite K2, R2. apply (IH _ _ eq_refl); assumption.
  - simpl. now exists kb, rb.
  - exact Hscan.
Qed.

(** Two miners that differ in the hashes under which they hold their
    blocks, and in nothing else. *)
Definition alike (m1 m2 : Miner) : Prop :=
  exists core kb rb, m1 = dressed RT1 core kb rb /\ m2 = dressed RT2 core kb rb.

Lemma receive_block_alike m1 m2 b :
  alike m1 m2 ->
  outcomes_alike alike (@receive_block RT1 m1 b) (@receive_block RT2 m2 b).
Proof.
  intros [core [kb [rb [-> ->]]]]. unfold receive_block.
  destruct (parent b) as [p|]; [|reflexivity].
  cbn [dressed known_blocks rejected_blocks set_known_blocks set_rejected_blocks].
  rewrite <- (contains_hashed b kb), <- (contains_hashed p kb).
  destruct (dict_contains (@Block_hash RT1 b) (hashed RT1 kb)).
  { simpl. now exists core, kb, rb. }
  destruct (dict_contains (@Block_hash RT1 p) (hashed RT1 kb)); simpl.
  - destruct (dict_set_hashed b kb) as [kb' [K1 K2]].
    unfold refresh_rejects.
    cbn [dressed known_blocks rejected_blocks set_known_blocks set_rejected_blocks].
    rewrite K1, K2.
    pose proof (refresh_loop_hashed _ _ kb' rb eq_refl eq_refl) as Hloop.
    destruct (@refresh_loop RT1 (hashed RT1 kb') (hashed RT1 rb)) as [[k1 r1]|e1];
      destruct (@refresh_loop RT2 (hashed RT2 kb') (hashed RT2 rb)) as [[k2 r2]|e2];
      simpl in Hloop; try contradiction; simpl; [|exact Hloop].
    destruct Hloop as [kb2 [rb2 [E1 E2]]].
    injection E1 as -> ->. injection E2 as -> ->.
    destruct (height b >? height (current_block core)); simpl.
    + now exists (set_block_candidates core (block_candidates core ++ [b])), kb2, rb2.
    + now exists core, kb2, rb2.
  - destruct (dict_set_hashed b rb) as [rb' [R1 R2]]. rewrite R1, R2.
    now exists core, kb, rb'.
Qed.

Context {G : Type} {RS : RandomSource G}.

Lemma evaluate_candidates_dressed RT core kb rb (g : G) :
  evaluate_candidates (dressed RT core kb rb) g =
  (r <- evaluate_candidates core g ;; Ok (dressed RT (fst r) kb rb, snd r)).
Proof.
  unfold evaluate_candidates.
  cbn [dressed block_candidates set_known_blocks set_rejected_blocks].
  destruct (py_max (map height (block_candidates core))) as [h|e]; simpl;
    [|reflexivity].
  change (is_mine (dressed RT core kb rb)) with (is_mine core).
  destruct (find (is_mine core) _); simpl; [reflexivity|].
  destruct (random_choice _ g) as [[c g']|e]; reflexivity.
Qed.

Definition worlds_alike (w1 w2 : list Miner * G) : Prop :=
  Forall2 alike (fst w1) (fst w2) /\ snd w1 = snd w2.

Lemma mine_alike m1 m2 t (g : G) :
  alike m1 m2 ->
  outcomes_alike (fun r1 r2 => alike (fst r1) (fst r2) /\ snd r1 = snd r2)
                 (@mine RT1 G RS m1 t g) (@mine RT2 G RS m2 t g).
Proof.
  intros [core [kb [rb [-> ->]]]]. unfold mine.
  cbn [dressed block_candidates set_known_blocks set_rejected_blocks].
  rewrite !evaluate_candidates_dressed.
  assert (Hev : exists r,
            (if 0 <? Z.of_nat (List.length (block_candidates core))
             then r0 <- evaluate_candidates core g ;;
                  Ok (dressed RT1 (fst r0) kb rb, snd r0)
             else Ok (dressed RT1 core kb rb, g)) =
            (r0 <- r ;; Ok (dressed RT1 (fst r0) kb rb, snd r0)) /\
            (if 0 <? Z.of_nat (List.length (block_candidates core))
             then r0 <- evaluate_candidates core g ;;
                  Ok (dressed RT2 (fst r0) kb rb, snd r0)
             else Ok (dressed RT2 core kb rb, g)) =
            (r0 <- r ;; Ok (dressed RT2 (fst r0) kb rb, snd r0))).
  { destruct (0 <? _); [now exists (evaluate_candidates core g)|].
    now exists (Ok (core, g)). }
  destruct Hev as [r [-> ->]].
  destruct r as [[c1 g1]|e]; [|reflexivity].
  cbn [bind fst snd]. destruct (random_random g1) as [x g2].
  cbn [dressed current_block self_ref known_blocks probability_per_second
       set_known_blocks set_rejected_blocks].
  destruct (Qlt_bool x (probability_per_second c1));
    cbn [outcomes_alike fst snd].
  - destruct (dict_set_hashed
                (mkBlock (height (current_block c1) + 1) t (Some (self_ref c1))
                         (Some (current_block c1))) kb) as [kb' [K1 K2]].
    rewrite K1, K2. split; [|reflexivity].
    eexists (announce (set_block_candidates c1 (block_candidates c1 ++ [_])) _).
    exists kb', rb. split; reflexivity.
  - split; [|reflexivity]. now exists c1, kb, rb.
Qed.

Lemma alike_connections m1 m2 : alike m1 m2 -> connections m1 = connections m2.
Proof. now intros [core [kb [rb [-> ->]]]]. Qed.

Lemma alike_set_connections m1 m2 cs :
  alike m1 m2 -> alike (set_connections m1 cs) (set_connections m2 cs).
Proof.
  intros [core [kb [rb [-> ->]]]]. now exists (set_connections core cs), kb, rb.
Qed.

Lemma Forall2_nth_error {A B : Type} (R : A -> B -> Prop) l1 l2 :
  Forall2 R l1 l2 -> forall i,
  match nth_error l1 i, nth_error l2 i with
  | Some a, Some b => R a b
  | None, None => True
  | _, _ => False
  end.
Proof.
  induction 1 as [|a b l1 l2 Hab _ IH]; intros [|i]; simpl; auto.
  apply IH.
Qed.

Lemma Forall2_update_nth {A B : Type} (R : A -> B -> Prop)
      (f1 : A -> A) (f2 : B -> B) l1 l2 :
  Forall2 R l1 l2 -> (forall a b, R a b -> R (f1 a) (f2 b)) ->
  forall i, Forall2 R (update_nth i f1 l1) (update_nth i f2 l2).
Proof.
  intros H Hf. induction H as [|a b l1 l2 Hab Hl IH]; intros [|i]; simpl;
    constructor; auto.
Qed.

Lemma foldM_alike {A S1 S2 : Type} (R : S1 -> S2 -> Prop)
      (f1 : S1 -> A -> result S1) (f2 : S2 -> A -> result S2) (l : list A) :
  (forall s1 s2 a, R s1 s2 -> outcomes_alike R (f1 s1 a) (f2 s2 a)) ->
  forall s1 s2, R s1 s2 -> outcomes_alike R (foldM f1 l s1) (foldM f2 l s2).
Proof.
  intros Hf. induction l as [|a l IH]; intros s1 s2 Hs; simpl; [exact Hs|].
  pose proof (Hf s1 s2 a Hs) as Ha.
  destruct (f1 s1 a) as [s1'|e1]; destruct (f2 s2 a) as [s2'|e2];
    simpl in *; try contradiction; [now apply IH|exact Ha].
Qed.

Lemma send_block_alike c b ms1 ms2 :
  Forall2 alike ms1 ms2 ->
  outcomes_alike (Forall2 alike) (@send_block RT1 c b ms1) (@send_block RT2 c b ms2).
Proof.
  intros Hms. unfold send_block.
  destruct (miner b); [|reflexivity].
  pose proof (Forall2_nth_error alike ms1 ms2 Hms (receiver c)) as Hr.
  destruct (nth_error ms1 (receiver c)) as [r1|];
    destruct (nth_error ms2 (receiver c)) as [r2|]; try contradiction;
    [|reflexivity].
  pose proof (receive_block_alike r1 r2 b Hr) as Hrb.
  destruct (@receive_block RT1 r1 b) as [r1'|e1];
    destruct (@receive_block RT2 r2 b) as [r2'|e2];
    simpl in *; try contradiction; [|exact Hrb].
  now apply Forall2_update_nth.
Qed.

Lemma Connection_tick_alike c ms1 ms2 :
  Forall2 alike ms1 ms2 ->
  outcomes_alike (fun r1 r2 => fst r1 = fst r2 /\ Forall2 alike (snd r1) (snd r2))
                 (@Connection_tick RT1 c ms1) (@Connection_tick RT2 c ms2).
Proof.
  intros Hms. rewrite !Connection_tick_spec.
  pose proof (foldM_alike (Forall2 alike)
                (fun s b => @send_block RT1 c b s)
                (fun s b => @send_block RT2 c b s)
                (due (blocks_to_send c))
                (fun s1 s2 b H => send_block_alike c b s1 s2 H)
                ms1 ms2 Hms) as Hd.
  destruct (foldM _ _ ms1) as [ms1'|e1]; destruct (foldM _ _ ms2) as [ms2'|e2];
    simpl in *; try contradiction; [now split|exact Hd].
Qed.

Lemma tick_connection_alike i ms1 ms2 k :
  Forall2 alike ms1 ms2 ->
  outcomes_alike (Forall2 alike) (@tick_connection RT1 i ms1 k)
                 (@tick_connection RT2 i ms2 k).
Proof.
  intros Hms. unfold tick_connection.
  pose proof (Forall2_nth_error alike ms1 ms2 Hms i) as Hi.
  destruct (nth_error ms1 i) as [m1|]; destruct (nth_error ms2 i) as [m2|];
    try contradiction; [|reflexivity].
  rewrite <- (alike_connections m1 m2 Hi).
  destruct (nth_error (connections m1) k) as [c|]; [|reflexivity].
  pose proof (Connection_tick_alike c ms1 ms2 Hms) as Hc.
  destruct (@Connection_tick RT1 c ms1) as [[c1 ms1']|e1];
    destruct (@Connection_tick RT2 c ms2) as [[c2 ms2']|e2];
    simpl in *; try contradiction; [|exact Hc].
  destruct Hc as [<- Hms'].
  apply Forall2_update_nth; [exact Hms'|].
  intros a b Hab. rewrite <- (alike_connections a b Hab).
  now apply alike_set_connections.
Qed.

Lemma send_messages_alike ms1 ms2 i :
  Forall2 alike ms1 ms2 ->
  outcomes_alike (Forall2 alike) (@send_messages RT1 ms1 i) (@send_messages RT2 ms2 i).
Proof.
  intros Hms. unfold send_messages.
  pose proof (Forall2_nth_error alike ms1 ms2 Hms i) as Hi.
  destruct (nth_error ms1 i) as [m1|]; destruct (nth_error ms2 i) as [m2|];
    try contradiction; [|reflexivity].
  rewrite <- (alike_connections m1 m2 Hi).
  apply foldM_alike; [|exact Hms].
  intros s1 s2 k Hs. now apply tick_connection_alike.
Qed.

Lemma mine_at_alike t w1 w2 i :
  worlds_alike w1 w2 ->
  outcomes_alike worlds_alike (@mine_at RT1 G RS t w1 i) (@mine_at RT2 G RS t w2 i).
Proof.
  intros [Hms Hg]. unfold mine_at.
  pose proof (Forall2_nth_error alike _ _ Hms i) as Hi.
  destruct (nth_error (fst w1) i) as [m1|];
    destruct (nth_error (fst w2) i) as [m2|]; try contradiction; [|reflexivity].
  rewrite <- Hg.
  pose proof (mine_alike m1 m2 t (snd w1) Hi) as Hm.
  destruct (@mine RT1 G RS m1 t (snd w1)) as [[m1' g1]|e1];
    destruct (@mine RT2 G RS m2 t (snd w1)) as [[m2' g2]|e2];
    simpl in *; try contradiction; [|exact Hm].
  destruct Hm as [Hm <-]. split; [|reflexivity]. simpl.
  now apply Forall2_update_nth.
Qed.

Lemma main_tick_alike w1 w2 t :
  worlds_alike w1 w2 ->
  outcomes_alike worlds_alike (@main_tick RT1 G RS w1 t) (@main_tick RT2 G RS w2 t).
Proof.
  intros [Hms Hg]. unfold main_tick.
  rewrite <- (Forall2_length Hms), <- Hg.
  pose proof (foldM_alike (Forall2 alike) (@send_messages RT1) (@send_messages RT2)
                (seq 0 (List.length (fst w1)))
                (fun s1 s2 i H => send_messages_alike s1 s2 i H)
                (fst w1) (fst w2) Hms) as Hs.
  destruct (foldM (@send_messages RT1) _ (fst w1)) as [ms1|e1];
    destruct (foldM (@send_messages RT2) _ (fst w2)) as [ms2|e2];
    simpl in *; try contradiction; [|exact Hs].
  apply foldM_alike.
  - intros s1 s2 i H. now apply mine_at_alike.
  - now split.
Qed.

Hypothesis Hexp : @exp_neg_1_600 RT1 = @exp_neg_1_600 RT2.

Lemma Miner_init_alike i nm hr :
  alike (@Miner_init RT1 i nm genesis_block hr) (@Miner_init RT2 i nm genesis_block hr).
Proof.
  exists (@Miner_init RT1 i nm genesis_block hr), [genesis_block], [].
  split; [reflexivity|]. unfold Miner_init, dressed. simpl. now rewrite Hexp.
Qed.

Lemma add_connection_alike m1 m2 other d :
  alike m1 m2 -> alike (add_connection m1 other d) (add_connection m2 other d).
Proof.
  intros [core [kb [rb [-> ->]]]]. now exists (add_connection core other d), kb, rb.
Qed.

Lemma initial_miners_alike :
  Forall2 alike (@initial_miners RT1) (@initial_miners RT2).
Proof.
  unfold initial_miners.
  repeat constructor; repeat apply add_connection_alike; apply Miner_init_alike.
Qed.

Lemma simulate_alike block_periods (g : G) :
  outcomes_alike worlds_alike (@simulate RT1 G RS block_periods g)
                 (@simulate RT2 G RS block_periods g).
Proof.
  unfold simulate. apply foldM_alike.
  - intros s1 s2 t H. now apply main_tick_alike.
  - split; [apply initial_miners_alike|reflexivity].
Qed.
End TwoRuntimes.

(** The states of two miners are the same but for the hash strings: every
    attribute other than the two dictionaries is the same, the dictionaries
    hold the same blocks in the same order, and each holds every block under
    the hash that the block has in its own run. *)
Definition same_up_to_hashes (RT1 RT2 : Runtime) (m1 m2 : Miner) : Prop :=
  hashrate_proportion m1 = hashrate_proportion m2 /\
  current_block m1 = current_block m2 /\
  name m1 = name m2 /\
  block_candidates m1 = block_candidates m2 /\
  connections m1 = connections m2 /\
  blocks_mined m1 = blocks_mined m2 /\
  probability_per_second m1 = probability_per_second m2 /\
  self_ref m1 = self_ref m2 /\
  map snd (known_blocks m1) = map snd (known_blocks m2) /\
  map snd (rejected_blocks m1) = map snd (rejected_blocks m2) /\
  @keys_hashed RT1 (known_blocks m1) /\ @keys_hashed RT2 (known_blocks m2) /\
  @keys_hashed RT1 (rejected_blocks m1) /\ @keys_hashed RT2 (rejected_blocks m2).

Definition runs_agree (RT1 RT2 : Runtime) {G : Type}
           (r1 r2 : result (list Miner * G)) : Prop :=
  outcomes_alike
    (fun w1 w2 => Forall2 (same_up_to_hashes RT1 RT2) (fst w1) (fst w2) /\
                  snd w1 = snd w2)
    r1 r2.

Lemma alike_same_up_to_hashes RT1 RT2 m1 m2 :
  alike RT1 RT2 m1 m2 -> same_up_to_hashes RT1 RT2 m1 m2.
Proof.
  intros [core [kb [rb [-> ->]]]]. unfold same_up_to_hashes, dressed. simpl.
  rewrite !map_snd_hashed.
  repeat (split; [reflexivity|]).
  repeat split; apply keys_hashed_hashed.
Qed.

Lemma same_up_to_hashes_summarize RT1 RT2 ms1 ms2 :
  Forall2 (same_up_to_hashes RT1 RT2) ms1 ms2 ->
  summarize_all ms1 = summarize_all ms2.
Proof.
  induction 1 as [|m1 m2 ms1 ms2 Hm _ IH]; simpl; [reflexivity|].
  rewrite IH. f_equal.
  destruct Hm as [H1 [H2 [_ [_ [_ [H6 [_ [H8 [H9 _]]]]]]]]].
  unfold summarize. rewrite H1, H2, H6, H8.
  assert (Hlen : List.length (known_blocks m1) = List.length (known_blocks m2)).
  { rewrite <- (length_map snd (known_blocks m1)), H9. apply length_map. }
  now rewrite Hlen.
Qed.

Section SameSeed.
Variables RT1 RT2 : Runtime.
Context {G : Type} {RS : RandomSource G}.
Hypothesis Hid1 : @hash_identifies RT1.
Hypothesis Hid2 : @hash_identifies RT2.
Hypothesis Hexp : @exp_neg_1_600 RT1 = @exp_neg_1_600 RT2.

Lemma simulate_agrees block_periods (g : G) :
  runs_agree RT1 RT2 (@simulate RT1 G RS block_periods g)
             (@simulate RT2 G RS block_periods g).
Proof.
  pose proof (simulate_alike RT1 RT2 Hid1 Hid2 Hexp block_periods g) as H.
  unfold runs_agree.
  destruct (@simulate RT1 G RS block_periods g) as [[ms1 g1]|e1];
    destruct (@simulate RT2 G RS block_periods g) as [[ms2 g2]|e2];
    simpl in *; try contradiction; [|exact H].
  destruct H as [Hms Hg]. simpl in *. split; [|exact Hg].
  eapply Forall2_impl; [|exact Hms]. apply alike_same_up_to_hashes.
Qed.

Lemma main_agrees block_periods (g : G) :
  @main RT1 G RS block_periods g = @main RT2 G RS block_periods g.
Proof.
  pose proof (simulate_agrees block_periods g) as H.
  unfold main, runs_agree in *.
  destruct (@simulate RT1 G RS block_periods g) as [[ms1 g1]|e1];
    destruct (@simulate RT2 G RS block_periods g) as [[ms2 g2]|e2];
    simpl in *; try contradiction; [|now rewrite H].
  destruct H as [Hms _]. now apply (same_up_to_hashes_summarize RT1 RT2).
Qed.
End SameSeed.

(** C2, as the program has it.  Two runs of the same duration that start
    from the same state of the generator, under runtimes in which the hash
    identifies the block (each may print its miner objects as it likes),
    end in the same state up to the hash strings: they fail alike or
    return the same state of the generator and, for every miner, the same
    tip, candidates, queues and counters and the same known and rejected
    blocks in the same order, each block filed under the hash of its own
    run; and [main] returns the same summaries. *)
Theorem same_seed_runs_agree_up_to_hashes
        (RT1 RT2 : Runtime) {G : Type} {RS : RandomSource G}
        (block_periods : Z) (g : G) :
  @hash_identifies RT1 -> @hash_identifies RT2 ->
  @exp_neg_1_600 RT1 = @exp_neg_1_600 RT2 ->
  runs_agree RT1 RT2 (@simulate RT1 G RS block_periods g)
             (@simulate RT2 G RS block_periods g) /\
  @main RT1 G RS block_periods g = @main RT2 G RS block_periods g.
Proof.
  intros Hid1 Hid2 Hexp. split.
  - now apply simulate_agrees.
  - now apply main_agrees.
Qed.

(** C2, as stated, fails: among the inputs the claim lists there is
    nothing that fixes the addresses of the miner objects, which enter
    every hash.  Two runs of one period from the same state of the
    generator, with the same digest function, do not end with the same
    [known_blocks]. *)
Lemma same_seed_runs_differ_in_hashes :
  ~ (forall (RT1 RT2 : Runtime),
        @hash_identifies RT1 -> @hash_identifies RT2 ->
        @sha256_hexdigest RT1 = @sha256_hexdigest RT2 ->
        @exp_neg_1_600 RT1 = @exp_neg_1_600 RT2 ->
        forall (block_periods : Z) (g : Script),
          final_miners (@simulate RT1 Script script_source block_periods g) =
          final_miners (@simulate RT2 Script script_source block_periods g)).
Proof.
  intros H.
  specialize (H plain_runtime relocated_runtime plain_runtime_identifies
                relocated_runtime_identifies eq_refl eq_refl 1 lucky_script).
  assert (E : (r <- final_miners (@simulate plain_runtime Script script_source
                                            1 lucky_script) ;;
               Ok (map (fun m => dict_keys (known_blocks m)) r)) =
              (r <- final_miners (@simulate relocated_runtime Script script_source
                                            1 lucky_script) ;;
               Ok (map (fun m => dict_keys (known_blocks m)) r))).
  { now rewrite H. }
  vm_compute in E. discriminate E.
Qed.

Lemma same_seed_runs_agree_up_to_hashes_witness :
  @hash_identifies plain_runtime /\ @hash_identifies relocated_runtime /\
  @exp_neg_1_600 plain_runtime = @exp_neg_1_600 relocated_runtime /\
  runs_agree plain_runtime relocated_runtime
             (@simulate plain_runtime Script script_source 1 lucky_script)
             (@simulate relocated_runtime Script script_source 1 lucky_script) /\
  @main plain_runtime Script script_source 1 lucky_script =
  @main relocated_runtime Script script_source 1 lucky_script.
Proof.
  split; [exact plain_runtime_identifies|].
  split; [exact relocated_runtime_identifies|].
  split; [reflexivity|].
  exact (same_seed_runs_agree_up_to_hashes plain_runtime relocated_runtime
           1 lucky_script plain_runtime_identifies relocated_runtime_identifies
           eq_refl).
Defined.
